(** * Coast FIRE calculator: the decision engine of [src/app/page.tsx]

    A shallow embedding of the calculation part of the [Page] component:
    the derived values, the three rules with their gaps, the verdict, the
    top driver, the next-step recommendation and the return-sensitivity
    scan.  Of the input widgets only the clamp of [PercentInput] is
    modelled; the markup is not.

    A JavaScript [number] is an IEEE-754 binary64 value; it is modelled by
    Rocq's primitive [float], which is the same format with the same
    round-to-nearest-even operations.  The top level embeds the later of
    the two revisions of the page (the one with the named constants and the
    sensitivity card); the earlier one is embedded in the module [V1]. *)

From Stdlib Require Import Floats ZArith List String Bool Lia.
Import ListNotations.

Set Warnings "-inexact-float".

Local Open Scope float_scope.

(** ** The JavaScript primitives the page uses *)

Module JS.

Definition number := float.

Definition Infinity : number := infinity.
Definition NaN : number := nan.

Definition isNegZero (x : number) : bool :=
  match classify x with NZero => true | _ => false end.

Definition isPosZero (x : number) : bool :=
  match classify x with PZero => true | _ => false end.

(** [x >= y] and [x > y] are [y <= x] and [y < x]; every comparison with a
    NaN operand is false. *)
Definition geb (x y : number) : bool := y <=? x.
Definition gtb (x y : number) : bool := y <? x.

(** [Math.min(...l)], ECMAScript 21.3.2.25: start from +Infinity; a NaN
    argument makes the result NaN; -0 is smaller than +0. *)
Fixpoint min_from (lowest : number) (l : list number) : number :=
  match l with
  | [] => lowest
  | n :: rest =>
      if is_nan n then NaN
      else
        let lowest := if isNegZero n && isPosZero lowest then n else lowest in
        let lowest := if n <? lowest then n else lowest in
        min_from lowest rest
  end.

Definition Math_min (l : list number) : number := min_from Infinity l.

(** [Math.max(...l)], ECMAScript 21.3.2.24: start from -Infinity; a NaN
    argument makes the result NaN; +0 is larger than -0. *)
Fixpoint max_from (highest : number) (l : list number) : number :=
  match l with
  | [] => highest
  | n :: rest =>
      if is_nan n then NaN
      else
        let highest := if isPosZero n && isNegZero highest then n else highest in
        let highest := if highest <? n then n else highest in
        max_from highest rest
  end.

Definition Math_max (l : list number) : number := max_from neg_infinity l.

(** [Math.round(x)], ECMAScript 21.3.2.28: the integral number closest to
    [x], the one closer to +Infinity on a tie; NaN, the infinities, the
    zeros and integral values are returned as they are; a value in
    [-0.5, 0) gives -0 and one in (0, 0.5) gives +0.  A finite binary64
    value with a negative exponent is below 2^53 in magnitude, so the
    integer floor(x + 1/2) is computed exactly in [Z] and is itself a
    binary64 value. *)
Definition round_Z (s : bool) (m : positive) (e : Z) : Z :=
  Z.shiftr (2 * cond_Zopp s (Zpos m) + 2 ^ (- e)) (1 - e).

Definition Math_round (x : number) : number :=
  match Prim2SF x with
  | S754_finite s m e =>
      if (0 <=? e)%Z then x
      else
        let n := round_Z s m e in
        if (n =? 0)%Z then (if s then neg_zero else zero)
        else SF2Prim (binary_normalize prec emax n 0 false)
  | _ => x
  end.

(** Abrupt completion: the only exception the engine could raise is the
    TypeError of [Array.prototype.reduce] on an empty array without an
    initial value. *)
Inductive error := TypeError.

Inductive completion (A : Type) :=
| Normal (a : A)
| Throw (e : error).
Arguments Normal {A} a.
Arguments Throw {A} e.

Definition bind {A B} (c : completion A) (k : A -> completion B) : completion B :=
  match c with
  | Normal a => k a
  | Throw e => Throw e
  end.

(** [l.reduce(f)] without an initial value, ECMAScript 23.1.3.24: the
    first element is the initial accumulator; an empty array throws. *)
Definition reduce {A} (f : A -> A -> A) (l : list A) : completion A :=
  match l with
  | [] => Throw TypeError
  | a :: rest => Normal (fold_left f rest a)
  end.

End JS.

Notation "x >=? y" := (JS.geb x y) (at level 70, no associativity) : float_scope.
Notation "x >? y" := (JS.gtb x y) (at level 70, no associativity) : float_scope.

(** ** Inputs and constants *)

(** The [useState] cells that take part in the calculation ([state] and
    [filing] are only displayed). *)
Record Inputs := {
  netWorth : float;
  salary : float;
  salaryTaxRate : float;
  investReturn : float;
  investTaxRate : float;
  spend : float;
  sideIncome : float;
  cashOnHand : float
}.

Definition TARGET_SALARY_VS_NW : float := 0.10.
Definition CASH_BUFFER_MONTHS : float := 6.
Definition CLOSE_BAND_FRACTION : float := 0.05.

(** ** Derived values, rules and gaps *)

Definition afterTaxSalary (i : Inputs) : float :=
  salary i * (1 - salaryTaxRate i).

Definition salaryVsNW (i : Inputs) : float :=
  if netWorth i >? 0 then afterTaxSalary i / netWorth i else JS.Infinity.

Definition afterTaxPortfolioReturn (i : Inputs) : float :=
  netWorth i * investReturn i * (1 - investTaxRate i).

Definition bufferTarget (i : Inputs) : float :=
  (spend i / 12) * CASH_BUFFER_MONTHS.

Definition passRuleB (i : Inputs) : bool :=
  salaryVsNW i <=? TARGET_SALARY_VS_NW.

Definition passRuleC (i : Inputs) : bool :=
  afterTaxPortfolioReturn i + sideIncome i >=? spend i.

Definition passBuffer (i : Inputs) : bool :=
  cashOnHand i >=? bufferTarget i.

Definition bGap (i : Inputs) : float :=
  TARGET_SALARY_VS_NW - salaryVsNW i.

Definition cGap (i : Inputs) : float :=
  (afterTaxPortfolioReturn i + sideIncome i - spend i) / spend i.

Definition bufferGap (i : Inputs) : float :=
  (cashOnHand i - bufferTarget i) / bufferTarget i.

Definition failingGaps (i : Inputs) : list float :=
  [ if passRuleB i then JS.Infinity else bGap i;
    if passRuleC i then JS.Infinity else cGap i;
    if passBuffer i then JS.Infinity else bufferGap i ].

Definition worstGap (i : Inputs) : float := JS.Math_min (failingGaps i).

Definition isYes (i : Inputs) : bool :=
  passRuleB i && passRuleC i && passBuffer i.

Definition isClose (i : Inputs) : bool :=
  negb (isYes i) && (worstGap i >=? - CLOSE_BAND_FRACTION).

Definition verdict (i : Inputs) : string :=
  if isYes i then "YES" else if isClose i then "CLOSE" else "NOT YET".

(** ** Top driver *)

Definition driver (i : Inputs) : string :=
  if negb (passRuleB i) && (bGap i <=? cGap i) && (bGap i <=? bufferGap i)
  then "Salary too large vs net worth"
  else if negb (passRuleC i) && (cGap i <=? bGap i) && (cGap i <=? bufferGap i)
  then "Spending too high vs portfolio + side income"
  else if negb (passBuffer i) && (bufferGap i <=? bGap i) && (bufferGap i <=? cGap i)
  then "Insufficient cash buffer"
  else if isYes i then "You’re good" else "Multiple factors".

(** ** Next step *)

Record Delta := { label : string; value : float }.

Definition neededNWforB (i : Inputs) : float :=
  afterTaxSalary i / TARGET_SALARY_VS_NW.

Definition deltaNW_B (i : Inputs) : float :=
  JS.Math_max [0; neededNWforB i - netWorth i].

Definition shortfallC (i : Inputs) : float :=
  JS.Math_max [0; spend i - (afterTaxPortfolioReturn i + sideIncome i)].

Definition atRetPerDollar (i : Inputs) : float :=
  investReturn i * (1 - investTaxRate i).

Definition deltaNW_C (i : Inputs) : float :=
  if atRetPerDollar i >? 0 then shortfallC i / atRetPerDollar i else JS.Infinity.

Definition bufferShort (i : Inputs) : float :=
  JS.Math_max [0; bufferTarget i - cashOnHand i].

Definition deltas (i : Inputs) : list Delta :=
  (if passRuleB i then []
   else [ {| label := "Grow net worth (Rule B)"; value := deltaNW_B i |} ])
  ++ (if passRuleC i then []
      else [ {| label := "Add side income"; value := shortfallC i |};
             {| label := "Cut spending"; value := shortfallC i |};
             {| label := "Grow net worth (Rule C)"; value := deltaNW_C i |} ])
  ++ (if passBuffer i then []
      else [ {| label := "Hold more cash"; value := bufferShort i |} ]).

(** The callback of the [reduce]: keep the accumulator unless the current
    element is strictly smaller (or the comparison fails on a NaN). *)
Definition smaller (a b : Delta) : Delta :=
  if value a <=? value b then a else b.

Definition best (i : Inputs) : JS.completion Delta :=
  JS.reduce smaller (deltas i).

(** The number handed to [currency] inside [pretty]. *)
Definition shownAmount (v : float) : float :=
  JS.Math_max [0; JS.Math_round v].

Section Rendering.

(** [Number.prototype.toLocaleString(undefined, { maximumFractionDigits })]
    formats in the host's default locale; it is a parameter of the
    rendering. *)
Variable toLocaleString : float -> nat -> string.

Definition currency (n : float) : string := toLocaleString n 0.

Definition pct (n : float) : string :=
  (toLocaleString (n * 100) 1 ++ "%")%string.

Definition pretty (v : float) : string :=
  ("$" ++ currency (shownAmount v))%string.

(** The [switch] on the label of the selected lever. *)
Definition sentence (b : Delta) : string :=
  if String.eqb (label b) "Grow net worth (Rule B)" then
    "Add about " ++ pretty (value b) ++ " to net worth to get salary ≤ "
      ++ pct TARGET_SALARY_VS_NW ++ " of NW."
  else if String.eqb (label b) "Add side income" then
    "Add about " ++ pretty (value b) ++ "/yr in side income to meet spending."
  else if String.eqb (label b) "Cut spending" then
    "Trim spending by about " ++ pretty (value b) ++ " to meet coverage."
  else if String.eqb (label b) "Grow net worth (Rule C)" then
    "Add about " ++ pretty (value b) ++ " to net worth so returns cover spending."
  else if String.eqb (label b) "Hold more cash" then
    "Hold about " ++ pretty (value b) ++ " more in cash for a 6-month buffer."
  else "Make the smallest change above to flip this to YES.".

Definition nextStep (i : Inputs) : JS.completion string :=
  if (List.length (deltas i) =? 0)%nat then JS.Normal "You can coast."%string
  else JS.bind (best i) (fun b => JS.Normal (sentence b)).

End Rendering.

(** ** Return sensitivity *)

Record Scenario := { r : float; yes : bool; close : bool; coverage : float }.

Definition returnScenarios : list float := [0.08; 0.09; 0.10; 0.11; 0.12].

Definition verdictForR (i : Inputs) (r : float) : Scenario :=
  let atRet := netWorth i * r * (1 - investTaxRate i) in
  let b := salaryVsNW i <=? TARGET_SALARY_VS_NW in
  let c := atRet + sideIncome i >=? spend i in
  let buffer := passBuffer i in
  let cGapR := (atRet + sideIncome i - spend i) / spend i in
  let failing :=
    [ if b then JS.Infinity else TARGET_SALARY_VS_NW - salaryVsNW i;
      if c then JS.Infinity else cGapR;
      if buffer then JS.Infinity else bufferGap i ] in
  let worst := JS.Math_min failing in
  let yes := b && c && buffer in
  let close := negb yes && (worst >=? - CLOSE_BAND_FRACTION) in
  let coverage := (atRet + sideIncome i) / spend i in
  {| r := r; yes := yes; close := close; coverage := coverage |}.

Definition sensitivity (i : Inputs) : list Scenario :=
  map (verdictForR i) returnScenarios.

(** ** The evaluator as one function *)

Record Result := {
  res_verdict : string;
  res_driver : string;
  res_passRuleB : bool; res_bGap : float;
  res_passRuleC : bool; res_cGap : float;
  res_passBuffer : bool; res_bufferGap : float;
  res_afterTaxSalary : float;
  res_salaryVsNW : float;
  res_afterTaxPortfolioReturn : float;
  res_nextStep : string;
  res_sensitivity : list Scenario
}.

Definition evaluate (toLocaleString : float -> nat -> string) (i : Inputs)
  : JS.completion Result :=
  JS.bind (nextStep toLocaleString i) (fun step =>
  JS.Normal
    {| res_verdict := verdict i;
       res_driver := driver i;
       res_passRuleB := passRuleB i; res_bGap := bGap i;
       res_passRuleC := passRuleC i; res_cGap := cGap i;
       res_passBuffer := passBuffer i; res_bufferGap := bufferGap i;
       res_afterTaxSalary := afterTaxSalary i;
       res_salaryVsNW := salaryVsNW i;
       res_afterTaxPortfolioReturn := afterTaxPortfolioReturn i;
       res_nextStep := step;
       res_sensitivity := sensitivity i |}).

Definition example1 : Inputs :=
  {| netWorth := 3000000; salary := 480000; salaryTaxRate := 0.25;
     investReturn := 0.10; investTaxRate := 0.20; spend := 180000;
     sideIncome := 0; cashOnHand := 60000 |}.

(** ** The rules as the specification words them *)

(** The three rules in evaluation order, each with its pass flag and gap. *)
Definition rules (i : Inputs) : list (bool * float) :=
  [ (passRuleB i, bGap i); (passRuleC i, cGap i); (passBuffer i, bufferGap i) ].

(** "A failing rule with gap [g]". *)
Definition failing (i : Inputs) (g : float) : Prop := In (false, g) (rules i).

(** "The minimum over the gaps of the failing rules only". *)
Definition minFailingGap (i : Inputs) : float :=
  JS.Math_min (map snd (filter (fun pg => negb (fst pg)) (rules i))).

(** The driver "with each passing rule's gap treated as +Infinity". *)
Definition maskedGap (p : bool) (g : float) : float :=
  if p then JS.Infinity else g.

(** The body of [driver] as a function of the three flags and gaps. *)
Definition driverOf (pB pC pF : bool) (gB gC gF : float) : string :=
  if negb pB && (gB <=? gC) && (gB <=? gF)
  then "Salary too large vs net worth"
  else if negb pC && (gC <=? gB) && (gC <=? gF)
  then "Spending too high vs portfolio + side income"
  else if negb pF && (gF <=? gB) && (gF <=? gC)
  then "Insufficient cash buffer"
  else if pB && pC && pF then "You’re good" else "Multiple factors".

Definition driverMasked (i : Inputs) : string :=
  driverOf (passRuleB i) (passRuleC i) (passBuffer i)
    (maskedGap (passRuleB i) (bGap i))
    (maskedGap (passRuleC i) (cGap i))
    (maskedGap (passBuffer i) (bufferGap i)).

(** "The failing rule whose gap is minimal, ties going to Rule B, then
    Rule C, then Buffer": [g] is minimal when it is at most the gap of
    every failing rule. *)
Definition minimalFailing (i : Inputs) (g : float) : bool :=
  forallb (fun pg : bool * float => fst pg || (g <=? snd pg)) (rules i).

Definition driverSpec (i : Inputs) : option string :=
  if isYes i then Some "You’re good"%string
  else if negb (passRuleB i) && minimalFailing i (bGap i)
  then Some "Salary too large vs net worth"%string
  else if negb (passRuleC i) && minimalFailing i (cGap i)
  then Some "Spending too high vs portfolio + side income"%string
  else if negb (passBuffer i) && minimalFailing i (bufferGap i)
  then Some "Insufficient cash buffer"%string
  else None.

(** Each candidate is a lever of a failing rule, with that rule's
    required magnitude. *)
Definition leverOf (i : Inputs) (d : Delta) : Prop :=
  (passRuleB i = false
   /\ d = {| label := "Grow net worth (Rule B)"; value := deltaNW_B i |})
  \/ (passRuleC i = false
      /\ (d = {| label := "Add side income"; value := shortfallC i |}
          \/ d = {| label := "Cut spending"; value := shortfallC i |}
          \/ d = {| label := "Grow net worth (Rule C)"; value := deltaNW_C i |}))
  \/ (passBuffer i = false
      /\ d = {| label := "Hold more cash"; value := bufferShort i |}).

Definition candidateLabels (i : Inputs) : list string :=
  (if passRuleB i then [] else ["Grow net worth (Rule B)"%string])
  ++ (if passRuleC i then []
      else ["Add side income"%string; "Cut spending"%string;
            "Grow net worth (Rule C)"%string])
  ++ (if passBuffer i then [] else ["Hold more cash"%string]).

(** The inputs with another assumed return. *)
Definition withReturn (i : Inputs) (ret : float) : Inputs :=
  {| netWorth := netWorth i; salary := salary i;
     salaryTaxRate := salaryTaxRate i; investReturn := ret;
     investTaxRate := investTaxRate i; spend := spend i;
     sideIncome := sideIncome i; cashOnHand := cashOnHand i |}.

(** ** Example inputs *)

Definition closeExample : Inputs :=
  {| netWorth := 4000000; salary := 480000; salaryTaxRate := 0.25;
     investReturn := 0.10; investTaxRate := 0.20; spend := 180000;
     sideIncome := 0; cashOnHand := 85500 |}.

Definition nanExample : Inputs :=
  {| netWorth := 1e200; salary := 1e200; salaryTaxRate := 0.25;
     investReturn := 1e200; investTaxRate := 1; spend := 1e300;
     sideIncome := 0; cashOnHand := 0 |}.

Definition roundExample : Inputs :=
  {| netWorth := 3000000; salary := 480000; salaryTaxRate := 0.25;
     investReturn := 0.10; investTaxRate := 0.20; spend := 180000;
     sideIncome := 0; cashOnHand := 59999.6 |}.

Definition zeroSpend : Inputs :=
  {| netWorth := 3000000; salary := 480000; salaryTaxRate := 0.25;
     investReturn := 0.10; investTaxRate := 0.20; spend := 0;
     sideIncome := 0; cashOnHand := 0 |}.

Definition noNetWorth : Inputs :=
  {| netWorth := 0; salary := 480000; salaryTaxRate := 0.25;
     investReturn := 0.10; investTaxRate := 0.20; spend := 0;
     sideIncome := 0; cashOnHand := 60000 |}.

Definition zeroNetWorth : Inputs :=
  {| netWorth := 0; salary := 480000; salaryTaxRate := 0.25;
     investReturn := 0.10; investTaxRate := 0.20; spend := 180000;
     sideIncome := 0; cashOnHand := 60000 |}.

Definition tinySpend : Inputs :=
  {| netWorth := 3000000; salary := 480000; salaryTaxRate := 0.25;
     investReturn := 0.10; investTaxRate := 0.20; spend := 5e-324;
     sideIncome := 0; cashOnHand := 0 |}.

(** Every input is a finite number. *)
Definition finiteInputs (i : Inputs) : bool :=
  is_finite (netWorth i) && is_finite (salary i)
  && is_finite (salaryTaxRate i) && is_finite (investReturn i)
  && is_finite (investTaxRate i) && is_finite (spend i)
  && is_finite (sideIncome i) && is_finite (cashOnHand i).

(** ** Keys and values of binary64 numbers *)

Definition kc (x : spec_float) : Z :=
  match x with
  | S754_infinity true => -2
  | S754_finite true _ _ => -1
  | S754_finite false _ _ => 1
  | S754_infinity false => 2
  | _ => 0
  end%Z.

Definition ka (x : spec_float) : Z :=
  match x with
  | S754_finite false _ e => e
  | S754_finite true _ e => - e
  | _ => 0
  end%Z.

Definition kb (x : spec_float) : Z :=
  match x with
  | S754_finite false m _ => Zpos m
  | S754_finite true m _ => Zneg m
  | _ => 0
  end%Z.

Definition sf_nan (x : spec_float) : Z :=
  match x with S754_nan => 1 | _ => 0 end%Z.

Definition lex_lt (x y : spec_float) : Prop :=
  (kc x < kc y \/ (kc x = kc y /\ (ka x < ka y \/ (ka x = ka y /\ kb x < kb y))))%Z.

Definition lex_le (x y : spec_float) : Prop :=
  (kc x < kc y \/ (kc x = kc y /\ (ka x < ka y \/ (ka x = ka y /\ kb x <= kb y))))%Z.

Definition nanZ (x : float) : Z := sf_nan (Prim2SF x).

(** The value of a binary64 number in units of 2^-1074, the least positive
    value; the infinities stand at 2^2098, above every finite value. *)
Definition BIG : Z := 2 ^ 2098.

Definition SFval (x : spec_float) : Z :=
  match x with
  | S754_zero _ | S754_nan => 0
  | S754_infinity s => cond_Zopp s BIG
  | S754_finite s m e => cond_Zopp s (Zpos m * 2 ^ (e + 1074))
  end%Z.

Definition Fval (x : float) : Z := SFval (Prim2SF x).

(** [x] is not NaN and carries the sign bit [s]. *)
Definition has_sign (s : bool) (x : spec_float) : Prop :=
  match x with
  | S754_zero s' | S754_infinity s' | S754_finite s' _ _ => s' = s
  | S754_nan => False
  end.

(** The two aligned mantissas of an addition or subtraction. *)
Definition aligned (s : bool) (m : positive) (e ez : Z) : Z :=
  cond_Zopp s (Zpos (fst (shl_align m e ez))).

(** ** Rounding to nearest, ties to even *)

Local Open Scope Z_scope.


Definition loc_code (l : location) : Z :=
  match l with
  | loc_Exact => 0
  | loc_Inexact Lt => 1
  | loc_Inexact Eq => 2
  | loc_Inexact Gt => 3
  end.

(** [N / D] rounded to an integer, to nearest and to even on a tie. *)
Definition RNEq (N D : Z) : Z :=
  let q := N / D in
  let r := N mod D in
  q + (if (D <? 2 * r) || ((2 * r =? D) && Z.odd q) then 1 else 0).

Definition nearest_even (N D v : Z) : Prop :=
  (2 * v - 1) * D <= 2 * N <= (2 * v + 1) * D
  /\ (2 * N = (2 * v - 1) * D -> exists k, v = 2 * k)
  /\ (2 * N = (2 * v + 1) * D -> exists k, v = 2 * k).

(** The record [mrs] is [z] shifted right by [k] bits, with its round and
    sticky bits. *)
Definition shr_inv (z k : Z) (mrs : shr_record) : Prop :=
  1 <= k /\ 0 <= shr_m mrs
  /\ 0 <= z - shr_m mrs * 2 ^ k < 2 ^ k
  /\ (shr_r mrs = true <-> 2 ^ (k - 1) <= z - shr_m mrs * 2 ^ k)
  /\ (shr_s mrs = true <->
      z - shr_m mrs * 2 ^ k <> 0 /\ z - shr_m mrs * 2 ^ k <> 2 ^ (k - 1)).


(** [c] is the position of the remainder [r] of a division by [D]:
    0 when exact, 1 below the half, 2 at the half, 3 above. *)
Definition located (D r c : Z) : Prop :=
  (r = 0 /\ c = 0) \/ (0 < 2 * r < D /\ c = 1)
  \/ (2 * r = D /\ c = 2) \/ (D < 2 * r /\ c = 3).

(** The exponent, above -1074, at which [N / D] (in units of 2^-1074) is
    rounded, and the rounded value, saturating at 2^2098. *)
Definition Edig (N D : Z) : Z := Z.max (Zdigits2 (N / D) - 53) 0.

Definition RV (N D : Z) : Z :=
  Z.min BIG (RNEq N (D * 2 ^ Edig N D) * 2 ^ Edig N D).

(** Rounding of a signed integer in units of 2^-1074. *)
Definition RVz (v : Z) : Z := if 0 <=? v then RV v 1 else - RV (- v) 1.

(** A number that is neither NaN nor infinite. *)
Definition sf_finite (x : spec_float) : Prop :=
  match x with
  | S754_zero _ | S754_finite _ _ _ => True
  | _ => False
  end.

Local Close Scope Z_scope.

(** ** Changing the net worth *)

(** The inputs with [netWorth] replaced, the others kept. *)
Definition withNetWorth (i : Inputs) (nw : float) : Inputs :=
  {| netWorth := nw; salary := salary i;
     salaryTaxRate := salaryTaxRate i; investReturn := investReturn i;
     investTaxRate := investTaxRate i; spend := spend i;
     sideIncome := sideIncome i; cashOnHand := cashOnHand i |}.

(** ** Changing the other inputs *)

(** The inputs after one [useState] setter has run. *)
Definition withCashOnHand (i : Inputs) (c : float) : Inputs :=
  {| netWorth := netWorth i; salary := salary i;
     salaryTaxRate := salaryTaxRate i; investReturn := investReturn i;
     investTaxRate := investTaxRate i; spend := spend i;
     sideIncome := sideIncome i; cashOnHand := c |}.

Definition withSideIncome (i : Inputs) (s : float) : Inputs :=
  {| netWorth := netWorth i; salary := salary i;
     salaryTaxRate := salaryTaxRate i; investReturn := investReturn i;
     investTaxRate := investTaxRate i; spend := spend i;
     sideIncome := s; cashOnHand := cashOnHand i |}.

Definition withSalary (i : Inputs) (s : float) : Inputs :=
  {| netWorth := netWorth i; salary := s;
     salaryTaxRate := salaryTaxRate i; investReturn := investReturn i;
     investTaxRate := investTaxRate i; spend := spend i;
     sideIncome := sideIncome i; cashOnHand := cashOnHand i |}.

Definition withSpend (i : Inputs) (s : float) : Inputs :=
  {| netWorth := netWorth i; salary := salary i;
     salaryTaxRate := salaryTaxRate i; investReturn := investReturn i;
     investTaxRate := investTaxRate i; spend := s;
     sideIncome := sideIncome i; cashOnHand := cashOnHand i |}.

(** ** Scenarios of the sensitivity card *)

(** What a higher assumed return does to a scenario. *)
Definition scenario_improves (s s' : Scenario) : Prop :=
  (yes s = true -> yes s' = true)
  /\ (close s = true -> close s' = true \/ yes s' = true)
  /\ (is_nan (coverage s) = false -> is_nan (coverage s') = false ->
      (coverage s <=? coverage s') = true).

(** ** The percent input *)

(** The handler [onChange] of [PercentInput], as a function of
    [Number(e.target.value)]. *)
Definition PercentInput_onChange (parsed : float) : float :=
  JS.Math_max [0; parsed / 100].

(** ** The earlier revision of the page *)

(** The first revision of [Page] (the first [Page] function of the file)
    writes its constants in place: 0.10, -0.05 and a buffer target of
    [spend / 2].  It shares [currency], [pct] and the JavaScript primitives
    with the later revision and has its own sentences. *)
Module V1.

Definition afterTaxSalary (i : Inputs) : float :=
  salary i * (1 - salaryTaxRate i).

Definition salaryVsNW (i : Inputs) : float :=
  if netWorth i >? 0 then afterTaxSalary i / netWorth i else JS.Infinity.

Definition afterTaxPortfolioReturn (i : Inputs) : float :=
  netWorth i * investReturn i * (1 - investTaxRate i).

Definition passRuleB (i : Inputs) : bool := salaryVsNW i <=? 0.10.

Definition passRuleC (i : Inputs) : bool :=
  afterTaxPortfolioReturn i + sideIncome i >=? spend i.

Definition passBuffer (i : Inputs) : bool :=
  cashOnHand i >=? spend i / 2.

Definition bGap (i : Inputs) : float := 0.10 - salaryVsNW i.

Definition cGap (i : Inputs) : float :=
  (afterTaxPortfolioReturn i + sideIncome i - spend i) / spend i.

Definition bufferGap (i : Inputs) : float :=
  (cashOnHand i - spend i / 2) / (spend i / 2).

Definition failingGaps (i : Inputs) : list float :=
  [ if passRuleB i then JS.Infinity else bGap i;
    if passRuleC i then JS.Infinity else cGap i;
    if passBuffer i then JS.Infinity else bufferGap i ].

Definition worstGap (i : Inputs) : float := JS.Math_min (failingGaps i).

Definition isYes (i : Inputs) : bool :=
  passRuleB i && passRuleC i && passBuffer i.

Definition isClose (i : Inputs) : bool :=
  negb (isYes i) && (worstGap i >=? - 0.05).

Definition driver (i : Inputs) : string :=
  if negb (passRuleB i) && (bGap i <=? cGap i) && (bGap i <=? bufferGap i)
  then "Salary too large vs net worth"
  else if negb (passRuleC i) && (cGap i <=? bGap i) && (cGap i <=? bufferGap i)
  then "Spending too high vs portfolio + side income"
  else if negb (passBuffer i) && (bufferGap i <=? bGap i) && (bufferGap i <=? cGap i)
  then "Insufficient cash buffer"
  else if isYes i then "You’re good" else "Multiple factors".

Definition neededNWforB (i : Inputs) : float := afterTaxSalary i / 0.10.

Definition deltaNW_B (i : Inputs) : float :=
  JS.Math_max [0; neededNWforB i - netWorth i].

Definition shortfallC (i : Inputs) : float :=
  JS.Math_max [0; spend i - (afterTaxPortfolioReturn i + sideIncome i)].

Definition atRetPerDollar (i : Inputs) : float :=
  investReturn i * (1 - investTaxRate i).

Definition deltaNW_C (i : Inputs) : float :=
  if atRetPerDollar i >? 0 then shortfallC i / atRetPerDollar i else JS.Infinity.

Definition bufferShort (i : Inputs) : float :=
  JS.Math_max [0; spend i / 2 - cashOnHand i].

Definition deltas (i : Inputs) : list Delta :=
  (if passRuleB i then []
   else [ {| label := "Grow net worth (Rule B)"; value := deltaNW_B i |} ])
  ++ (if passRuleC i then []
      else [ {| label := "Add side income"; value := shortfallC i |};
             {| label := "Cut spending"; value := shortfallC i |};
             {| label := "Grow net worth (Rule C)"; value := deltaNW_C i |} ])
  ++ (if passBuffer i then []
      else [ {| label := "Hold more cash"; value := bufferShort i |} ]).

Definition best (i : Inputs) : JS.completion Delta :=
  JS.reduce (fun a b => if value a <=? value b then a else b) (deltas i).

Section Rendering.

Variable toLocaleString : float -> nat -> string.

Definition pretty (v : float) : string :=
  ("$" ++ currency toLocaleString (JS.Math_max [0; JS.Math_round v]))%string.

Definition sentence (b : Delta) : string :=
  if String.eqb (label b) "Grow net worth (Rule B)" then
    "Add about " ++ pretty (value b) ++ " to net worth to get salary ≤10% of NW."
  else if String.eqb (label b) "Add side income" then
    "Add about " ++ pretty (value b) ++ "/yr in side income to meet spending."
  else if String.eqb (label b) "Cut spending" then
    "Trim spending by about " ++ pretty (value b) ++ " to meet coverage."
  else if String.eqb (label b) "Grow net worth (Rule C)" then
    "Add about " ++ pretty (value b) ++ " to net worth to cover spending with returns."
  else if String.eqb (label b) "Hold more cash" then
    "Hold about " ++ pretty (value b) ++ " more in cash for a 6‑month buffer."
  else "Nudge the smallest lever above to flip this to YES.".

Definition nextStep (i : Inputs) : JS.completion string :=
  if (List.length (deltas i) =? 0)%nat
  then JS.Normal "Take a nap. You’re coasting."%string
  else JS.bind (best i) (fun b => JS.Normal (sentence b)).

End Rendering.

Definition verdict (i : Inputs) : string :=
  if isYes i then "YES" else if isClose i then "CLOSE" else "NOT YET".

Definition color (i : Inputs) : string :=
  if isYes i then "bg-emerald-500"
  else if isClose i then "bg-amber-500" else "bg-rose-500".

Definition subline (i : Inputs) : string :=
  if isYes i then "You can coast."
  else if isClose i then "You’re within 5% — almost there."
  else "Keep stacking — not quite yet.".

End V1.

(** ** Further example inputs *)

(** A spend in dollars and cents whose half is not [(spend / 12) * 6]. *)
Definition centsExample : Inputs :=
  {| netWorth := 4000000; salary := 480000; salaryTaxRate := 0.25;
     investReturn := 0.10; investTaxRate := 0.20; spend := 26376.73;
     sideIncome := 0; cashOnHand := 13188.365 |}.

(** The default inputs with an assumed return of 0. *)
Definition noReturn : Inputs :=
  {| netWorth := 3000000; salary := 480000; salaryTaxRate := 0.25;
     investReturn := 0; investTaxRate := 0.20; spend := 180000;
     sideIncome := 0; cashOnHand := 60000 |}.

(** The default inputs with no net worth and no salary. *)
Definition nothingYet : Inputs :=
  {| netWorth := 0; salary := 0; salaryTaxRate := 0.25;
     investReturn := 0.10; investTaxRate := 0.20; spend := 180000;
     sideIncome := 0; cashOnHand := 60000 |}.

(** ** Values of sums, products and quotients *)

Local Open Scope Z_scope.

(** Rounding of a signed fraction [N / D], in units of 2^-1074. *)
Definition RVq (N D : Z) : Z := if 0 <=? N then RV N D else - RV (- N) D.

(** The value of 1 in units of 2^-1074. *)
Definition UNIT : Z := 2 ^ 1074.

(** Values of infinite and of finite numbers. *)
Definition is_inf (v : Z) : Prop := v = BIG \/ v = - BIG.
Definition is_fin (v : Z) : Prop := - BIG < v < BIG.

Local Close Scope Z_scope.

(** * Proofs *)

(** ** Comparison of binary64 numbers *)

Lemma SFcompare_lex x y :
  match SFcompare x y with
  | None => (sf_nan x = 1 \/ sf_nan y = 1)%Z
  | Some Lt => sf_nan x = 0%Z /\ sf_nan y = 0%Z /\ lex_lt x y
  | Some Eq => sf_nan x = 0%Z /\ sf_nan y = 0%Z /\ lex_le x y /\ lex_le y x
  | Some Gt => sf_nan x = 0%Z /\ sf_nan y = 0%Z /\ lex_lt y x
  end.
Proof.
  unfold lex_lt, lex_le.
  destruct x as [sx|sx| |sx mx ex], y as [sy|sy| |sy my ey]; simpl;
    try destruct sx; try destruct sy; simpl; try lia.
  - destruct (Z.compare_spec ex ey); simpl; try lia.
    rewrite Pos.compare_cont_spec; simpl.
    destruct (Pos.compare_spec mx my); simpl; lia.
  - destruct (Z.compare_spec ex ey); simpl; try lia.
    rewrite Pos.compare_cont_spec; simpl.
    destruct (Pos.compare_spec mx my); simpl; lia.
Qed.

Lemma nanZ_range x : (0 <= nanZ x <= 1)%Z.
Proof. unfold nanZ. destruct (Prim2SF x); simpl; lia. Qed.

Lemma is_nan_true x : is_nan x = true <-> nanZ x = 1%Z.
Proof.
  unfold is_nan, nanZ. rewrite FloatAxioms.eqb_spec. unfold SFeqb.
  pose proof (SFcompare_lex (Prim2SF x) (Prim2SF x)) as H.
  destruct (SFcompare (Prim2SF x) (Prim2SF x)) as [[]|]; simpl;
    unfold lex_lt in *; split; intros; try lia; try discriminate.
Qed.

Lemma is_nan_false x : is_nan x = false <-> nanZ x = 0%Z.
Proof.
  pose proof (is_nan_true x). pose proof (nanZ_range x).
  destruct (is_nan x); split; intros; try discriminate; try lia; auto.
Qed.

Ltac by_SFcompare x y :=
  unfold SFltb, SFleb, SFeqb, nanZ;
  let H := fresh in
  pose proof (SFcompare_lex (Prim2SF x) (Prim2SF y)) as H;
  destruct (SFcompare (Prim2SF x) (Prim2SF y)) as [[]|];
  unfold lex_lt, lex_le in *; split; intros; try discriminate; try lia; auto.

Lemma ltb_lex x y :
  (x <? y) = true
  <-> nanZ x = 0%Z /\ nanZ y = 0%Z /\ lex_lt (Prim2SF x) (Prim2SF y).
Proof. rewrite FloatAxioms.ltb_spec. by_SFcompare x y. Qed.

Lemma ltb_lex_false x y :
  (x <? y) = false
  <-> nanZ x = 1%Z \/ nanZ y = 1%Z \/ lex_le (Prim2SF y) (Prim2SF x).
Proof. rewrite FloatAxioms.ltb_spec. by_SFcompare x y. Qed.

Lemma leb_lex x y :
  (x <=? y) = true
  <-> nanZ x = 0%Z /\ nanZ y = 0%Z /\ lex_le (Prim2SF x) (Prim2SF y).
Proof. rewrite FloatAxioms.leb_spec. by_SFcompare x y. Qed.

Lemma leb_lex_false x y :
  (x <=? y) = false
  <-> nanZ x = 1%Z \/ nanZ y = 1%Z \/ lex_lt (Prim2SF y) (Prim2SF x).
Proof. rewrite FloatAxioms.leb_spec. by_SFcompare x y. Qed.

Lemma eqb_lex x y :
  (x =? y) = true
  <-> nanZ x = 0%Z /\ nanZ y = 0%Z
      /\ lex_le (Prim2SF x) (Prim2SF y) /\ lex_le (Prim2SF y) (Prim2SF x).
Proof. rewrite FloatAxioms.eqb_spec. by_SFcompare x y. Qed.

(** ** Mantissas of valid binary64 numbers *)

Lemma digits2_pos_size p : digits2_pos p = Pos.size p.
Proof. induction p; cbn; congruence. Qed.

Lemma digits2_log2 p : Zpos (digits2_pos p) = Z.succ (Z.log2 (Zpos p)).
Proof.
  rewrite digits2_pos_size. destruct p; cbn; try reflexivity;
    rewrite Pos2Z.inj_succ; reflexivity.
Qed.

Lemma digits2_bounds p :
  (2 ^ (Zpos (digits2_pos p) - 1) <= Zpos p < 2 ^ Zpos (digits2_pos p))%Z.
Proof.
  rewrite digits2_log2. replace (Z.succ (Z.log2 (Zpos p)) - 1)%Z
    with (Z.log2 (Zpos p)) by lia.
  apply Z.log2_spec. lia.
Qed.

(** A valid mantissa has at most 53 bits, and exactly 53 above the least
    exponent -1074. *)
Lemma bounded_spec m e :
  bounded prec emax m e = true ->
  (-1074 <= e <= 971)%Z
  /\ (Zpos (digits2_pos m) <= 53)%Z
  /\ (-1074 < e -> Zpos (digits2_pos m) = 53)%Z.
Proof.
  unfold bounded, canonical_mantissa, fexp, SpecFloat.emin, prec, emax.
  intros H. apply andb_prop in H as [H1 H2].
  apply Z.eqb_eq in H1. apply Z.leb_le in H2. lia.
Qed.

Lemma shl_align_value m e ez :
  (ez <= e)%Z -> Zpos (fst (shl_align m e ez)) = (Zpos m * 2 ^ (e - ez))%Z.
Proof.
  intros H. unfold shl_align.
  destruct (ez - e)%Z as [|d|d] eqn:E; try lia; cbn [fst].
  - replace (e - ez)%Z with 0%Z by lia. lia.
  - replace (e - ez)%Z with (Zpos d) by lia.
    change (Pos.iter xO m d) with (shift_pos d m).
    rewrite shift_pos_correct, Z.pow_pos_fold. lia.
Qed.

(** For valid mantissas the order by exponent, then mantissa, is the order
    of the values. *)
Lemma aligned_lt m1 e1 m2 e2 :
  bounded prec emax m1 e1 = true ->
  bounded prec emax m2 e2 = true ->
  (e1 < e2)%Z ->
  (Zpos m1 < Zpos m2 * 2 ^ (e2 - e1))%Z.
Proof.
  intros B1 B2 H.
  apply bounded_spec in B1 as (R1 & D1 & _).
  apply bounded_spec in B2 as (R2 & _ & D2).
  pose proof (digits2_bounds m1) as [_ U1].
  pose proof (digits2_bounds m2) as [L2 _].
  rewrite D2 in L2 by lia. change (53 - 1)%Z with 52%Z in L2.
  assert (Zpos m1 < 2 ^ 53)%Z.
  { eapply Z.lt_le_trans; [exact U1|]. apply Z.pow_le_mono_r; lia. }
  assert (2 ^ 1 <= 2 ^ (e2 - e1))%Z by (apply Z.pow_le_mono_r; lia).
  change (2 ^ 53)%Z with (2 ^ 52 * 2 ^ 1)%Z in *. nia.
Qed.

Lemma aligned_order sx mx ex sy my ey :
  bounded prec emax mx ex = true ->
  bounded prec emax my ey = true ->
  (lex_le (S754_finite sx mx ex) (S754_finite sy my ey) ->
   aligned sx mx ex (Z.min ex ey) <= aligned sy my ey (Z.min ex ey))%Z
  /\ (lex_lt (S754_finite sx mx ex) (S754_finite sy my ey) ->
      aligned sx mx ex (Z.min ex ey) < aligned sy my ey (Z.min ex ey))%Z.
Proof.
  intros Bx By. unfold aligned, lex_le, lex_lt.
  rewrite !shl_align_value by lia.
  assert (Px : (0 < 2 ^ (ex - Z.min ex ey))%Z) by (apply Z.pow_pos_nonneg; lia).
  assert (Py : (0 < 2 ^ (ey - Z.min ex ey))%Z) by (apply Z.pow_pos_nonneg; lia).
  destruct (Z.lt_trichotomy ex ey) as [L|[E|G]].
  - pose proof (aligned_lt mx ex my ey Bx By L) as A.
    replace (Z.min ex ey) with ex in * by lia.
    replace (ex - ex)%Z with 0%Z in * by lia. change (2 ^ 0)%Z with 1%Z in *.
    destruct sx, sy; cbn [kc ka kb cond_Zopp]; split; intros; nia.
  - subst ey. replace (Z.min ex ex) with ex in * by lia.
    replace (ex - ex)%Z with 0%Z in * by lia. change (2 ^ 0)%Z with 1%Z in *.
    destruct sx, sy; cbn [kc ka kb cond_Zopp]; split; intros; lia.
  - pose proof (aligned_lt my ey mx ex By Bx ltac:(lia)) as A.
    replace (Z.min ex ey) with ey in * by lia.
    replace (ey - ey)%Z with 0%Z in * by lia. change (2 ^ 0)%Z with 1%Z in *.
    destruct sx, sy; cbn [kc ka kb cond_Zopp]; split; intros; nia.
Qed.

(** ** Values of binary64 numbers *)

Lemma BIG_pos : (0 < BIG)%Z.
Proof. reflexivity. Qed.

Lemma SFval_finite_bounds m e :
  bounded prec emax m e = true ->
  (0 < Zpos m * 2 ^ (e + 1074) < BIG)%Z.
Proof.
  intros B. apply bounded_spec in B as (R & D & _).
  pose proof (digits2_bounds m) as [_ U].
  assert (M : (Zpos m < 2 ^ 53)%Z).
  { eapply Z.lt_le_trans; [exact U|]. apply Z.pow_le_mono_r; lia. }
  assert (P : (0 < 2 ^ (e + 1074))%Z) by (apply Z.pow_pos_nonneg; lia).
  assert (Q : (2 ^ (e + 1074) <= 2 ^ 2045)%Z) by (apply Z.pow_le_mono_r; lia).
  unfold BIG. change (2 ^ 2098)%Z with (2 ^ 53 * 2 ^ 2045)%Z.
  split; [lia|].
  apply Z.lt_le_trans with (2 ^ 53 * 2 ^ (e + 1074))%Z.
  - apply Z.mul_lt_mono_pos_r; assumption.
  - apply Z.mul_le_mono_nonneg_l; [lia|assumption].
Qed.

Lemma SFval_aligned s m e ez :
  (-1074 <= ez <= e)%Z ->
  SFval (S754_finite s m e) = (aligned s m e ez * 2 ^ (ez + 1074))%Z.
Proof.
  intros H. unfold aligned. cbn [SFval]. rewrite shl_align_value by lia.
  replace (e + 1074)%Z with ((e - ez) + (ez + 1074))%Z by lia.
  rewrite Z.pow_add_r by lia. destruct s; cbn [cond_Zopp]; lia.
Qed.

Lemma lex_total x y : lex_lt x y \/ lex_le y x.
Proof. unfold lex_lt, lex_le. lia. Qed.

Lemma lex_lt_le x y : lex_lt x y -> lex_le x y.
Proof. unfold lex_lt, lex_le. lia. Qed.

(** On valid numbers the order of [SFcompare] is the order of the values. *)
Lemma SFval_order_1 x y :
  valid_binary x = true -> valid_binary y = true ->
  sf_nan x = 0%Z -> sf_nan y = 0%Z ->
  (lex_le x y -> SFval x <= SFval y)%Z /\ (lex_lt x y -> SFval x < SFval y)%Z.
Proof.
  intros Vx Vy Nx Ny. pose proof BIG_pos as BP.
  destruct x as [sx|sx| |sx mx ex], y as [sy|sy| |sy my ey];
    cbn in Nx, Ny; try lia; cbn [valid_binary] in Vx, Vy;
    try pose proof (SFval_finite_bounds _ _ Vx);
    try pose proof (SFval_finite_bounds _ _ Vy);
    try (unfold lex_le, lex_lt; try destruct sx; try destruct sy;
         cbn [kc ka kb SFval cond_Zopp]; lia).
  pose proof (aligned_order sx mx ex sy my ey Vx Vy) as [A1 A2].
  pose proof (bounded_spec _ _ Vx) as (Rx & _).
  pose proof (bounded_spec _ _ Vy) as (Ry & _).
  rewrite (SFval_aligned sx mx ex (Z.min ex ey)) by lia.
  rewrite (SFval_aligned sy my ey (Z.min ex ey)) by lia.
  assert (P : (0 < 2 ^ (Z.min ex ey + 1074))%Z) by (apply Z.pow_pos_nonneg; lia).
  split; intros L; [specialize (A1 L)|specialize (A2 L)]; nia.
Qed.

Lemma SFval_order x y :
  valid_binary x = true -> valid_binary y = true ->
  sf_nan x = 0%Z -> sf_nan y = 0%Z ->
  (lex_le x y <-> SFval x <= SFval y)%Z /\ (lex_lt x y <-> SFval x < SFval y)%Z.
Proof.
  intros Vx Vy Nx Ny.
  pose proof (SFval_order_1 x y Vx Vy Nx Ny) as [A B].
  pose proof (SFval_order_1 y x Vy Vx Ny Nx) as [C D].
  split; split; auto; intros H.
  - destruct (lex_total y x) as [L|L]; [apply D in L; lia|exact L].
  - destruct (lex_total x y) as [L|L]; [exact L|apply C in L; lia].
Qed.

Lemma Fval_order x y :
  nanZ x = 0%Z -> nanZ y = 0%Z ->
  (lex_le (Prim2SF x) (Prim2SF y) <-> Fval x <= Fval y)%Z
  /\ (lex_lt (Prim2SF x) (Prim2SF y) <-> Fval x < Fval y)%Z.
Proof. intros. apply SFval_order; auto using Prim2SF_valid. Qed.

Lemma Fval_range x : (- BIG <= Fval x <= BIG)%Z.
Proof.
  unfold Fval. pose proof (Prim2SF_valid x) as V. pose proof BIG_pos.
  destruct (Prim2SF x) as [s|s| |s m e]; cbn [SFval]; try lia.
  - destruct s; cbn [cond_Zopp]; lia.
  - cbn in V. pose proof (SFval_finite_bounds _ _ V).
    destruct s; cbn [cond_Zopp]; lia.
Qed.

Lemma ltb_true x y :
  (x <? y) = true <-> nanZ x = 0%Z /\ nanZ y = 0%Z /\ (Fval x < Fval y)%Z.
Proof.
  rewrite ltb_lex. split; intros (Nx & Ny & H); repeat split; auto;
    now apply (Fval_order x y Nx Ny).
Qed.

Lemma leb_true x y :
  (x <=? y) = true <-> nanZ x = 0%Z /\ nanZ y = 0%Z /\ (Fval x <= Fval y)%Z.
Proof.
  rewrite leb_lex. split; intros (Nx & Ny & H); repeat split; auto;
    now apply (Fval_order x y Nx Ny).
Qed.

Lemma eqb_true x y :
  (x =? y) = true <-> nanZ x = 0%Z /\ nanZ y = 0%Z /\ Fval x = Fval y.
Proof.
  rewrite eqb_lex. split.
  - intros (Nx & Ny & H1 & H2).
    apply (Fval_order x y Nx Ny) in H1. apply (Fval_order y x Ny Nx) in H2.
    repeat split; auto. lia.
  - intros (Nx & Ny & H). repeat split; auto.
    + apply (Fval_order x y Nx Ny). lia.
    + apply (Fval_order y x Ny Nx). lia.
Qed.

Lemma ltb_false x y :
  (x <? y) = false <-> nanZ x = 1%Z \/ nanZ y = 1%Z \/ (Fval y <= Fval x)%Z.
Proof.
  pose proof (ltb_true x y) as T. pose proof (nanZ_range x). pose proof (nanZ_range y).
  destruct (x <? y); split; intros H'; try discriminate; try reflexivity.
  - assert (nanZ x = 0 /\ nanZ y = 0 /\ Fval x < Fval y)%Z by (apply T; reflexivity). lia.
  - destruct (Z.eq_dec (nanZ x) 1); [tauto|]. destruct (Z.eq_dec (nanZ y) 1); [tauto|].
    right; right. destruct (Z_lt_le_dec (Fval x) (Fval y)); [|assumption].
    assert (false = true) by (apply T; lia). discriminate.
Qed.

Lemma leb_false x y :
  (x <=? y) = false <-> nanZ x = 1%Z \/ nanZ y = 1%Z \/ (Fval y < Fval x)%Z.
Proof.
  pose proof (leb_true x y) as T. pose proof (nanZ_range x). pose proof (nanZ_range y).
  destruct (x <=? y); split; intros H'; try discriminate; try reflexivity.
  - assert (nanZ x = 0 /\ nanZ y = 0 /\ Fval x <= Fval y)%Z by (apply T; reflexivity). lia.
  - destruct (Z.eq_dec (nanZ x) 1); [tauto|]. destruct (Z.eq_dec (nanZ y) 1); [tauto|].
    right; right. destruct (Z_lt_le_dec (Fval y) (Fval x)); [assumption|].
    assert (false = true) by (apply T; lia). discriminate.
Qed.

Lemma Fval_0 : Fval 0 = 0%Z.
Proof. reflexivity. Qed.

Lemma Fval_infinity : Fval infinity = BIG.
Proof. reflexivity. Qed.

Lemma Fval_neg_infinity : Fval neg_infinity = (- BIG)%Z.
Proof. reflexivity. Qed.

Lemma nanZ_0 : nanZ 0 = 0%Z.
Proof. reflexivity. Qed.

Lemma nanZ_infinity : nanZ infinity = 0%Z.
Proof. reflexivity. Qed.

Lemma nanZ_neg_infinity : nanZ neg_infinity = 0%Z.
Proof. reflexivity. Qed.

Create Rewrite HintDb fconst.

#[local] Hint Rewrite Fval_0 Fval_infinity Fval_neg_infinity
  nanZ_0 nanZ_infinity nanZ_neg_infinity : fconst.

Ltac float_facts :=
  unfold JS.geb, JS.gtb, JS.Infinity in *;
  repeat match goal with
  | H : (_ <? _) = true |- _ => apply ltb_true in H
  | H : (_ <? _) = false |- _ => apply ltb_false in H
  | H : (_ <=? _) = true |- _ => apply leb_true in H
  | H : (_ <=? _) = false |- _ => apply leb_false in H
  | H : (_ =? _) = true |- _ => apply eqb_true in H
  | H : is_nan _ = true |- _ => apply is_nan_true in H
  | H : is_nan _ = false |- _ => apply is_nan_false in H
  end.

Ltac float_goal :=
  match goal with
  | |- (_ <? _) = true => apply ltb_true
  | |- (_ <? _) = false => apply ltb_false
  | |- (_ <=? _) = true => apply leb_true
  | |- (_ <=? _) = false => apply leb_false
  | |- (_ =? _) = true => apply eqb_true
  | |- is_nan _ = true => apply is_nan_true
  | |- is_nan _ = false => apply is_nan_false
  | _ => idtac
  end.

Definition ranged (x : float) : Prop :=
  (- BIG <= Fval x <= BIG)%Z /\ (0 <= nanZ x <= 1)%Z.

Lemma float_range x : ranged x.
Proof. split; [apply Fval_range|apply nanZ_range]. Qed.

(** Decides a goal about comparisons of binary64 values from the
    comparisons in the context, by linear arithmetic on the values. *)
Ltac float_order :=
  float_facts; float_goal;
  autorewrite with fconst in *;
  repeat match goal with
  | H : context [Fval ?t] |- _ =>
      lazymatch goal with
      | _ : ranged t |- _ => fail
      | _ => pose proof (float_range t)
      end
  | |- context [Fval ?t] =>
      lazymatch goal with
      | _ : ranged t |- _ => fail
      | _ => pose proof (float_range t)
      end
  end;
  unfold ranged in *; pose proof BIG_pos; lia.

Lemma leb_trans x y z : (x <=? y) = true -> (y <=? z) = true -> (x <=? z) = true.
Proof. intros. float_order. Qed.

Lemma leb_total x y : is_nan x = false -> is_nan y = false -> (x <=? y) = true \/ (y <=? x) = true.
Proof. intros. destruct (x <=? y) eqn:E; [left; reflexivity|right]. float_order. Qed.

Lemma ltb_inf x : (infinity <? x) = false.
Proof. destruct (infinity <? x) eqn:E; [exfalso|reflexivity]. float_order. Qed.

(** ** Facts about Math.min *)

Lemma min_from_Infinity lowest l :
  JS.min_from lowest (JS.Infinity :: l) = JS.min_from lowest l.
Proof.
  cbn [JS.min_from].
  change (is_nan JS.Infinity) with false.
  change (JS.isNegZero JS.Infinity) with false.
  cbn [andb]. unfold JS.Infinity. rewrite ltb_inf. reflexivity.
Qed.

Lemma min_from_masked (l : list (bool * float)) :
  forall lowest,
    JS.min_from lowest (map (fun pg : bool * float => if fst pg then JS.Infinity else snd pg) l)
    = JS.min_from lowest (map snd (filter (fun pg => negb (fst pg)) l)).
Proof.
  induction l as [|[p g] l IH]; intros lowest; [reflexivity|].
  destruct p; cbn [map filter fst snd negb].
  - rewrite min_from_Infinity. apply IH.
  - cbn [JS.min_from]. destruct (is_nan g); [reflexivity|]. apply IH.
Qed.

Lemma worstGap_minFailingGap i : worstGap i = minFailingGap i.
Proof. exact (min_from_masked (rules i) JS.Infinity). Qed.

Lemma minFailingGap_isYes i : isYes i = true -> minFailingGap i = JS.Infinity.
Proof.
  unfold isYes, minFailingGap, rules. intros H.
  apply andb_prop in H as [H H3]. apply andb_prop in H as [H1 H2].
  rewrite H1, H2, H3. reflexivity.
Qed.

(** ** The worked example *)

(** C2: on [example1] the evaluator gives an after-tax salary of 360000, a
    salary ratio of 0.12, Rule B failing with the gap [0.10 - 0.12], which
    is -0.02 up to the rounding of binary64 (the number
    -0.01999999999999999, within 1e-16 of -0.02), an after-tax portfolio
    return of 240000 and Rule C passing, a buffer target of 90000 above the
    60000 of cash, the Buffer rule failing with gap -1/3 (the binary64
    quotient), worst gap -1/3, verdict NOT YET, driver "Insufficient cash
    buffer", and the next step of holding 30000 more in cash. *)
Theorem C2_example1 :
  forall toLocaleString : float -> nat -> string,
    afterTaxSalary example1 = 360000
    /\ salaryVsNW example1 = 0.12
    /\ passRuleB example1 = false
    /\ bGap example1 = -0.01999999999999999
    /\ (-0.02 <? bGap example1) = true
    /\ (bGap example1 <? -0.0199999999999999) = true
    /\ (abs (bGap example1 - -0.02) <? 1e-16) = true
    /\ afterTaxPortfolioReturn example1 = 240000
    /\ passRuleC example1 = true
    /\ bufferTarget example1 = 90000
    /\ (bufferTarget example1 >? cashOnHand example1) = true
    /\ passBuffer example1 = false
    /\ bufferGap example1 = -1 / 3
    /\ worstGap example1 = -1 / 3
    /\ verdict example1 = "NOT YET"%string
    /\ driver example1 = "Insufficient cash buffer"%string
    /\ best example1 = JS.Normal {| label := "Hold more cash"; value := 30000 |}
    /\ shownAmount 30000 = 30000
    /\ nextStep toLocaleString example1
       = JS.Normal ("Hold about $" ++ toLocaleString 30000 0%nat
                    ++ " more in cash for a 6-month buffer.")%string.
Proof.
  intros toLocaleString. vm_compute. repeat split.
Qed.

(** ** The next step *)

(** The [reduce] keeps the first candidate among those of least magnitude,
    provided no magnitude is NaN. *)
Lemma fold_smaller_first_least (rest : list Delta) :
  forall a,
    (forall d, In d (a :: rest) -> is_nan (value d) = false) ->
    exists l1 l2,
      a :: rest = l1 ++ fold_left smaller rest a :: l2
      /\ (forall d, In d l1 -> (value (fold_left smaller rest a) <? value d) = true)
      /\ (forall d, In d l2 -> (value (fold_left smaller rest a) <=? value d) = true).
Proof.
  induction rest as [|c rest IH] using rev_ind; intros a Hnan.
  - exists [], []. cbn. repeat split; intros d [].
  - rewrite fold_left_app. cbn [fold_left].
    destruct (IH a) as (l1 & l2 & E & H1 & H2).
    { intros d Hd. apply Hnan. rewrite app_comm_cons. apply in_or_app. now left. }
    set (b := fold_left smaller rest a) in *.
    assert (Nb : is_nan (value b) = false).
    { apply Hnan. rewrite app_comm_cons, E. apply in_or_app. left.
      apply in_or_app. right. now left. }
    assert (Nc : is_nan (value c) = false).
    { apply Hnan. rewrite app_comm_cons. apply in_or_app. right. now left. }
    unfold smaller. destruct (value b <=? value c) eqn:Hbc.
    + exists l1, (l2 ++ [c]). repeat split.
      * rewrite app_comm_cons, E, <- app_assoc. reflexivity.
      * exact H1.
      * intros d Hd. apply in_app_or in Hd as [Hd|[<-|[]]]; auto.
    + exists (l1 ++ b :: l2), []. repeat split.
      * rewrite app_comm_cons, E. reflexivity.
      * intros d Hd. apply in_app_or in Hd as [Hd|[<-|Hd]].
        -- specialize (H1 d Hd). float_order.
        -- float_order.
        -- specialize (H2 d Hd). float_order.
      * intros d [].
Qed.

Lemma deltas_empty_iff i : deltas i = [] <-> isYes i = true.
Proof.
  unfold deltas, isYes.
  destruct (passRuleB i), (passRuleC i), (passBuffer i); cbn; split;
    intros H; try discriminate; reflexivity.
Qed.

Lemma best_normal i :
  isYes i = false -> exists b, best i = JS.Normal b /\ In b (deltas i).
Proof.
  intros Y. unfold best, JS.reduce.
  destruct (deltas i) as [|a rest] eqn:E.
  - apply deltas_empty_iff in E. congruence.
  - exists (fold_left smaller rest a). split; [reflexivity|].
    clear E. revert a. induction rest as [|c rest IH]; intros a; [now left|].
    cbn [fold_left]. unfold smaller at 2.
    destruct (value a <=? value c).
    + destruct (IH a) as [<-|H]; [now left|right; now right].
    + right. apply IH.
Qed.

Lemma nextStep_coasting toLocaleString i :
  isYes i = true -> nextStep toLocaleString i = JS.Normal "You can coast."%string.
Proof.
  intros Y. unfold nextStep. apply deltas_empty_iff in Y. rewrite Y. reflexivity.
Qed.

Lemma nextStep_best toLocaleString i b :
  best i = JS.Normal b ->
  nextStep toLocaleString i = JS.Normal (sentence toLocaleString b).
Proof.
  unfold nextStep, best. destruct (deltas i); [discriminate|].
  cbn [JS.reduce]. intros H. rewrite H. reflexivity.
Qed.

Lemma deltas_levers i d : In d (deltas i) -> leverOf i d.
Proof.
  unfold deltas, leverOf.
  destruct (passRuleB i), (passRuleC i), (passBuffer i); cbn;
    intuition (subst; auto).
Qed.

(** C3, as amended: the candidates are levers of failing rules only, listed
    in the order Rule B, side income, cut spending, grow net worth (Rule
    C), cash; the list is empty exactly when every rule passes, and the
    message is then the coasting one; otherwise, when no candidate's
    magnitude is NaN, the selected candidate is the first of those with the
    least magnitude: strictly below every candidate listed before it and
    at most every candidate listed after it. *)
Theorem C3_next_step_selection :
  forall (toLocaleString : float -> nat -> string) (i : Inputs),
    (forall d, In d (deltas i) -> leverOf i d)
    /\ map label (deltas i) = candidateLabels i
    /\ (deltas i = [] <-> isYes i = true)
    /\ (isYes i = true ->
        nextStep toLocaleString i = JS.Normal "You can coast."%string)
    /\ (isYes i = false ->
        (forall d, In d (deltas i) -> is_nan (value d) = false) ->
        exists b l1 l2,
          best i = JS.Normal b
          /\ nextStep toLocaleString i = JS.Normal (sentence toLocaleString b)
          /\ deltas i = l1 ++ b :: l2
          /\ (forall d, In d l1 -> (value b <? value d) = true)
          /\ (forall d, In d l2 -> (value b <=? value d) = true)).
Proof.
  intros toLocaleString i.
  split; [exact (deltas_levers i)|].
  split.
  { unfold deltas, candidateLabels.
    destruct (passRuleB i), (passRuleC i), (passBuffer i); reflexivity. }
  split; [exact (deltas_empty_iff i)|].
  split; [exact (nextStep_coasting toLocaleString i)|].
  intros Y Hnan.
  destruct (deltas i) as [|a rest] eqn:E.
  { apply deltas_empty_iff in E. congruence. }
  destruct (fold_smaller_first_least rest a Hnan) as (l1 & l2 & D & H1 & H2).
  assert (B : best i = JS.Normal (fold_left smaller rest a)).
  { unfold best. rewrite E. reflexivity. }
  exists (fold_left smaller rest a), l1, l2.
  split; [exact B|].
  split; [exact (nextStep_best toLocaleString i _ B)|].
  split; [exact D|]. split; assumption.
Qed.

Lemma C3_next_step_selection_witness :
  exists b l1 l2,
    best example1 = JS.Normal b
    /\ nextStep (fun _ _ => EmptyString) example1
       = JS.Normal (sentence (fun _ _ => EmptyString) b)
    /\ deltas example1 = l1 ++ b :: l2
    /\ (forall d, In d l1 -> (value b <? value d) = true)
    /\ (forall d, In d l2 -> (value b <=? value d) = true).
Proof.
  apply (C3_next_step_selection (fun _ _ => EmptyString) example1).
  - reflexivity.
  - intros d Hd. vm_compute in Hd.
    destruct Hd as [<-|[<-|[]]]; reflexivity.
Defined.

(** C3, as stated, fails when a magnitude is NaN: on [nanExample] every
    input is finite, the product [netWorth * investReturn] overflows and
    meets a factor 0, the shortfall of Rule C is NaN, and the [reduce]
    ends on the cash lever although the Rule B lever, listed first, has a
    smaller magnitude. *)
Lemma C3_selection_not_least :
  exists b d,
    best nanExample = JS.Normal b
    /\ In d (deltas nanExample)
    /\ label b = "Hold more cash"%string
    /\ label d = "Grow net worth (Rule B)"%string
    /\ (value d <? value b) = true.
Proof.
  exists {| label := "Hold more cash"; value := bufferShort nanExample |},
         {| label := "Grow net worth (Rule B)"; value := deltaNW_B nanExample |}.
  vm_compute. intuition.
Qed.

(** ** The displayed amount *)

Lemma Math_max_0 y :
  JS.Math_max [0; y] = if is_nan y then JS.NaN else if 0 <? y then y else 0.
Proof.
  unfold JS.Math_max.
  change (JS.max_from neg_infinity [0; y]) with (JS.max_from 0 [y]).
  cbn [JS.max_from]. change (JS.isNegZero 0) with false.
  rewrite andb_false_r. reflexivity.
Qed.

Lemma Math_max_0_not_negative y : (JS.Math_max [0; y] <? 0) = false.
Proof.
  rewrite Math_max_0.
  destruct (is_nan y) eqn:N; [reflexivity|].
  destruct (0 <? y) eqn:P; [|reflexivity].
  float_order.
Qed.

Lemma shownAmount_not_negative v : (shownAmount v <? 0) = false.
Proof. apply Math_max_0_not_negative. Qed.

Lemma sentence_shows_amount toLocaleString i b :
  In b (deltas i) ->
  exists pre post,
    sentence toLocaleString b
    = (pre ++ "$" ++ toLocaleString (shownAmount (value b)) 0%nat ++ post)%string.
Proof.
  intros Hb. apply deltas_levers in Hb.
  destruct Hb as [[_ ->]|[[_ [->|[->| ->]]]|[_ ->]]]; cbn.
  - exists "Add about "%string,
      (" to net worth to get salary ≤ " ++ pct toLocaleString TARGET_SALARY_VS_NW
       ++ " of NW.")%string. reflexivity.
  - exists "Add about "%string, "/yr in side income to meet spending."%string.
    reflexivity.
  - exists "Trim spending by about "%string, " to meet coverage."%string.
    reflexivity.
  - exists "Add about "%string, " to net worth so returns cover spending."%string.
    reflexivity.
  - exists "Hold about "%string, " more in cash for a 6-month buffer."%string.
    reflexivity.
Qed.

(** C8, as amended: in every failing configuration the next-step sentence
    shows, after the dollar sign, the selected lever's magnitude rounded to
    the nearest integer by [Math.round] (halves towards +Infinity) and then
    floored at 0 by [Math.max]; the shown amount is never negative. *)
Theorem C8_shown_amount :
  forall (toLocaleString : float -> nat -> string) (i : Inputs),
    isYes i = false ->
    exists b pre post,
      best i = JS.Normal b
      /\ In b (deltas i)
      /\ nextStep toLocaleString i
         = JS.Normal (pre ++ "$" ++ toLocaleString (shownAmount (value b)) 0%nat
                      ++ post)%string
      /\ shownAmount (value b) = JS.Math_max [0; JS.Math_round (value b)]
      /\ (shownAmount (value b) <? 0) = false.
Proof.
  intros toLocaleString i Y.
  destruct (best_normal i Y) as (b & B & Hb).
  destruct (sentence_shows_amount toLocaleString i b Hb) as (pre & post & S).
  exists b, pre, post.
  split; [exact B|]. split; [exact Hb|].
  split; [rewrite (nextStep_best toLocaleString i b B), S; reflexivity|].
  split; [reflexivity|apply shownAmount_not_negative].
Qed.

Lemma C8_shown_amount_witness :
  isYes example1 = false
  /\ exists b pre post,
      best example1 = JS.Normal b
      /\ In b (deltas example1)
      /\ nextStep (fun _ _ => EmptyString) example1
         = JS.Normal (pre ++ "$" ++ (fun _ _ => EmptyString) (shownAmount (value b)) 0%nat
                      ++ post)%string
      /\ shownAmount (value b) = JS.Math_max [0; JS.Math_round (value b)]
      /\ (shownAmount (value b) <? 0) = false.
Proof.
  split; [reflexivity|].
  apply (C8_shown_amount (fun _ _ => EmptyString) example1). reflexivity.
Defined.

(** C8, as stated, fails: the amount is rounded to the nearest integer, not
    up.  On [roundExample] the selected lever needs 30000.4 more cash and
    the amount shown is 30000, which is less. *)
Lemma C8_amount_rounded_down :
  isYes roundExample = false
  /\ best roundExample
     = JS.Normal {| label := "Hold more cash"; value := 30000.400000000001 |}
  /\ shownAmount 30000.400000000001 = 30000
  /\ (shownAmount 30000.400000000001 <? 30000.400000000001) = true.
Proof. vm_compute. repeat split. Qed.

(** ** Totality *)

Lemma Prim2SF_0 : Prim2SF 0 = S754_zero false.
Proof. reflexivity. Qed.

Lemma Prim2SF_eq_infinity x :
  Prim2SF x = S754_infinity false -> x = infinity.
Proof. intros H. apply Prim2SF_inj. rewrite H. reflexivity. Qed.

Lemma Prim2SF_eq_neg_infinity x :
  Prim2SF x = S754_infinity true -> x = neg_infinity.
Proof. intros H. apply Prim2SF_inj. rewrite H. reflexivity. Qed.

Lemma Prim2SF_nan x : Prim2SF x = S754_nan -> is_nan x = true.
Proof. intros H. apply is_nan_true. unfold nanZ. rewrite H. reflexivity. Qed.

Lemma eqb_0_zero z : (z =? 0) = true -> exists s, Prim2SF z = S754_zero s.
Proof.
  rewrite FloatAxioms.eqb_spec, Prim2SF_0. unfold SFeqb.
  destruct (Prim2SF z) as [s|s| |s m e]; cbn; try discriminate.
  - intros _. now exists s.
  - destruct s; discriminate.
  - destruct s; discriminate.
Qed.

(** A division by a zero never fails: the quotient is NaN or an infinity. *)
Lemma div_by_zero x z :
  (z =? 0) = true ->
  is_nan (x / z) = true \/ x / z = infinity \/ x / z = neg_infinity.
Proof.
  intros H. destruct (eqb_0_zero z H) as [s Hz].
  pose proof (div_spec x z) as D. rewrite Hz in D. unfold SF64div in D.
  destruct (Prim2SF x) as [sx|sx| |sx mx ex]; cbn in D.
  - left. now apply Prim2SF_nan.
  - right. destruct (xorb sx s);
      [right; now apply Prim2SF_eq_neg_infinity|left; now apply Prim2SF_eq_infinity].
  - left. now apply Prim2SF_nan.
  - right. destruct (xorb sx s);
      [right; now apply Prim2SF_eq_neg_infinity|left; now apply Prim2SF_eq_infinity].
Qed.

Lemma nextStep_normal toLocaleString i :
  exists s, nextStep toLocaleString i = JS.Normal s.
Proof.
  destruct (isYes i) eqn:Y.
  - eexists. apply nextStep_coasting, Y.
  - destruct (best_normal i Y) as (b & B & _).
    eexists. apply nextStep_best, B.
Qed.

(** C6: the evaluator completes normally on every input, for every host
    formatting function: the [reduce] is never reached with an empty
    array, and nothing else can throw.  A zero [spend] makes the gap of
    Rule C a NaN or an infinity and a zero [netWorth] makes the salary
    ratio +Infinity, as on [zeroSpend] and [noNetWorth]. *)
Theorem C6_evaluate_total :
  forall (toLocaleString : float -> nat -> string) (i : Inputs),
    (exists res,
        evaluate toLocaleString i = JS.Normal res
        /\ res_verdict res = verdict i
        /\ res_driver res = driver i
        /\ nextStep toLocaleString i = JS.Normal (res_nextStep res))
    /\ ((spend i =? 0) = true ->
        is_nan (cGap i) = true \/ cGap i = infinity \/ cGap i = neg_infinity)
    /\ ((netWorth i =? 0) = true -> salaryVsNW i = infinity)
    /\ (cGap zeroSpend = infinity /\ is_nan (bufferGap zeroSpend) = true
        /\ verdict zeroSpend = "CLOSE"%string)
    /\ (salaryVsNW noNetWorth = infinity /\ bGap noNetWorth = neg_infinity
        /\ is_nan (cGap noNetWorth) = true
        /\ bufferGap noNetWorth = infinity
        /\ verdict noNetWorth = "NOT YET"%string).
Proof.
  intros toLocaleString i.
  split; [|split; [|split; [|split]]].
  - destruct (nextStep_normal toLocaleString i) as [s Hs].
    unfold evaluate. rewrite Hs. cbn [JS.bind].
    eexists. split; [reflexivity|]. cbn. auto.
  - intros H. unfold cGap. now apply div_by_zero.
  - intros H. unfold salaryVsNW.
    destruct (netWorth i >? 0) eqn:P; [|reflexivity].
    exfalso. float_order.
  - vm_compute. auto.
  - vm_compute. auto.
Qed.

(** ** Return sensitivity *)

(** C9: the scan gives five results, for the rates 0.08, 0.09, 0.10, 0.11
    and 0.12 in ascending order; the result for a rate uses the after-tax
    portfolio return [netWorth * rate * (1 - investTaxRate)], keeps the
    evaluator's Rule B and Buffer results and gaps, and its YES and CLOSE
    flags are those the evaluator's verdict policy gives on the inputs with
    that rate as return; its coverage is (return + side income) / spend. *)
Theorem C9_sensitivity :
  forall i : Inputs,
    List.length (sensitivity i) = 5%nat
    /\ map r (sensitivity i) = [0.08; 0.09; 0.10; 0.11; 0.12]
    /\ ((0.08 <? 0.09) = true /\ (0.09 <? 0.10) = true
        /\ (0.10 <? 0.11) = true /\ (0.11 <? 0.12) = true)
    /\ sensitivity i
       = map (verdictForR i) [0.08; 0.09; 0.10; 0.11; 0.12]
    /\ forall rate : float,
        let s := verdictForR i rate in
        let i' := withReturn i rate in
        r s = rate
        /\ afterTaxPortfolioReturn i' = netWorth i * rate * (1 - investTaxRate i)
        /\ passRuleB i' = passRuleB i /\ bGap i' = bGap i
        /\ passBuffer i' = passBuffer i /\ bufferGap i' = bufferGap i
        /\ yes s = passRuleB i && passRuleC i' && passBuffer i
        /\ yes s = isYes i'
        /\ close s = isClose i'
        /\ (yes s = true <-> verdict i' = "YES"%string)
        /\ (yes s = false /\ close s = true <-> verdict i' = "CLOSE"%string)
        /\ coverage s = (afterTaxPortfolioReturn i' + sideIncome i) / spend i.
Proof.
  intros i.
  split; [reflexivity|]. split; [reflexivity|].
  split; [vm_compute; auto|]. split; [reflexivity|].
  intros rate s i'.
  assert (Y : yes s = isYes i') by reflexivity.
  assert (C : close s = isClose i') by reflexivity.
  repeat (split; [reflexivity|]).
  split; [|split; [|reflexivity]].
  - rewrite Y. unfold verdict. destruct (isYes i'); [intuition|].
    destruct (isClose i'); split; intros; discriminate.
  - rewrite Y, C. unfold verdict. destruct (isYes i').
    + split; [intros [? _]|intros]; discriminate.
    + destruct (isClose i'); split; try intros [? ?]; intros;
        try discriminate; auto.
Qed.

(** ** Signs of rounded results *)

Lemma shr_1_nonneg mrs : (0 <= shr_m mrs)%Z -> (0 <= shr_m (shr_1 mrs))%Z.
Proof. destruct mrs as [[|[p|p|]|p] rb sb]; cbn; lia. Qed.

Lemma iter_shr_1_nonneg p :
  forall mrs, (0 <= shr_m mrs)%Z -> (0 <= shr_m (SpecFloat.iter_pos shr_1 p mrs))%Z.
Proof.
  induction p as [p IH|p IH|]; intros mrs H; cbn [SpecFloat.iter_pos].
  - apply IH, IH, shr_1_nonneg, H.
  - apply IH, IH, H.
  - apply shr_1_nonneg, H.
Qed.

Lemma shr_fexp_nonneg m e l :
  (0 <= m)%Z -> (0 <= shr_m (fst (shr_fexp prec emax m e l)))%Z.
Proof.
  intros H. unfold shr_fexp, shr.
  assert (H0 : (0 <= shr_m (shr_record_of_loc m l))%Z)
    by (destruct l as [|[]]; exact H).
  destruct (_ - e)%Z; cbn [fst]; auto using iter_shr_1_nonneg.
Qed.

Lemma round_nearest_even_nonneg m l :
  (0 <= m)%Z -> (0 <= round_nearest_even m l)%Z.
Proof. destruct l as [|[]]; cbn; try destruct (Z.even m); lia. Qed.

Lemma binary_round_aux_sign s m e l :
  (0 <= m)%Z -> has_sign s (binary_round_aux prec emax s m e l).
Proof.
  intros H. unfold binary_round_aux.
  pose proof (shr_fexp_nonneg m e l H) as H1.
  destruct (shr_fexp prec emax m e l) as [mrs' e']. cbn [fst] in H1.
  pose proof (shr_fexp_nonneg _ e' loc_Exact
                (round_nearest_even_nonneg _ (loc_of_shr_record mrs') H1)) as H2.
  destruct (shr_fexp prec emax _ e' loc_Exact) as [mrs'' e'']. cbn [fst] in H2.
  destruct (shr_m mrs'') as [|p|p]; [reflexivity| |lia].
  destruct (e'' <=? emax - prec)%Z; reflexivity.
Qed.

Lemma binary_round_sign s m e : has_sign s (binary_round prec emax s m e).
Proof.
  unfold binary_round. destruct (shl_align _ _ _) as [mz ez].
  apply binary_round_aux_sign. lia.
Qed.

Lemma has_sign_pos_ge0 x : has_sign false x -> SFleb (S754_zero false) x = true.
Proof. destruct x as [s|s| |s m e]; cbn; intros H; subst; tauto || reflexivity. Qed.

Lemma has_sign_neg_le0 x : has_sign true x -> SFleb x (S754_zero false) = true.
Proof. destruct x as [s|s| |s m e]; cbn; intros H; subst; tauto || reflexivity. Qed.

(** ** Signs of differences and quotients *)

Lemma valid_finite x s m e :
  Prim2SF x = S754_finite s m e -> bounded prec emax m e = true.
Proof. intros H. pose proof (Prim2SF_valid x) as V. rewrite H in V. exact V. Qed.

Lemma binary_normalize_sign z e :
  ((0 <= z)%Z -> SFleb (S754_zero false) (binary_normalize prec emax z e false) = true)
  /\ ((z <= 0)%Z -> SFleb (binary_normalize prec emax z e false) (S754_zero false) = true).
Proof.
  destruct z as [|p|p]; cbn [binary_normalize]; split; intros H; try lia;
    try reflexivity.
  - apply has_sign_pos_ge0, binary_round_sign.
  - apply has_sign_neg_le0, binary_round_sign.
Qed.

Lemma SFsub_finite sx mx ex sy my ey :
  SFsub prec emax (S754_finite sx mx ex) (S754_finite sy my ey)
  = binary_normalize prec emax
      (aligned sx mx ex (Z.min ex ey) - aligned sy my ey (Z.min ex ey))
      (Z.min ex ey) false.
Proof. reflexivity. Qed.

(** [x - y] is at least 0 when [y <= x], unless it is NaN. *)
Lemma sub_ge0 x y :
  (y <=? x) = true -> is_nan (x - y) = false -> (0 <=? x - y) = true.
Proof.
  intros H N. apply leb_lex in H as (Ny & Nx & L).
  apply is_nan_false in N. unfold nanZ in *.
  rewrite FloatAxioms.leb_spec, Prim2SF_0. rewrite sub_spec in *.
  unfold SF64sub in *.
  destruct (Prim2SF x) as [sx|sx| |sx mx ex] eqn:Ex,
           (Prim2SF y) as [sy|sy| |sy my ey] eqn:Ey;
    try (cbn in Nx, Ny; lia);
    try (destruct sx, sy; unfold lex_le in L; cbn in N, L |- *;
         first [reflexivity | lia]).
  rewrite SFsub_finite.
  apply (binary_normalize_sign _ (Z.min ex ey)).
  pose proof (aligned_order sy my ey sx mx ex
                (valid_finite _ _ _ _ Ey) (valid_finite _ _ _ _ Ex)) as [A _].
  specialize (A L). rewrite (Z.min_comm ey ex) in A. lia.
Qed.

(** [x - y] is at most 0 when [x <= y], unless it is NaN. *)
Lemma sub_le0 x y :
  (x <=? y) = true -> is_nan (x - y) = false -> (x - y <=? 0) = true.
Proof.
  intros H N. apply leb_lex in H as (Nx & Ny & L).
  apply is_nan_false in N. unfold nanZ in *.
  rewrite FloatAxioms.leb_spec, Prim2SF_0. rewrite sub_spec in *.
  unfold SF64sub in *.
  destruct (Prim2SF x) as [sx|sx| |sx mx ex] eqn:Ex,
           (Prim2SF y) as [sy|sy| |sy my ey] eqn:Ey;
    try (cbn in Nx, Ny; lia);
    try (destruct sx, sy; unfold lex_le in L; cbn in N, L |- *;
         first [reflexivity | lia]).
  rewrite SFsub_finite.
  apply (binary_normalize_sign _ (Z.min ex ey)).
  pose proof (aligned_order sx mx ex sy my ey
                (valid_finite _ _ _ _ Ex) (valid_finite _ _ _ _ Ey)) as [A _].
  specialize (A L). lia.
Qed.

Lemma sub_not_nan x y :
  is_nan (x - y) = false -> is_nan x = false /\ is_nan y = false.
Proof.
  rewrite !is_nan_false. unfold nanZ. rewrite sub_spec. unfold SF64sub.
  destruct (Prim2SF x) as [sx|sx| |sx mx ex], (Prim2SF y) as [sy|sy| |sy my ey];
    cbn; try destruct sx; try destruct sy; cbn; lia.
Qed.

Lemma div_not_nan x y :
  is_nan (x / y) = false -> is_nan x = false /\ is_nan y = false.
Proof.
  rewrite !is_nan_false. unfold nanZ. rewrite div_spec. unfold SF64div.
  destruct (Prim2SF x) as [sx|sx| |sx mx ex], (Prim2SF y) as [sy|sy| |sy my ey];
    cbn; lia.
Qed.

Lemma SFdiv_core_nonneg mx ex my ey :
  (0 <= fst (fst (SFdiv_core_binary prec emax (Zpos mx) ex (Zpos my) ey)))%Z.
Proof.
  unfold SFdiv_core_binary.
  set (s := (ex - ey - _)%Z).
  set (m' := match s with Zpos _ => Z.shiftl (Zpos mx) s | Z0 => Zpos mx | Zneg _ => 0%Z end).
  assert (M : (0 <= m')%Z).
  { unfold m'. destruct s; try lia. apply Z.shiftl_nonneg. lia. }
  pose proof (Z_div_mod m' (Zpos my) ltac:(lia)) as D.
  destruct (Z.div_eucl m' (Zpos my)) as [q rm]. cbn [fst].
  destruct D as [D1 D2]. nia.
Qed.

Lemma SFdiv_finite_sign sx mx ex sy my ey :
  has_sign (xorb sx sy)
    (SFdiv prec emax (S754_finite sx mx ex) (S754_finite sy my ey)).
Proof.
  cbn [SFdiv].
  pose proof (SFdiv_core_nonneg mx ex my ey) as Q.
  destruct (SFdiv_core_binary prec emax (Zpos mx) ex (Zpos my) ey) as [[q e'] l].
  apply binary_round_aux_sign. exact Q.
Qed.

(** The quotient of a value at least 0 by a value with a clear sign bit is
    at least 0, unless it is NaN; likewise for a value at most 0. *)
Lemma div_ge0 n d :
  (0 <=? n) = true -> has_sign false (Prim2SF d) ->
  is_nan (n / d) = false -> (0 <=? n / d) = true.
Proof.
  intros H S N. apply leb_lex in H as (_ & Nn & L).
  apply is_nan_false in N. unfold nanZ in *.
  rewrite FloatAxioms.leb_spec, Prim2SF_0 in *. rewrite div_spec in *.
  unfold SF64div in *.
  destruct (Prim2SF n) as [sx|sx| |sx mx ex], (Prim2SF d) as [sy|sy| |sy my ey];
    cbn in S; subst; try tauto; try (cbn in Nn; lia);
    try (destruct sx; unfold lex_le in L; cbn in N, Nn, L |- *;
         first [reflexivity | lia]).
  apply has_sign_pos_ge0.
  assert (sx = false) by (destruct sx; unfold lex_le in L; cbn in L; [lia|reflexivity]).
  subst sx. apply (SFdiv_finite_sign false mx ex false my ey).
Qed.

Lemma div_le0 n d :
  (n <=? 0) = true -> has_sign false (Prim2SF d) ->
  is_nan (n / d) = false -> (n / d <=? 0) = true.
Proof.
  intros H S N. apply leb_lex in H as (Nn & _ & L).
  apply is_nan_false in N. unfold nanZ in *.
  rewrite FloatAxioms.leb_spec, Prim2SF_0 in *. rewrite div_spec in *.
  unfold SF64div in *.
  destruct (Prim2SF n) as [sx|sx| |sx mx ex], (Prim2SF d) as [sy|sy| |sy my ey];
    cbn in S; subst; try tauto; try (cbn in Nn; lia);
    try (destruct sx; unfold lex_le in L; cbn in N, Nn, L |- *;
         first [reflexivity | lia]).
  apply has_sign_neg_le0.
  assert (sx = true) by (destruct sx; unfold lex_le in L; cbn in L; [reflexivity|lia]).
  subst sx. apply (SFdiv_finite_sign true mx ex false my ey).
Qed.

(** ** Signs of the gaps *)

Lemma pos_has_sign x : (0 <? x) = true -> has_sign false (Prim2SF x).
Proof.
  intros H. apply ltb_lex in H as (_ & N & L).
  unfold nanZ, lex_lt in *. rewrite Prim2SF_0 in L.
  destruct (Prim2SF x) as [s|s| |s m e]; cbn in *; try destruct s; cbn in *;
    try reflexivity; lia.
Qed.

Lemma SFmul_finite_sign sx mx ex sy my ey :
  has_sign (xorb sx sy)
    (SFmul prec emax (S754_finite sx mx ex) (S754_finite sy my ey)).
Proof. cbn [SFmul]. apply binary_round_aux_sign. lia. Qed.

Lemma bufferTarget_sign i :
  (0 <? spend i) = true -> has_sign false (Prim2SF (bufferTarget i)).
Proof.
  intros H. apply pos_has_sign in H. unfold bufferTarget, CASH_BUFFER_MONTHS.
  rewrite mul_spec, div_spec. unfold SF64mul, SF64div.
  change (Prim2SF 12) with (S754_finite false 6755399441055744 (-49)).
  change (Prim2SF 6) with (S754_finite false 6755399441055744 (-50)).
  destruct (Prim2SF (spend i)) as [s|s| |s m e]; cbn in H; subst; try tauto;
    try reflexivity.
  pose proof (SFdiv_finite_sign false m e false 6755399441055744 (-49)) as D.
  destruct (SFdiv prec emax _ _) as [s'|s'| |s' m' e']; cbn in D; subst;
    try tauto; try reflexivity.
  apply (SFmul_finite_sign false m' e' false).
Qed.

Lemma bGap_sign i :
  is_nan (bGap i) = false ->
  if passRuleB i then (0 <=? bGap i) = true else (bGap i <=? 0) = true.
Proof.
  intros N. unfold passRuleB, bGap in *.
  destruct (salaryVsNW i <=? TARGET_SALARY_VS_NW) eqn:P.
  - now apply sub_ge0.
  - apply sub_le0; [|exact N].
    apply sub_not_nan in N as [N1 N2]. float_order.
Qed.

Lemma cGap_sign i :
  (0 <? spend i) = true -> is_nan (cGap i) = false ->
  if passRuleC i then (0 <=? cGap i) = true else (cGap i <=? 0) = true.
Proof.
  intros S N. unfold passRuleC, cGap, JS.geb in *.
  pose proof (pos_has_sign _ S) as HS.
  pose proof (div_not_nan _ _ N) as [N1 N2].
  destruct (spend i <=? afterTaxPortfolioReturn i + sideIncome i) eqn:P.
  - apply div_ge0; auto. now apply sub_ge0.
  - apply div_le0; auto. apply sub_le0; auto.
    apply sub_not_nan in N1 as [N1 _]. float_order.
Qed.

Lemma bufferGap_sign i :
  (0 <? spend i) = true -> is_nan (bufferGap i) = false ->
  if passBuffer i then (0 <=? bufferGap i) = true else (bufferGap i <=? 0) = true.
Proof.
  intros S N. unfold passBuffer, bufferGap, JS.geb in *.
  pose proof (bufferTarget_sign _ S) as HS.
  pose proof (div_not_nan _ _ N) as [N1 N2].
  destruct (bufferTarget i <=? cashOnHand i) eqn:P.
  - apply div_ge0; auto. now apply sub_ge0.
  - apply div_le0; auto. apply sub_le0; auto.
    apply sub_not_nan in N1 as [N1 _]. float_order.
Qed.

(** ** The top driver *)

Lemma driver_driverOf i :
  driver i = driverOf (passRuleB i) (passRuleC i) (passBuffer i)
               (bGap i) (cGap i) (bufferGap i).
Proof. reflexivity. Qed.

Ltac case_leb :=
  repeat match goal with
  | |- context [?a <=? ?b] =>
      let E := fresh "E" in destruct (a <=? b) eqn:E
  end; cbn [negb andb orb]; try reflexivity; try discriminate.

(** With gaps that are not NaN, nonnegative for passing rules and
    nonpositive for failing ones, the raw gaps and the masked gaps select
    the same driver, which is the first minimal failing rule. *)
Lemma driverOf_signed (pB pC pF : bool) (gB gC gF : float) :
  is_nan gB = false -> is_nan gC = false -> is_nan gF = false ->
  (if pB then (0 <=? gB) = true else (gB <=? 0) = true) ->
  (if pC then (0 <=? gC) = true else (gC <=? 0) = true) ->
  (if pF then (0 <=? gF) = true else (gF <=? 0) = true) ->
  driverOf pB pC pF gB gC gF
  = driverOf pB pC pF (maskedGap pB gB) (maskedGap pC gC) (maskedGap pF gF)
  /\ driverOf pB pC pF gB gC gF <> "Multiple factors"%string
  /\ Some (driverOf pB pC pF gB gC gF)
     = (if pB && pC && pF then Some "You’re good"%string
        else if negb pB && ((pB || (gB <=? gB)) && ((pC || (gB <=? gC))
                             && ((pF || (gB <=? gF)) && true)))
        then Some "Salary too large vs net worth"%string
        else if negb pC && ((pB || (gC <=? gB)) && ((pC || (gC <=? gC))
                             && ((pF || (gC <=? gF)) && true)))
        then Some "Spending too high vs portfolio + side income"%string
        else if negb pF && ((pB || (gF <=? gB)) && ((pC || (gF <=? gC))
                             && ((pF || (gF <=? gF)) && true)))
        then Some "Insufficient cash buffer"%string
        else None).
Proof.
  intros NB NC NF SB SC SF.
  assert (IB : (gB <=? infinity) = true) by float_order.
  assert (IC : (gC <=? infinity) = true) by float_order.
  assert (IF : (gF <=? infinity) = true) by float_order.
  assert (RB : (gB <=? gB) = true) by float_order.
  assert (RC : (gC <=? gC) = true) by float_order.
  assert (RF : (gF <=? gF) = true) by float_order.
  unfold driverOf, maskedGap, JS.Infinity.
  destruct pB, pC, pF; cbn [negb andb orb];
    rewrite ?IB, ?IC, ?IF, ?RB, ?RC, ?RF; cbn [negb andb orb];
    (split; [|split]); try reflexivity; try discriminate.
  all: case_leb; try (exfalso; float_order).
Qed.

Lemma driver_signed i :
  (0 <? spend i) = true ->
  is_nan (bGap i) = false -> is_nan (cGap i) = false ->
  is_nan (bufferGap i) = false ->
  driver i = driverMasked i
  /\ driver i <> "Multiple factors"%string
  /\ Some (driver i) = driverSpec i.
Proof.
  intros S NB NC NF. rewrite driver_driverOf. unfold driverMasked.
  apply driverOf_signed; auto.
  - now apply bGap_sign.
  - now apply cGap_sign.
  - now apply bufferGap_sign.
Qed.

Lemma driver_not_passing i :
  (driver i = "Salary too large vs net worth"%string -> passRuleB i = false)
  /\ (driver i = "Spending too high vs portfolio + side income"%string ->
      passRuleC i = false)
  /\ (driver i = "Insufficient cash buffer"%string -> passBuffer i = false).
Proof.
  unfold driver, isYes.
  destruct (passRuleB i), (passRuleC i), (passBuffer i); cbn [negb andb];
    repeat split; try reflexivity; intros H; exfalso; revert H; case_leb.
Qed.

(** C4, as amended: the worst gap is the minimum over the failing rules
    only, each passing rule standing as +Infinity; the driver is never a
    passing rule; the driver compares the raw gaps, those of passing rules
    included, and agrees with the driver computed with the passing gaps
    replaced by +Infinity whenever [spend] is positive and no gap is NaN. *)
Theorem C4_passing_gaps :
  forall i : Inputs,
    worstGap i
    = JS.Math_min [ maskedGap (passRuleB i) (bGap i);
                    maskedGap (passRuleC i) (cGap i);
                    maskedGap (passBuffer i) (bufferGap i) ]
    /\ worstGap i = minFailingGap i
    /\ (driver i = "Salary too large vs net worth"%string ->
        passRuleB i = false)
    /\ (driver i = "Spending too high vs portfolio + side income"%string ->
        passRuleC i = false)
    /\ (driver i = "Insufficient cash buffer"%string -> passBuffer i = false)
    /\ ((0 <? spend i) = true ->
        is_nan (bGap i) = false -> is_nan (cGap i) = false ->
        is_nan (bufferGap i) = false ->
        driver i = driverMasked i).
Proof.
  intros i.
  split; [reflexivity|]. split; [apply worstGap_minFailingGap|].
  pose proof (driver_not_passing i) as (H1 & H2 & H3).
  repeat (split; [assumption|]).
  intros S NB NC NF. now apply driver_signed.
Qed.

Lemma C4_passing_gaps_witness : driver example1 = driverMasked example1.
Proof.
  apply (C4_passing_gaps example1); reflexivity.
Defined.

(** C4, as stated, fails for the driver: on [zeroSpend] only Rule B fails,
    the Buffer rule passes with a NaN gap (0 / 0), and that gap makes the
    driver "Multiple factors" where the masked gaps select Rule B. *)
Lemma C4_passing_gap_changes_driver :
  passRuleB zeroSpend = false
  /\ passRuleC zeroSpend = true
  /\ passBuffer zeroSpend = true
  /\ is_nan (bufferGap zeroSpend) = true
  /\ driver zeroSpend = "Multiple factors"%string
  /\ driverMasked zeroSpend = "Salary too large vs net worth"%string.
Proof. vm_compute. repeat split. Qed.

Lemma salaryVsNW_zero_netWorth i :
  (netWorth i =? 0) = true -> salaryVsNW i = infinity.
Proof.
  intros H. unfold salaryVsNW.
  destruct (netWorth i >? 0) eqn:P; [|reflexivity].
  exfalso. float_order.
Qed.

(** C5, as amended: with a zero net worth and a positive salary the
    salary ratio is +Infinity, Rule B fails with gap -Infinity, and Rule B
    is the top driver exactly when neither the gap of Rule C nor the gap
    of the Buffer rule is NaN; when one of them is NaN the driver is
    "Multiple factors". *)
Theorem C5_zero_net_worth :
  forall i : Inputs,
    (netWorth i =? 0) = true ->
    (salary i >? 0) = true ->
    salaryVsNW i = infinity
    /\ passRuleB i = false
    /\ bGap i = neg_infinity
    /\ driver i
       = if is_nan (cGap i) || is_nan (bufferGap i)
         then "Multiple factors"%string
         else "Salary too large vs net worth"%string.
Proof.
  intros i Z _.
  pose proof (salaryVsNW_zero_netWorth i Z) as S.
  assert (P : passRuleB i = false) by (unfold passRuleB; rewrite S; reflexivity).
  assert (G : bGap i = neg_infinity) by (unfold bGap; rewrite S; reflexivity).
  repeat (split; [assumption|]).
  unfold driver, isYes. rewrite P, G. cbn [negb andb].
  destruct (is_nan (cGap i)) eqn:NC, (is_nan (bufferGap i)) eqn:NF,
           (passRuleC i), (passBuffer i);
    cbn [orb negb andb]; case_leb; exfalso; float_order.
Qed.

Lemma C5_zero_net_worth_witness :
  salaryVsNW zeroNetWorth = infinity
  /\ passRuleB zeroNetWorth = false
  /\ bGap zeroNetWorth = neg_infinity
  /\ driver zeroNetWorth
     = if is_nan (cGap zeroNetWorth) || is_nan (bufferGap zeroNetWorth)
       then "Multiple factors"%string
       else "Salary too large vs net worth"%string.
Proof.
  apply (C5_zero_net_worth zeroNetWorth); reflexivity.
Defined.

(** C5, as stated, fails: on [noNetWorth] the net worth is 0, the salary
    is positive and Rule B fails, but the spending and the side income are
    0, the gap of Rule C is 0 / 0, and the driver is "Multiple factors". *)
Lemma C5_rule_B_not_driver :
  (netWorth noNetWorth =? 0) = true
  /\ (salary noNetWorth >? 0) = true
  /\ passRuleB noNetWorth = false
  /\ bGap noNetWorth = neg_infinity
  /\ is_nan (cGap noNetWorth) = true
  /\ driver noNetWorth = "Multiple factors"%string.
Proof. vm_compute. repeat split. Qed.

(** C10, as amended: for every input with a positive [spend] in which no
    gap is NaN, the driver is the all-good label when every rule passes
    and otherwise the label of the first rule, in the order B, C, Buffer,
    that fails with a gap at most the gap of every failing rule; it is
    never "Multiple factors". *)
Theorem C10_driver_is_minimal_failing :
  forall i : Inputs,
    (spend i >? 0) = true ->
    is_nan (bGap i) = false -> is_nan (cGap i) = false ->
    is_nan (bufferGap i) = false ->
    driverSpec i = Some (driver i)
    /\ driver i <> "Multiple factors"%string
    /\ (isYes i = true -> driver i = "You’re good"%string)
    /\ (isYes i = false ->
        (driver i = "Salary too large vs net worth"%string
         /\ passRuleB i = false /\ minimalFailing i (bGap i) = true)
        \/ (driver i = "Spending too high vs portfolio + side income"%string
            /\ passRuleC i = false /\ minimalFailing i (cGap i) = true)
        \/ (driver i = "Insufficient cash buffer"%string
            /\ passBuffer i = false /\ minimalFailing i (bufferGap i) = true)).
Proof.
  intros i S NB NC NF.
  destruct (driver_signed i S NB NC NF) as (_ & M & D).
  split; [symmetry; exact D|]. split; [exact M|].
  unfold driverSpec in D. split.
  - intros Y. rewrite Y in D. congruence.
  - intros Y. rewrite Y in D.
    destruct (passRuleB i) eqn:PB, (passRuleC i) eqn:PC, (passBuffer i) eqn:PF;
      try discriminate Y; cbn [negb andb] in D;
      repeat match type of D with
      | context [minimalFailing i ?g] =>
          let E := fresh "E" in destruct (minimalFailing i g) eqn:E
      end; cbn [negb andb] in D; inversion D; auto 10.
Qed.

Lemma C10_driver_is_minimal_failing_witness :
  driverSpec example1 = Some (driver example1)
  /\ driver example1 <> "Multiple factors"%string.
Proof.
  destruct (C10_driver_is_minimal_failing example1) as (H1 & H2 & _);
    try reflexivity.
  split; assumption.
Defined.

(** C10, as stated, fails: [tinySpend] has finite inputs and a positive
    [spend], so small that the buffer target [spend / 12 * 6] underflows
    to 0; with no cash the Buffer rule passes with the gap 0 / 0, and the
    driver is "Multiple factors" although Rule B fails. *)
Lemma C10_multiple_factors_reached :
  finiteInputs tinySpend = true
  /\ (spend tinySpend >? 0) = true
  /\ passRuleB tinySpend = false
  /\ passRuleC tinySpend = true
  /\ passBuffer tinySpend = true
  /\ is_nan (bufferGap tinySpend) = true
  /\ driver tinySpend = "Multiple factors"%string.
Proof. vm_compute. repeat split. Qed.

(** ** Shifting right with round and sticky bits *)

Local Open Scope Z_scope.

Lemma shr_inv_init q l :
  0 <= q -> shr_inv (4 * q + loc_code l) 2 (shr_record_of_loc q l).
Proof.
  intros H. unfold shr_inv. change (2 ^ 2) with 4. change (2 ^ (2 - 1)) with 2.
  destruct l as [|[]]; cbn [shr_record_of_loc shr_m shr_r shr_s loc_code];
    repeat split; intros; try lia; try discriminate.
Qed.

Lemma pow2_succ k : 0 <= k -> 2 ^ (k + 1) = 2 * 2 ^ k.
Proof. intros. rewrite Z.pow_add_r by lia. lia. Qed.

Lemma shr_inv_step z k mrs : shr_inv z k mrs -> shr_inv z (k + 1) (shr_1 mrs).
Proof.
  unfold shr_inv. intros (K & M & R & HR & HS).
  replace (k + 1 - 1) with k by lia.
  rewrite pow2_succ by lia.
  assert (P : 0 < 2 ^ (k - 1)) by (apply Z.pow_pos_nonneg; lia).
  assert (E : 2 ^ k = 2 * 2 ^ (k - 1)).
  { replace k with ((k - 1) + 1) at 1 by lia. apply pow2_succ. lia. }
  destruct mrs as [m rb sb]. cbn [shr_m shr_r shr_s] in *.
  destruct m as [|[p|p|]|p]; try lia; cbn [shr_1 shr_m shr_r shr_s];
    (split; [lia|]); (split; [lia|]);
    destruct rb, sb; cbn [orb];
    repeat split; intros; try discriminate; try lia;
    try (exfalso; intuition lia).
Qed.

Lemma shr_inv_iter p :
  forall z k mrs,
    shr_inv z k mrs -> shr_inv z (k + Zpos p) (SpecFloat.iter_pos shr_1 p mrs).
Proof.
  induction p as [p IH|p IH|]; intros z k mrs H; cbn [SpecFloat.iter_pos].
  - replace (k + Zpos p~1) with (k + 1 + Zpos p + Zpos p) by lia.
    apply IH, IH, shr_inv_step, H.
  - replace (k + Zpos p~0) with (k + Zpos p + Zpos p) by lia.
    apply IH, IH, H.
  - apply shr_inv_step, H.
Qed.

Lemma shr_inv_shr z k mrs e n :
  0 <= n -> shr_inv z k mrs ->
  shr_inv z (k + n) (fst (shr mrs e n)) /\ snd (shr mrs e n) = e + n.
Proof.
  intros N H. unfold shr. destruct n as [|p|p]; try lia; cbn [fst snd].
  - rewrite !Z.add_0_r. auto.
  - split; [now apply shr_inv_iter|reflexivity].
Qed.

Lemma RNEq_nearest N D : 0 < D -> nearest_even N D (RNEq N D).
Proof.
  intros HD. unfold RNEq, nearest_even.
  pose proof (Z.div_mod N D ltac:(lia)) as E.
  pose proof (Z.mod_pos_bound N D HD) as B.
  set (q := N / D) in *. set (r := N mod D) in *.
  destruct (D <? 2 * r) eqn:C1; cbn [orb].
  - apply Z.ltb_lt in C1. repeat split; intros; nia.
  - apply Z.ltb_ge in C1. destruct (2 * r =? D) eqn:C2; cbn [andb].
    + apply Z.eqb_eq in C2. destruct (Z.odd q) eqn:O.
      * apply Z.odd_spec in O as [k O].
        repeat split; intros; try nia; exists (k + 1); lia.
      * rewrite <- Z.negb_even in O. apply negb_false_iff, Z.even_spec in O as [k O].
        repeat split; intros; try nia; exists k; lia.
    + apply Z.eqb_neq in C2. repeat split; intros; nia.
Qed.

Lemma nearest_even_mono N1 D1 v1 N2 D2 v2 :
  0 < D1 -> 0 < D2 -> N1 * D2 <= N2 * D1 ->
  nearest_even N1 D1 v1 -> nearest_even N2 D2 v2 -> v1 <= v2.
Proof.
  intros H1 H2 L (B1 & T1 & _) (B2 & _ & T2).
  destruct (Z_le_gt_dec v1 v2) as [|G]; [assumption|exfalso].
  assert (A : (2 * v1 - 1) * D1 * D2 <= 2 * N1 * D2) by nia.
  assert (B : 2 * N2 * D1 <= (2 * v2 + 1) * D2 * D1) by nia.
  assert (C : (2 * v2 + 1) * (D1 * D2) <= (2 * v1 - 1) * (D1 * D2)) by nia.
  assert (P : 0 < D1 * D2) by nia.
  assert (V : v1 = v2 + 1) by nia. subst v1.
  assert (E1 : 2 * N1 = (2 * (v2 + 1) - 1) * D1) by nia.
  assert (E2 : 2 * N2 = (2 * v2 + 1) * D2) by nia.
  destruct (T1 E1) as [k1 K1]. destruct (T2 E2) as [k2 K2]. lia.
Qed.

Lemma nearest_even_unique N1 D1 v1 N2 D2 v2 :
  0 < D1 -> 0 < D2 -> N1 * D2 = N2 * D1 ->
  nearest_even N1 D1 v1 -> nearest_even N2 D2 v2 -> v1 = v2.
Proof.
  intros. apply Z.le_antisymm.
  - apply (nearest_even_mono N1 D1 v1 N2 D2 v2); auto; lia.
  - apply (nearest_even_mono N2 D2 v2 N1 D1 v1); auto; lia.
Qed.

Lemma RNEq_mono N1 D1 N2 D2 :
  0 < D1 -> 0 < D2 -> N1 * D2 <= N2 * D1 -> RNEq N1 D1 <= RNEq N2 D2.
Proof.
  intros. apply (nearest_even_mono N1 D1 _ N2 D2 _); auto using RNEq_nearest.
Qed.

Lemma RNEq_ext N1 D1 N2 D2 :
  0 < D1 -> 0 < D2 -> N1 * D2 = N2 * D1 -> RNEq N1 D1 = RNEq N2 D2.
Proof.
  intros. apply (nearest_even_unique N1 D1 _ N2 D2 _); auto using RNEq_nearest.
Qed.

(** Rounding the shifted record is rounding [z / 2 ^ k]. *)
Lemma round_of_shr_inv z k mrs :
  shr_inv z k mrs ->
  round_nearest_even (shr_m mrs) (loc_of_shr_record mrs) = RNEq z (2 ^ k).
Proof.
  intros (K & M & R & HR & HS).
  assert (P : 0 < 2 ^ (k - 1)) by (apply Z.pow_pos_nonneg; lia).
  assert (E : 2 ^ k = 2 * 2 ^ (k - 1)).
  { replace k with ((k - 1) + 1) at 1 by lia. apply pow2_succ. lia. }
  apply (nearest_even_unique z (2 ^ k) _ z (2 ^ k) _); try lia;
    [|apply RNEq_nearest; lia].
  destruct mrs as [m rb sb]. cbn [shr_m shr_r shr_s loc_of_shr_record] in *.
  unfold nearest_even.
  destruct rb, sb; cbn [round_nearest_even].
  - assert (2 ^ (k - 1) <= z - m * 2 ^ k) by (apply HR; reflexivity).
    assert (z - m * 2 ^ k <> 2 ^ (k - 1)) by (apply HS; reflexivity).
    repeat split; intros; nia.
  - assert (2 ^ (k - 1) <= z - m * 2 ^ k) by (apply HR; reflexivity).
    assert (z - m * 2 ^ k = 2 ^ (k - 1)).
    { destruct (Z.eq_dec (z - m * 2 ^ k) (2 ^ (k - 1))); [assumption|].
      assert (false = true) by (apply HS; lia). discriminate. }
    destruct (Z.even m) eqn:Ev.
    + apply Z.even_spec in Ev as [j Ev]. repeat split; intros; try nia; exists j; lia.
    + rewrite <- Z.negb_odd in Ev. apply negb_false_iff, Z.odd_spec in Ev as [j Ev].
      repeat split; intros; try nia; exists (j + 1); lia.
  - assert (~ 2 ^ (k - 1) <= z - m * 2 ^ k) by (intros C; apply HR in C; discriminate).
    repeat split; intros; nia.
  - assert (~ 2 ^ (k - 1) <= z - m * 2 ^ k) by (intros C; apply HR in C; discriminate).
    assert (z - m * 2 ^ k = 0).
    { destruct (Z.eq_dec (z - m * 2 ^ k) 0); [assumption|].
      assert (false = true) by (apply HS; lia). discriminate. }
    repeat split; intros; nia.
Qed.


Local Close Scope Z_scope.

(** ** The value of a rounded number *)

Local Open Scope Z_scope.


Lemma Zdigits2_bounds q :
  0 < q -> 2 ^ (Zdigits2 q - 1) <= q < 2 ^ Zdigits2 q /\ 1 <= Zdigits2 q.
Proof.
  destruct q as [|p|p]; try lia. intros _. cbn [Zdigits2].
  split; [apply digits2_bounds|lia].
Qed.

Lemma Zdigits2_nonneg q : 0 <= Zdigits2 q.
Proof. destruct q; cbn; lia. Qed.

Lemma Zdigits2_le q k : 0 <= q -> 0 <= k -> q < 2 ^ k -> Zdigits2 q <= k.
Proof.
  intros Q K H. destruct (Z.eq_dec q 0) as [->|N]; [cbn; lia|].
  pose proof (Zdigits2_bounds q ltac:(lia)) as [[L _] D].
  destruct (Z_le_gt_dec (Zdigits2 q) k) as [|G]; [assumption|exfalso].
  assert (2 ^ k <= 2 ^ (Zdigits2 q - 1)) by (apply Z.pow_le_mono_r; lia). lia.
Qed.

Lemma Zdigits2_ge q k : 1 <= k -> 2 ^ (k - 1) <= q -> k <= Zdigits2 q.
Proof.
  intros K H.
  assert (0 < 2 ^ (k - 1)) by (apply Z.pow_pos_nonneg; lia).
  pose proof (Zdigits2_bounds q ltac:(lia)) as [[_ U] D].
  destruct (Z_le_gt_dec k (Zdigits2 q)) as [|G]; [assumption|exfalso].
  assert (2 ^ Zdigits2 q <= 2 ^ (k - 1)) by (apply Z.pow_le_mono_r; lia). lia.
Qed.

Lemma Zdigits2_mono a b : 0 <= a <= b -> Zdigits2 a <= Zdigits2 b.
Proof.
  intros [A B]. destruct (Z.eq_dec a 0) as [->|N]; [apply Zdigits2_nonneg|].
  pose proof (Zdigits2_bounds a ltac:(lia)) as [[L _] D].
  apply Zdigits2_ge; lia.
Qed.

Lemma fexp_spec x : fexp prec emax x = Z.max (x - 53) (-1074).
Proof. reflexivity. Qed.

Lemma pow2_pos k : 0 <= k -> 0 < 2 ^ k.
Proof. intros. apply Z.pow_pos_nonneg; lia. Qed.

Lemma pow2_split a b : 0 <= a -> 0 <= b -> 2 ^ (a + b) = 2 ^ a * 2 ^ b.
Proof. intros. apply Z.pow_add_r; lia. Qed.

(** Bounds on the rounded mantissa. *)
Lemma rounded_mantissa_bounds q c n :
  0 <= q -> 0 <= c <= 3 -> 0 <= n ->
  Zdigits2 q <= n + 53 ->
  0 <= RNEq (4 * q + c) (2 ^ (n + 2)) <= 2 ^ 53
  /\ (Zdigits2 q = n + 53 -> 2 ^ 52 <= RNEq (4 * q + c) (2 ^ (n + 2))).
Proof.
  intros Q C N D.
  pose proof (pow2_pos (n + 2) ltac:(lia)) as P.
  pose proof (RNEq_nearest (4 * q + c) (2 ^ (n + 2)) P) as ((B1 & B2) & _).
  set (M := RNEq _ _) in *.
  assert (U : q < 2 ^ (n + 53)).
  { destruct (Z.eq_dec q 0) as [->|Nz]; [apply pow2_pos; lia|].
    pose proof (Zdigits2_bounds q ltac:(lia)) as [[_ U] _].
    eapply Z.lt_le_trans; [exact U|]. apply Z.pow_le_mono_r; lia. }
  replace (n + 53) with (51 + (n + 2)) in U by lia.
  rewrite pow2_split in U by lia.
  change (2 ^ 53) with (2 * 2 ^ 52). change (2 ^ 51) with 2251799813685248 in U.
  change (2 ^ 52) with 4503599627370496.
  split; [split; nia|].
  intros E. rewrite E in *.
  assert (q <> 0) by (intros ->; cbn in E; lia).
  pose proof (Zdigits2_bounds q ltac:(lia)) as [[L _] _].
  rewrite E in L. replace (n + 53 - 1) with (50 + (n + 2)) in L by lia.
  rewrite pow2_split in L by lia. change (2 ^ 50) with 1125899906842624 in L.
  nia.
Qed.

Lemma loc_code_range l : 0 <= loc_code l <= 3.
Proof. destruct l as [|[]]; cbn; lia. Qed.

Lemma shr_record_of_loc_m m l : shr_m (shr_record_of_loc m l) = m.
Proof. destruct l as [|[]]; reflexivity. Qed.

(** The second normalisation of [binary_round_aux] on a mantissa of at
    most 53 bits, or on 2^53. *)
Lemma final_zero s E0 :
  -1074 <= E0 ->
  (let '(mrs, e) := shr_fexp prec emax 0 E0 loc_Exact in
   match shr_m mrs with
   | 0 => S754_zero s
   | Zpos m => if e <=? emax - prec then S754_finite s m e else S754_infinity s
   | Zneg _ => S754_nan
   end) = S754_zero s.
Proof.
  intros H. unfold shr_fexp, shr. cbn [Zdigits2]. rewrite fexp_spec.
  destruct (Z.max (0 + E0 - 53) (-1074) - E0) eqn:E; try lia; reflexivity.
Qed.

Lemma final_small s M E0 :
  -1074 <= E0 -> 0 < M < 2 ^ 53 ->
  (let '(mrs, e) := shr_fexp prec emax M E0 loc_Exact in
   match shr_m mrs with
   | 0 => S754_zero s
   | Zpos m => if e <=? emax - prec then S754_finite s m e else S754_infinity s
   | Zneg _ => S754_nan
   end)
  = if E0 <=? 971 then S754_finite s (Z.to_pos M) E0 else S754_infinity s.
Proof.
  intros H B. unfold shr_fexp, shr. rewrite fexp_spec.
  assert (D : Zdigits2 M <= 53) by (apply Zdigits2_le; lia).
  destruct (Z.max (Zdigits2 M + E0 - 53) (-1074) - E0) eqn:E; try lia;
    cbn [shr_record_of_loc shr_m]; destruct M; try lia; reflexivity.
Qed.

Lemma final_carry s E0 :
  -1074 <= E0 ->
  (let '(mrs, e) := shr_fexp prec emax (2 ^ 53) E0 loc_Exact in
   match shr_m mrs with
   | 0 => S754_zero s
   | Zpos m => if e <=? emax - prec then S754_finite s m e else S754_infinity s
   | Zneg _ => S754_nan
   end)
  = if E0 + 1 <=? 971 then S754_finite s (Z.to_pos (2 ^ 52)) (E0 + 1)
    else S754_infinity s.
Proof.
  intros H. unfold shr_fexp, shr. rewrite fexp_spec.
  change (Zdigits2 (2 ^ 53)) with 54.
  replace (Z.max (54 + E0 - 53) (-1074) - E0) with 1 by lia.
  reflexivity.
Qed.

Lemma shr_fexp_inv q e l :
  0 <= q -> 0 <= fexp prec emax (Zdigits2 q + e) - e ->
  shr_inv (4 * q + loc_code l) (2 + (fexp prec emax (Zdigits2 q + e) - e))
    (fst (shr_fexp prec emax q e l))
  /\ snd (shr_fexp prec emax q e l) = e + (fexp prec emax (Zdigits2 q + e) - e).
Proof.
  intros Q N. unfold shr_fexp. apply shr_inv_shr; [exact N|].
  apply shr_inv_init, Q.
Qed.

(** The value of a rounded result: the located mantissa [q] at exponent
    [e], rounded to nearest even at the exponent [fexp], saturating at
    2^1024. *)
Lemma binary_round_aux_value s q e l :
  0 <= q ->
  0 <= fexp prec emax (Zdigits2 q + e) - e ->
  sf_nan (binary_round_aux prec emax s q e l) = 0
  /\ SFval (binary_round_aux prec emax s q e l)
     = cond_Zopp s
         (Z.min BIG
            (RNEq (4 * q + loc_code l)
                  (2 ^ (fexp prec emax (Zdigits2 q + e) - e + 2))
             * 2 ^ (fexp prec emax (Zdigits2 q + e) + 1074))).
Proof.
  intros Q N. set (n := fexp prec emax (Zdigits2 q + e) - e) in *.
  set (E0 := fexp prec emax (Zdigits2 q + e)).
  assert (HE : -1074 <= E0) by (unfold E0; rewrite fexp_spec; lia).
  assert (HD : Zdigits2 q <= n + 53) by (unfold n; rewrite fexp_spec; lia).
  pose proof (loc_code_range l) as C.
  destruct (rounded_mantissa_bounds q (loc_code l) n Q C N HD) as [[M0 M1] M2].
  unfold binary_round_aux.
  pose proof (shr_fexp_inv q e l Q N) as [I S]. fold n in I, S.
  destruct (shr_fexp prec emax q e l) as [mrs' e'] eqn:F.
  cbn [fst snd] in I, S. subst e'.
  rewrite (round_of_shr_inv _ _ _ I).
  replace (2 + n) with (n + 2) by lia.
  set (M := RNEq (4 * q + loc_code l) (2 ^ (n + 2))) in *.
  replace (e + n) with E0 by (unfold n, E0; lia).
  assert (P : 0 < 2 ^ (E0 + 1074)) by (apply pow2_pos; lia).
  assert (B : BIG = 2 ^ 53 * 2 ^ 2045) by reflexivity.
  destruct (Z.eq_dec M 0) as [Z0|NZ].
  { rewrite Z0, final_zero by lia. cbn [sf_nan SFval].
    rewrite Z.mul_0_l, Z.min_r by (pose proof BIG_pos; lia).
    destruct s; split; reflexivity. }
  destruct (Z.eq_dec M (2 ^ 53)) as [C53|N53].
  { rewrite C53, final_carry by lia.
    destruct (E0 + 1 <=? 971) eqn:L; cbn [sf_nan SFval]; (split; [reflexivity|]);
      f_equal.
    - apply Z.leb_le in L.
      assert (2 ^ (E0 + 1074) <= 2 ^ 2044) by (apply Z.pow_le_mono_r; lia).
      change (2 ^ 2045) with (2 * 2 ^ 2044) in B.
      rewrite Z.min_r by nia.
      replace (E0 + 1 + 1074) with (1 + (E0 + 1074)) by lia.
      rewrite pow2_split by lia. change (Z.pos (Z.to_pos (2 ^ 52))) with (2 ^ 52).
      change (2 ^ 53) with (2 ^ 52 * 2 ^ 1). lia.
    - apply Z.leb_gt in L.
      assert (2 ^ 2045 <= 2 ^ (E0 + 1074)) by (apply Z.pow_le_mono_r; lia).
      rewrite Z.min_l by nia. reflexivity. }
  rewrite final_small by lia.
  destruct (E0 <=? 971) eqn:L; cbn [sf_nan SFval]; (split; [reflexivity|]);
    f_equal.
  - apply Z.leb_le in L.
    assert (2 ^ (E0 + 1074) <= 2 ^ 2045) by (apply Z.pow_le_mono_r; lia).
    rewrite Z2Pos.id by lia. rewrite Z.min_r by nia. reflexivity.
  - apply Z.leb_gt in L.
    assert (2 ^ 2046 <= 2 ^ (E0 + 1074)) by (apply Z.pow_le_mono_r; lia).
    assert (2 ^ 52 <= M).
    { apply M2. unfold n. fold E0. unfold E0 in L |- *.
      rewrite fexp_spec in *. lia. }
    change (2 ^ 2046) with (2 * 2 ^ 2045) in *.
    change (2 ^ 53) with (2 * 2 ^ 52) in B.
    rewrite Z.min_l by nia. reflexivity.
Qed.


Local Close Scope Z_scope.

(** ** The remainder of a division *)

Local Open Scope Z_scope.

Lemma new_location_located D r :
  0 < D -> 0 <= r < D -> located D r (loc_code (new_location D r)).
Proof.
  intros HD HR. unfold located, new_location, new_location_even, new_location_odd.
  destruct (Z.even D) eqn:Ev.
  - destruct (r =? 0) eqn:Z0; [apply Z.eqb_eq in Z0; cbn; lia|].
    apply Z.eqb_neq in Z0.
    destruct (Z.compare_spec (2 * r) D); cbn [loc_code]; lia.
  - rewrite <- Z.negb_odd in Ev. apply negb_false_iff, Z.odd_spec in Ev as [k Ev].
    destruct (r =? 0) eqn:Z0; [apply Z.eqb_eq in Z0; cbn; lia|].
    apply Z.eqb_neq in Z0.
    destruct (Z.compare_spec (2 * r + 1) D); cbn [loc_code]; lia.
Qed.

(** Rounding the quotient with its location is rounding the fraction. *)
Lemma located_round N D n c :
  0 <= N -> 0 < D -> 0 <= n -> located D (N mod D) c ->
  RNEq (4 * (N / D) + c) (2 ^ (n + 2)) = RNEq N (D * 2 ^ n).
Proof.
  intros HN HD Hn L.
  pose proof (pow2_pos n Hn) as P.
  assert (P2 : 2 ^ (n + 2) = 4 * 2 ^ n) by (rewrite pow2_split by lia; lia).
  pose proof (RNEq_nearest (4 * (N / D) + c) (2 ^ (n + 2)) ltac:(lia))
    as ((B1 & B2) & T1 & T2).
  set (v := RNEq (4 * (N / D) + c) (2 ^ (n + 2))) in *.
  apply (nearest_even_unique N (D * 2 ^ n) v N (D * 2 ^ n));
    try nia; [|apply RNEq_nearest; nia].
  pose proof (Z.div_mod N D ltac:(lia)) as E.
  pose proof (Z.mod_pos_bound N D HD) as B.
  set (q := N / D) in *. set (r := N mod D) in *.
  rewrite P2 in *. set (p := 2 ^ n) in *.
  unfold nearest_even.
  destruct L as [[L1 L2]|[[L1 L2]|[[L1 L2]|[L1 L2]]]]; subst c.
  - assert ((2 * v - 1) * p <= 2 * q <= (2 * v + 1) * p) by lia.
    repeat split; try nia; intros H'; [apply T1|apply T2]; nia.
  - assert ((2 * v - 1) * p <= 2 * q /\ 2 * q + 1 <= (2 * v + 1) * p) by lia.
    repeat split; try nia; intros H'; exfalso; nia.
  - assert ((2 * v - 1) * p <= 2 * q + 1 <= (2 * v + 1) * p) by lia.
    repeat split; try nia; intros H'; [apply T1|apply T2]; nia.
  - assert ((2 * v - 1) * p <= 2 * q + 1 /\ 2 * q + 2 <= (2 * v + 1) * p) by lia.
    repeat split; try nia; intros H'; exfalso; nia.
Qed.

(** ** Rounding a fraction of integers to binary64 *)

Lemma div_le_cross N1 D1 N2 D2 :
  0 < D1 -> 0 < D2 -> N1 * D2 <= N2 * D1 -> N1 / D1 <= N2 / D2.
Proof.
  intros H1 H2 L.
  pose proof (Z.div_mod N1 D1 ltac:(lia)). pose proof (Z.mod_pos_bound N1 D1 H1).
  pose proof (Z.div_mod N2 D2 ltac:(lia)). pose proof (Z.mod_pos_bound N2 D2 H2).
  destruct (Z_le_gt_dec (N1 / D1) (N2 / D2)); [assumption|exfalso].
  set (q1 := N1 / D1) in *. set (q2 := N2 / D2) in *.
  assert (A : (q2 + 1) * D1 <= N1) by nia.
  assert (B : N2 < (q2 + 1) * D2) by nia.
  assert (C : (q2 + 1) * D1 * D2 <= N1 * D2) by (apply Z.mul_le_mono_nonneg_r; lia).
  assert (E : N2 * D1 < (q2 + 1) * D2 * D1) by (apply Z.mul_lt_mono_pos_r; lia).
  lia.
Qed.

Lemma div_ext N1 D1 N2 D2 :
  0 < D1 -> 0 < D2 -> N1 * D2 = N2 * D1 -> N1 / D1 = N2 / D2.
Proof.
  intros. apply Z.le_antisymm; apply div_le_cross; auto; lia.
Qed.

Lemma Edig_nonneg N D : 0 <= Edig N D.
Proof. unfold Edig. lia. Qed.

Lemma RV_mantissa_bounds N D :
  0 <= N -> 0 < D ->
  0 <= RNEq N (D * 2 ^ Edig N D) <= 2 ^ 53
  /\ (0 < Edig N D -> 2 ^ 52 <= RNEq N (D * 2 ^ Edig N D)).
Proof.
  intros HN HD. pose proof (Edig_nonneg N D) as EN.
  pose proof (pow2_pos _ EN) as P.
  assert (Q : 0 <= N / D) by (apply Z.div_pos; lia).
  pose proof (Z.div_mod N D ltac:(lia)) as E.
  pose proof (Z.mod_pos_bound N D HD) as B.
  pose proof (RNEq_nearest N (D * 2 ^ Edig N D) ltac:(nia)) as ((B1 & B2) & _).
  set (M := RNEq N (D * 2 ^ Edig N D)) in *.
  assert (PD : 0 < D * 2 ^ Edig N D) by nia.
  assert (U : N / D < 2 ^ (Edig N D + 53)).
  { destruct (Z.eq_dec (N / D) 0) as [->|Nz]; [apply pow2_pos; lia|].
    pose proof (Zdigits2_bounds (N / D) ltac:(lia)) as [[_ U] _].
    eapply Z.lt_le_trans; [exact U|]. apply Z.pow_le_mono_r; unfold Edig; lia. }
  rewrite pow2_split in U by lia.
  assert (U' : N < 2 ^ Edig N D * 2 ^ 53 * D) by nia.
  split.
  - split.
    + destruct (Z_le_gt_dec 0 M); [assumption|exfalso].
      assert ((2 * M + 1) * (D * 2 ^ Edig N D) < 0) by nia. lia.
    + destruct (Z_le_gt_dec M (2 ^ 53)); [assumption|exfalso].
      assert (2 * 2 ^ 53 + 1 <= 2 * M - 1) by lia.
      assert ((2 * 2 ^ 53 + 1) * (D * 2 ^ Edig N D) <= (2 * M - 1) * (D * 2 ^ Edig N D))
        by (apply Z.mul_le_mono_nonneg_r; lia).
      nia.
  - intros EP.
    assert (Dg : Zdigits2 (N / D) = Edig N D + 53) by (unfold Edig in *; lia).
    assert (Nz : N / D <> 0) by (intros C; rewrite C in Dg; cbn in Dg; lia).
    pose proof (Zdigits2_bounds (N / D) ltac:(lia)) as [[L _] _].
    rewrite Dg in L. replace (Edig N D + 53 - 1) with (Edig N D + 52) in L by lia.
    rewrite pow2_split in L by lia.
    assert (L' : 2 ^ Edig N D * 2 ^ 52 * D <= N) by nia.
    destruct (Z_le_gt_dec (2 ^ 52) M); [assumption|exfalso].
    assert (2 * M + 1 <= 2 * 2 ^ 52 - 1) by lia.
    assert ((2 * M + 1) * (D * 2 ^ Edig N D) <= (2 * 2 ^ 52 - 1) * (D * 2 ^ Edig N D))
      by (apply Z.mul_le_mono_nonneg_r; lia).
    nia.
Qed.

(** Rounding is monotone in the fraction. *)
Lemma RV_mono N1 D1 N2 D2 :
  0 <= N1 -> 0 < D1 -> 0 <= N2 -> 0 < D2 ->
  N1 * D2 <= N2 * D1 -> RV N1 D1 <= RV N2 D2.
Proof.
  intros HN1 HD1 HN2 HD2 L. unfold RV.
  apply Z.min_le_compat_l.
  pose proof (div_le_cross N1 D1 N2 D2 HD1 HD2 L) as Q.
  assert (Q1 : 0 <= N1 / D1) by (apply Z.div_pos; lia).
  pose proof (Zdigits2_mono _ _ (conj Q1 Q)) as Dg.
  assert (EL : Edig N1 D1 <= Edig N2 D2) by (unfold Edig; lia).
  pose proof (Edig_nonneg N1 D1) as E1. pose proof (Edig_nonneg N2 D2) as E2.
  pose proof (pow2_pos _ E1) as P1. pose proof (pow2_pos _ E2) as P2.
  destruct (RV_mantissa_bounds N1 D1 HN1 HD1) as [[A1 A2] _].
  destruct (RV_mantissa_bounds N2 D2 HN2 HD2) as [[B1 B2] B3].
  destruct (Z.eq_dec (Edig N1 D1) (Edig N2 D2)) as [Eq|Ne].
  - rewrite Eq in *. apply Z.mul_le_mono_nonneg_r; [lia|].
    apply RNEq_mono; nia.
  - specialize (B3 ltac:(lia)).
    assert (S : 2 * 2 ^ Edig N1 D1 <= 2 ^ Edig N2 D2).
    { rewrite <- pow2_succ by lia. apply Z.pow_le_mono_r; lia. }
    change (2 ^ 53) with (2 * 2 ^ 52) in *.
    set (M1 := RNEq N1 _) in *. set (M2 := RNEq N2 _) in *.
    apply Z.le_trans with (2 * 2 ^ 52 * 2 ^ Edig N1 D1).
    + apply Z.mul_le_mono_nonneg_r; lia.
    + apply Z.le_trans with (2 ^ 52 * 2 ^ Edig N2 D2); [lia|].
      apply Z.mul_le_mono_nonneg_r; lia.
Qed.


Local Close Scope Z_scope.

(** ** Differences of finite numbers *)

Local Open Scope Z_scope.


Lemma Zdigits2_shift m j :
  0 < m -> 0 <= j -> Zdigits2 (m * 2 ^ j) = Zdigits2 m + j.
Proof.
  intros M J. pose proof (Zdigits2_bounds m M) as [[L U] D].
  pose proof (pow2_pos j J) as P.
  apply Z.le_antisymm.
  - apply Zdigits2_le; try nia. rewrite pow2_split by lia. nia.
  - apply Zdigits2_ge; try lia.
    replace (Zdigits2 m + j - 1) with ((Zdigits2 m - 1) + j) by lia.
    rewrite pow2_split by lia. nia.
Qed.

Lemma RNEq_exact v D : 0 < D -> RNEq (v * D) D = v.
Proof.
  intros H. unfold RNEq. rewrite Z.div_mul, Z.mod_mul by lia.
  replace (D <? 2 * 0) with false by (symmetry; apply Z.ltb_ge; lia).
  replace (2 * 0 =? D) with false by (symmetry; apply Z.eqb_neq; lia).
  cbn. lia.
Qed.

Lemma RV_nonneg N D : 0 <= N -> 0 < D -> 0 <= RV N D.
Proof.
  intros HN HD. unfold RV. pose proof BIG_pos.
  destruct (RV_mantissa_bounds N D HN HD) as [[A _] _].
  pose proof (pow2_pos _ (Edig_nonneg N D)). apply Z.min_glb; nia.
Qed.

Lemma RV_0 D : 0 < D -> RV 0 D = 0.
Proof.
  intros H. unfold RV, Edig. rewrite Z.div_0_l by lia. cbn [Zdigits2].
  replace (Z.max (0 - 53) 0) with 0 by lia.
  replace 0 with (0 * (D * 2 ^ 0)) at 1 by lia.
  rewrite RNEq_exact by lia. reflexivity.
Qed.

(** A valid binary64 value rounds to itself. *)
Lemma RV_representable m e :
  bounded prec emax m e = true ->
  RV (Zpos m * 2 ^ (e + 1074)) 1 = Zpos m * 2 ^ (e + 1074).
Proof.
  intros B. pose proof (SFval_finite_bounds m e B) as V.
  apply bounded_spec in B as (R & D & DN).
  unfold RV, Edig. rewrite Z.div_1_r, Z.mul_1_l.
  rewrite Zdigits2_shift by lia. cbn [Zdigits2].
  destruct (Z.eq_dec e (-1074)) as [->|Ne].
  - replace (Z.max (Zpos (digits2_pos m) + (-1074 + 1074) - 53) 0) with 0 by lia.
    change (2 ^ (-1074 + 1074)) with 1 in *. change (2 ^ 0) with 1.
    replace (Zpos m * 1) with (Zpos m * 1 * 1) at 1 by lia.
    rewrite RNEq_exact by lia. lia.
  - rewrite DN by lia.
    replace (Z.max (53 + (e + 1074) - 53) 0) with (e + 1074) by lia.
    rewrite RNEq_exact by (apply pow2_pos; lia). lia.
Qed.

(** The value of [binary_round]: the integer [m] at exponent [e] rounded
    to binary64. *)
Lemma binary_round_value s m e :
  -1074 <= e ->
  sf_nan (binary_round prec emax s m e) = 0
  /\ SFval (binary_round prec emax s m e)
     = cond_Zopp s (RV (Zpos m * 2 ^ (e + 1074)) 1).
Proof.
  intros He. unfold binary_round.
  set (F := fexp prec emax (Zpos (digits2_pos m) + e)).
  assert (HF : F = Z.max (Zpos (digits2_pos m) + e - 53) (-1074)) by reflexivity.
  assert (A : exists mz ez, shl_align m e F = (mz, ez) /\ ez <= e /\ ez <= F
              /\ Zpos mz = Zpos m * 2 ^ (e - ez)).
  { unfold shl_align. destruct (F - e) as [|d|d] eqn:E.
    - exists m, e. repeat split; try lia. replace (e - e) with 0 by lia. lia.
    - exists m, e. repeat split; try lia. replace (e - e) with 0 by lia. lia.
    - exists (Pos.iter xO m d), F. repeat split; try lia.
      change (Pos.iter xO m d) with (shift_pos d m).
      rewrite shift_pos_correct, Z.pow_pos_fold.
      replace (e - F) with (Zpos d) by lia. lia. }
  destruct A as (mz & ez & -> & L1 & L2 & V).
  assert (Dg : Zdigits2 (Zpos mz) + ez = Zpos (digits2_pos m) + e).
  { rewrite V, Zdigits2_shift by lia. cbn [Zdigits2]. lia. }
  assert (N : 0 <= fexp prec emax (Zdigits2 (Zpos mz) + ez) - ez)
    by (rewrite Dg; fold F; lia).
  destruct (binary_round_aux_value s (Zpos mz) ez loc_Exact ltac:(lia) N) as [H1 H2].
  split; [exact H1|]. rewrite H2. f_equal. rewrite Dg. fold F.
  cbn [loc_code]. rewrite Z.add_0_r.
  pose proof (located_round (Zpos mz) 1 (F - ez) 0 ltac:(lia) ltac:(lia) ltac:(lia)) as LR.
  rewrite Z.div_1_r, Z.add_0_r in LR. rewrite LR.
  2:{ left. rewrite Z.mod_1_r. lia. }
  unfold RV. f_equal.
  assert (EE : Edig (Zpos m * 2 ^ (e + 1074)) 1 = F + 1074).
  { unfold Edig. rewrite Z.div_1_r, Zdigits2_shift by lia. cbn [Zdigits2]. lia. }
  rewrite EE. f_equal.
  apply RNEq_ext.
  - pose proof (pow2_pos (F - ez)). lia.
  - pose proof (pow2_pos (F + 1074)). lia.
  - rewrite V, !Z.mul_1_l, <- !Z.mul_assoc, <- !pow2_split by lia.
    do 2 f_equal. lia.
Qed.

Lemma RVz_mono a b : a <= b -> RVz a <= RVz b.
Proof.
  intros H. unfold RVz.
  destruct (0 <=? a) eqn:A, (0 <=? b) eqn:B;
    try apply Z.leb_le in A; try apply Z.leb_gt in A;
    try apply Z.leb_le in B; try apply Z.leb_gt in B; try lia.
  - apply RV_mono; lia.
  - pose proof (RV_nonneg (- a) 1). pose proof (RV_nonneg b 1). lia.
  - assert (RV (- b) 1 <= RV (- a) 1) by (apply RV_mono; lia). lia.
Qed.

Lemma RVz_0 : RVz 0 = 0.
Proof. vm_compute. reflexivity. Qed.

Lemma RVz_nonneg v : 0 <= v -> 0 <= RVz v.
Proof. intros. rewrite <- RVz_0. now apply RVz_mono. Qed.

Lemma RVz_nonpos v : v <= 0 -> RVz v <= 0.
Proof. intros. rewrite <- RVz_0. now apply RVz_mono. Qed.

Lemma binary_normalize_value z e :
  -1074 <= e ->
  sf_nan (binary_normalize prec emax z e false) = 0
  /\ SFval (binary_normalize prec emax z e false) = RVz (z * 2 ^ (e + 1074)).
Proof.
  intros He. pose proof (pow2_pos (e + 1074) ltac:(lia)) as P.
  destruct z as [|p|p]; cbn [binary_normalize].
  - split; [reflexivity|]. rewrite Z.mul_0_l, RVz_0. reflexivity.
  - destruct (binary_round_value false p e He) as [H1 H2].
    split; [exact H1|]. rewrite H2. unfold RVz.
    replace (0 <=? Zpos p * 2 ^ (e + 1074)) with true
      by (symmetry; apply Z.leb_le; lia). reflexivity.
  - destruct (binary_round_value true p e He) as [H1 H2].
    split; [exact H1|]. rewrite H2. unfold RVz.
    replace (0 <=? Zneg p * 2 ^ (e + 1074)) with false
      by (symmetry; apply Z.leb_gt; lia).
    cbn [cond_Zopp]. do 2 f_equal. lia.
Qed.

Lemma RVz_representable s m e :
  bounded prec emax m e = true ->
  RVz (SFval (S754_finite s m e)) = SFval (S754_finite s m e).
Proof.
  intros B. pose proof (SFval_finite_bounds m e B) as V.
  pose proof (RV_representable m e B) as R.
  unfold RVz. cbn [SFval]. destruct s; cbn [cond_Zopp].
  - replace (0 <=? - (Zpos m * 2 ^ (e + 1074))) with false
      by (symmetry; apply Z.leb_gt; lia).
    rewrite Z.opp_involutive, R. reflexivity.
  - replace (0 <=? Zpos m * 2 ^ (e + 1074)) with true
      by (symmetry; apply Z.leb_le; lia). exact R.
Qed.

(** The difference of two finite numbers is their exact difference,
    rounded. *)
Lemma SFsub_value x y :
  valid_binary x = true -> valid_binary y = true ->
  sf_finite x -> sf_finite y ->
  sf_nan (SFsub prec emax x y) = 0
  /\ SFval (SFsub prec emax x y) = RVz (SFval x - SFval y).
Proof.
  intros Vx Vy Fx Fy.
  destruct x as [sx|sx| |sx mx ex], y as [sy|sy| |sy my ey];
    cbn in Fx, Fy; try tauto; cbn [valid_binary] in Vx, Vy.
  - destruct sx, sy; split; vm_compute; reflexivity.
  - cbn [SFsub]. split; [reflexivity|].
    replace (SFval (S754_zero sx) - SFval (S754_finite sy my ey))
      with (SFval (S754_finite (negb sy) my ey))
      by (cbn [SFval]; destruct sy; cbn [cond_Zopp negb]; lia).
    now rewrite RVz_representable.
  - cbn [SFsub]. split; [reflexivity|].
    replace (SFval (S754_finite sx mx ex) - SFval (S754_zero sy))
      with (SFval (S754_finite sx mx ex)) by (cbn [SFval]; lia).
    now rewrite RVz_representable.
  - rewrite SFsub_finite.
    pose proof (bounded_spec _ _ Vx) as (Rx & _).
    pose proof (bounded_spec _ _ Vy) as (Ry & _).
    destruct (binary_normalize_value
                (aligned sx mx ex (Z.min ex ey) - aligned sy my ey (Z.min ex ey))
                (Z.min ex ey) ltac:(lia)) as [H1 H2].
    split; [exact H1|]. rewrite H2. f_equal.
    rewrite (SFval_aligned sx mx ex (Z.min ex ey)) by lia.
    rewrite (SFval_aligned sy my ey (Z.min ex ey)) by lia. lia.
Qed.


Local Close Scope Z_scope.

(** ** Quotients of positive numbers *)

Local Open Scope Z_scope.


Lemma Zdigits2_mul_pow_div A B t :
  0 < B -> 1 <= A / B -> 0 <= t ->
  Zdigits2 (A * 2 ^ t / B) = Zdigits2 (A / B) + t.
Proof.
  intros HB HQ Ht.
  pose proof (Z.div_mod A B ltac:(lia)) as E.
  pose proof (Z.mod_pos_bound A B HB) as R.
  pose proof (Zdigits2_bounds (A / B) ltac:(lia)) as [[L U] D].
  pose proof (pow2_pos t Ht) as P.
  set (q := A / B) in *. set (d := Zdigits2 q) in *.
  apply Z.le_antisymm.
  - apply Zdigits2_le; try lia.
    + apply Z.div_pos; nia.
    + apply Z.div_lt_upper_bound; [lia|]. rewrite pow2_split by lia.
      assert (A < B * 2 ^ d) by nia.
      assert (A * 2 ^ t < B * 2 ^ d * 2 ^ t) by (apply Z.mul_lt_mono_pos_r; lia).
      lia.
  - apply Zdigits2_ge; try lia.
    apply Z.div_le_lower_bound; [lia|].
    replace (d + t - 1) with ((d - 1) + t) by lia. rewrite pow2_split by lia.
    assert (B * 2 ^ (d - 1) <= A) by nia.
    assert (B * 2 ^ (d - 1) * 2 ^ t <= A * 2 ^ t) by (apply Z.mul_le_mono_nonneg_r; lia).
    lia.
Qed.

Lemma Zdigits2_div_pow q u :
  0 <= q -> 0 <= u -> Zdigits2 (q / 2 ^ u) = Z.max (Zdigits2 q - u) 0.
Proof.
  intros Q Hu. pose proof (pow2_pos u Hu) as P.
  destruct (Z.eq_dec q 0) as [->|Nz].
  { rewrite Z.div_0_l by lia. cbn [Zdigits2]. lia. }
  pose proof (Zdigits2_bounds q ltac:(lia)) as [[L U] D].
  set (d := Zdigits2 q) in *.
  destruct (Z_le_gt_dec d u) as [Le|Gt].
  - assert (2 ^ d <= 2 ^ u) by (apply Z.pow_le_mono_r; lia).
    rewrite Z.div_small by lia. cbn [Zdigits2]. lia.
  - replace (Z.max (d - u) 0) with (d - u) by lia.
    apply Z.le_antisymm.
    + apply Zdigits2_le; try lia.
      * apply Z.div_pos; lia.
      * apply Z.div_lt_upper_bound; [lia|]. rewrite <- pow2_split by lia.
        replace (u + (d - u)) with d by lia. lia.
    + apply Zdigits2_ge; try lia.
      apply Z.div_le_lower_bound; [lia|]. rewrite <- pow2_split by lia.
      replace (u + (d - u - 1)) with (d - 1) by lia. lia.
Qed.

Lemma div_eucl_div_mod a b :
  Z.div_eucl a b = (a / b, a mod b).
Proof. unfold Z.div, Z.modulo. destruct (Z.div_eucl a b); reflexivity. Qed.

Lemma shifted_mantissa m s :
  0 <= s ->
  match s with
  | Zpos _ => Z.shiftl (Zpos m) s
  | 0 => Zpos m
  | Zneg _ => 0
  end = Zpos m * 2 ^ s.
Proof.
  intros H. destruct s as [|p|p].
  - rewrite Z.pow_0_r. lia.
  - apply Z.shiftl_mul_pow2. lia.
  - lia.
Qed.

(** The quotient of two positive finite numbers is their exact quotient,
    rounded. *)
Lemma SFdiv_value mx ex my ey :
  bounded prec emax mx ex = true -> bounded prec emax my ey = true ->
  sf_nan (SFdiv prec emax (S754_finite false mx ex) (S754_finite false my ey)) = 0
  /\ SFval (SFdiv prec emax (S754_finite false mx ex) (S754_finite false my ey))
     = RV (Zpos mx * 2 ^ (ex + 2148)) (Zpos my * 2 ^ (ey + 1074)).
Proof.
  intros Bx By.
  pose proof (bounded_spec _ _ Bx) as (Rx & _).
  pose proof (bounded_spec _ _ By) as (Ry & _).
  cbn [SFdiv xorb]. unfold SFdiv_core_binary.
  set (d1 := Zdigits2 (Zpos mx)). set (d2 := Zdigits2 (Zpos my)).
  set (e' := Z.min (fexp prec emax (d1 + ex - (d2 + ey))) (ex - ey)).
  set (s := ex - ey - e').
  assert (Hs : 0 <= s) by (unfold s, e'; lia).
  rewrite (shifted_mantissa mx s Hs), div_eucl_div_mod.
  set (m' := Zpos mx * 2 ^ s).
  pose proof (pow2_pos s Hs) as Ps.
  assert (Hm' : 0 < m') by (unfold m'; lia).
  pose proof (Z.div_mod m' (Zpos my) ltac:(lia)) as E.
  pose proof (Z.mod_pos_bound m' (Zpos my) ltac:(lia)) as R.
  set (q := m' / Zpos my) in *. set (r := m' mod Zpos my) in *.
  assert (Hq : 0 <= q) by (apply Z.div_pos; lia).
  pose proof (Zdigits2_bounds (Zpos mx) ltac:(lia)) as [[L1 U1] D1]. fold d1 in L1, U1, D1.
  pose proof (Zdigits2_bounds (Zpos my) ltac:(lia)) as [[L2 U2] D2]. fold d2 in L2, U2, D2.
  (* the quotient has at least d1 + s - d2 bits *)
  assert (Dq : d1 + s - d2 <= Zdigits2 q).
  { pose proof (Zdigits2_nonneg q).
    destruct (Z_le_gt_dec (d1 + s - d2) 0); [lia|].
    apply Zdigits2_ge; [lia|].
    apply Z.div_le_lower_bound; [lia|].
    assert (A : 2 ^ (d1 - 1) * 2 ^ s <= m') by (unfold m'; nia).
    assert (B : 2 ^ (d1 + s - d2 - 1) * 2 ^ d2 = 2 ^ (d1 - 1) * 2 ^ s).
    { rewrite <- !pow2_split by lia. f_equal. lia. }
    assert (0 < 2 ^ (d1 + s - d2 - 1)) by (apply pow2_pos; lia).
    nia. }
  assert (N : 0 <= fexp prec emax (Zdigits2 q + e') - e').
  { unfold e' at 2. rewrite !fexp_spec. unfold s in Dq. lia. }
  destruct (binary_round_aux_value false q e' (new_location (Zpos my) r) Hq N)
    as [H1 H2].
  split; [exact H1|]. rewrite H2. cbn [cond_Zopp]. clear H1 H2.
  set (E0 := fexp prec emax (Zdigits2 q + e')) in *.
  assert (HE0 : E0 = Z.max (Zdigits2 q + e' - 53) (-1074)) by reflexivity.
  pose proof (located_round m' (Zpos my) (E0 - e')
                (loc_code (new_location (Zpos my) r))
                ltac:(lia) ltac:(lia) ltac:(lia)
                (new_location_located (Zpos my) r ltac:(lia) R)) as LR.
  fold q in LR. rewrite LR. clear LR.
  set (Nn := Zpos mx * 2 ^ (ex + 2148)).
  set (Dd := Zpos my * 2 ^ (ey + 1074)).
  assert (PD : 0 < Dd) by (unfold Dd; pose proof (pow2_pos (ey + 1074)); nia).
  (* the integer part of the quotient in units of 2^-1074 *)
  assert (EE : Edig Nn Dd = E0 + 1074).
  { unfold Edig.
    destruct (Z_le_gt_dec 0 (e' + 1074)) as [T|T].
    - assert (X : Nn / Dd = m' * 2 ^ (e' + 1074) / Zpos my).
      { apply div_ext; try lia. unfold Nn, Dd, m'.
        transitivity (Zpos mx * Zpos my * (2 ^ (ex + 2148))); [lia|].
        transitivity (Zpos mx * Zpos my * (2 ^ s * 2 ^ (e' + 1074) * 2 ^ (ey + 1074)));
          [|lia].
        f_equal. rewrite <- !pow2_split by lia. f_equal. unfold s. lia. }
      rewrite X. destruct (Z.eq_dec q 0) as [Q0|Q0].
      + assert (e' + 1074 = 0).
        { rewrite Q0 in *. cbn [Zdigits2] in *. lia. }
        replace (e' + 1074) with 0 by lia. change (2 ^ 0) with 1.
        rewrite Z.mul_1_r. fold q. rewrite Q0 in *. cbn [Zdigits2] in *. lia.
      + rewrite Zdigits2_mul_pow_div by (fold q; lia). fold q. lia.
    - assert (X : Nn / Dd = q / 2 ^ (- (e' + 1074))).
      { unfold q. rewrite Z.div_div by (try apply pow2_pos; lia).
        apply div_ext;
          [lia|apply Z.mul_pos_pos; [lia|apply pow2_pos; lia]|].
        unfold Nn, Dd, m'.
        transitivity (Zpos mx * Zpos my
                      * (2 ^ (ex + 2148) * 2 ^ (- (e' + 1074)))); [lia|].
        transitivity (Zpos mx * Zpos my * (2 ^ s * 2 ^ (ey + 1074))); [|lia].
        f_equal. rewrite <- !pow2_split by lia. f_equal. unfold s. lia. }
      rewrite X, Zdigits2_div_pow by lia. lia. }
  unfold RV. rewrite EE. f_equal. f_equal.
  apply RNEq_ext.
  - pose proof (pow2_pos (E0 - e')). lia.
  - pose proof (pow2_pos (E0 + 1074)). nia.
  - unfold Nn, Dd, m'.
    transitivity (Zpos mx * Zpos my * (2 ^ s * 2 ^ (ey + 1074) * 2 ^ (E0 + 1074)));
      [lia|].
    transitivity (Zpos mx * Zpos my * (2 ^ (ex + 2148) * 2 ^ (E0 - e')));
      [|lia].
    f_equal. rewrite <- !pow2_split by lia. f_equal. unfold s. lia.
Qed.


Local Close Scope Z_scope.

(** ** Monotonicity in the net worth *)


#[local] Hint Rewrite Fval_0 Fval_infinity Fval_neg_infinity
  nanZ_0 nanZ_infinity nanZ_neg_infinity : fconst.

Lemma positive_finite n :
  (0 <? n) = true -> (n <? infinity) = true ->
  exists m e, Prim2SF n = S754_finite false m e.
Proof.
  intros P F. apply ltb_lex in P as (_ & _ & P). apply ltb_lex in F as (N & _ & F).
  unfold nanZ, lex_lt in *. rewrite Prim2SF_0 in P.
  change (Prim2SF infinity) with (S754_infinity false) in F.
  destruct (Prim2SF n) as [s|s| |s m e]; try destruct s; cbn in *; try lia.
  now exists m, e.
Qed.

Lemma Fval_finite x s m e :
  Prim2SF x = S754_finite s m e ->
  Fval x = cond_Zopp s (Zpos m * 2 ^ (e + 1074))%Z /\ nanZ x = 0%Z.
Proof. intros H. unfold Fval, nanZ. rewrite H. split; reflexivity. Qed.

Lemma has_sign_val s x :
  has_sign s x ->
  sf_nan x = 0%Z /\ (if s then SFval x <= 0 else 0 <= SFval x)%Z.
Proof.
  pose proof BIG_pos.
  destruct x as [s'|s'| |s' m e]; cbn [has_sign sf_nan SFval]; intros H';
    subst; try tauto;
    split; try reflexivity; destruct s; cbn [cond_Zopp]; lia.
Qed.

(** Dividing by a larger positive divisor cannot lift a quotient above a
    positive bound. *)
Lemma div_le_bound a n n' c :
  (0 <? n) = true -> (n <? n') = true -> (n' <? infinity) = true ->
  (0 <? c) = true ->
  (a / n <=? c) = true -> (a / n' <=? c) = true.
Proof.
  intros Pn L F Pc H.
  assert (Pn' : (0 <? n') = true) by float_order.
  assert (Fn : (n <? infinity) = true) by float_order.
  destruct (positive_finite n Pn Fn) as (mn & en & En).
  destruct (positive_finite n' Pn' F) as (mn' & en' & En').
  pose proof (valid_finite _ _ _ _ En) as Vn.
  pose proof (valid_finite _ _ _ _ En') as Vn'.
  destruct (Fval_finite _ _ _ _ En) as [Wn _].
  destruct (Fval_finite _ _ _ _ En') as [Wn' _].
  cbn [cond_Zopp] in Wn, Wn'.
  apply ltb_true in L as (_ & _ & L). rewrite Wn, Wn' in L.
  apply ltb_true in Pc as (_ & _ & Pc). rewrite Fval_0 in Pc.
  apply leb_true in H as (Nq & Nc & H).
  apply leb_true. split; [|split; [exact Nc|]];
    unfold nanZ, Fval in Nq, H |- *;
    rewrite div_spec in *; unfold SF64div in *; rewrite En, En' in *;
    destruct (Prim2SF a) as [sa|sa| |sa ma ea] eqn:Ea;
    try (cbn in Nq; lia); try reflexivity.
  - (* finite: not NaN *)
    pose proof (SFdiv_finite_sign sa ma ea false mn' en') as S.
    apply has_sign_val in S. tauto.
  - (* zero *) cbn [SFdiv SFval]. unfold Fval in Pc. lia.
  - (* infinity *) cbn [SFdiv SFval] in *. exact H.
  - (* finite: the value *)
    destruct sa.
    + pose proof (SFdiv_finite_sign true ma ea false mn' en') as S.
      apply has_sign_val in S. cbn [xorb] in S. unfold Fval in Pc. lia.
    + pose proof (valid_finite _ _ _ _ Ea) as Va.
      destruct (SFdiv_value ma ea mn en Va Vn) as [_ V1].
      destruct (SFdiv_value ma ea mn' en' Va Vn') as [_ V2].
      rewrite V1 in H. rewrite V2.
      eapply Z.le_trans; [|exact H].
      pose proof (SFval_finite_bounds _ _ Vn).
      pose proof (SFval_finite_bounds _ _ Vn').
      pose proof (Z.pow_nonneg 2 (ea + 2148) ltac:(lia)).
      apply RV_mono; try lia.
      apply Z.mul_le_mono_nonneg_l; lia.
Qed.

Lemma finite_or_not x :
  sf_nan x = 0%Z ->
  sf_finite x \/ x = S754_infinity false \/ x = S754_infinity true.
Proof. destruct x as [s|[]| |s m e]; cbn; intros; auto; lia. Qed.

Lemma SFsub_inf_l s y :
  sf_nan (SFsub prec emax (S754_infinity s) y) = 0%Z ->
  SFsub prec emax (S754_infinity s) y = S754_infinity s.
Proof. destruct y as [sy|sy| |sy my ey], s; try destruct sy; cbn; intros; auto; lia. Qed.

Lemma SFsub_inf_r x s :
  sf_finite x ->
  SFsub prec emax x (S754_infinity s) = S754_infinity (negb s).
Proof. destruct x as [sx|sx| |sx mx ex]; cbn; intros; tauto || reflexivity. Qed.

Lemma SFsub_antitone X Y Y' :
  valid_binary X = true -> valid_binary Y = true -> valid_binary Y' = true ->
  sf_nan Y = 0%Z -> sf_nan Y' = 0%Z -> (SFval Y < SFval Y')%Z ->
  sf_nan (SFsub prec emax X Y) = 0%Z ->
  sf_nan (SFsub prec emax X Y') = 0%Z ->
  (- BIG <= SFval (SFsub prec emax X Y) <= BIG)%Z ->
  (- BIG <= SFval (SFsub prec emax X Y') <= BIG)%Z ->
  (SFval (SFsub prec emax X Y') <= SFval (SFsub prec emax X Y))%Z.
Proof.
  intros VX VY VY' NY NY' L H H' U U'. pose proof BIG_pos as BP.
  assert (NX : sf_nan X = 0%Z) by (destruct X; try reflexivity; cbn in H; lia).
  assert (RY : (- BIG <= SFval Y <= BIG)%Z).
  { destruct Y as [sy|sy| |sy my ey]; cbn [SFval]; try lia.
    - destruct sy; cbn; lia.
    - pose proof (SFval_finite_bounds _ _ VY). destruct sy; cbn [cond_Zopp]; lia. }
  assert (RY' : (- BIG <= SFval Y' <= BIG)%Z).
  { destruct Y' as [sy|sy| |sy my ey]; cbn [SFval]; try lia.
    - destruct sy; cbn; lia.
    - pose proof (SFval_finite_bounds _ _ VY'). destruct sy; cbn [cond_Zopp]; lia. }
  destruct (finite_or_not X NX) as [FX|[EX|EX]].
  - destruct (finite_or_not Y NY) as [FY|[EY|EY]];
      destruct (finite_or_not Y' NY') as [FY'|[EY'|EY']]; subst;
      cbn [SFval cond_Zopp] in L; try lia;
      rewrite ?(SFsub_inf_r X) in * by assumption; cbn [negb SFval cond_Zopp] in *;
      try lia.
    destruct (SFsub_value X Y VX VY FX FY) as [_ A].
    destruct (SFsub_value X Y' VX VY' FX FY') as [_ B].
    rewrite A, B. apply RVz_mono. lia.
  - subst X. rewrite (SFsub_inf_l _ _ H), (SFsub_inf_l _ _ H'). lia.
  - subst X. rewrite (SFsub_inf_l _ _ H), (SFsub_inf_l _ _ H'). lia.
Qed.

(** Subtracting a larger number gives a result that is not larger, when
    neither difference is NaN. *)
Lemma sub_antitone N n n' :
  (n <? n') = true ->
  is_nan (N - n) = false -> is_nan (N - n') = false ->
  (N - n' <=? N - n) = true.
Proof.
  intros L H H'.
  apply ltb_true in L as (Nn & Nn' & L).
  apply is_nan_false in H, H'. apply leb_true.
  split; [exact H'|]. split; [exact H|].
  pose proof (Fval_range (N - n)) as R. pose proof (Fval_range (N - n')) as R'.
  unfold nanZ, Fval in *. rewrite !sub_spec in *. unfold SF64sub in *.
  apply SFsub_antitone; auto using Prim2SF_valid; lia.
Qed.

Lemma ltb_nan_l x : (nan <? x) = false.
Proof. apply ltb_false. left. reflexivity. Qed.

Lemma ltb_nan_r x : (x <? nan) = false.
Proof. apply ltb_false. right. left. reflexivity. Qed.

Lemma Math_max_0_antitone y y' :
  (is_nan y = false -> is_nan y' = false -> (y' <=? y) = true) ->
  (JS.Math_max [0; y] <? JS.Math_max [0; y']) = false
  /\ (is_nan y = false -> is_nan y' = false ->
      (JS.Math_max [0; y'] <=? JS.Math_max [0; y]) = true).
Proof.
  intros H. rewrite !Math_max_0. unfold JS.NaN.
  destruct (is_nan y) eqn:Ny; [split; [apply ltb_nan_l|discriminate]|].
  destruct (is_nan y') eqn:Ny'.
  { split; [apply ltb_nan_r|discriminate]. }
  specialize (H eq_refl eq_refl).
  destruct (0 <? y) eqn:P, (0 <? y') eqn:P'; split; intros; float_order.
Qed.

Lemma Math_max_0_nan y : is_nan (JS.Math_max [0; y]) = is_nan y.
Proof.
  rewrite Math_max_0. destruct (is_nan y) eqn:N; [reflexivity|].
  destruct (0 <? y); [exact N|reflexivity].
Qed.

Lemma sub_nan_finite N n n' :
  (n <? n') = true -> (n' <? infinity) = true ->
  is_nan (N - n) = false -> is_nan (N - n') = false.
Proof.
  intros L F H.
  apply ltb_true in L as (Nn & Nn' & L). apply ltb_true in F as (_ & _ & F).
  rewrite Fval_infinity in F.
  pose proof (Fval_range n) as Rn.
  apply is_nan_false in H. apply is_nan_false.
  unfold nanZ, Fval in *. rewrite sub_spec in *. unfold SF64sub in *.
  pose proof (Prim2SF_valid N) as VN. pose proof (Prim2SF_valid n') as Vn'.
  assert (NN : sf_nan (Prim2SF N) = 0%Z).
  { destruct (Prim2SF N); try reflexivity. cbn in H. lia. }
  assert (Fn' : sf_finite (Prim2SF n')).
  { destruct (finite_or_not _ Nn') as [Fn'|[E|E]]; [exact Fn'| |];
      rewrite E in *; cbn [SFval cond_Zopp] in *; lia. }
  destruct (finite_or_not _ NN) as [FN|[E|E]].
  - now destruct (SFsub_value _ _ VN Vn' FN Fn').
  - rewrite E. destruct (Prim2SF n'); cbn in Fn' |- *; tauto || reflexivity.
  - rewrite E. destruct (Prim2SF n'); cbn in Fn' |- *; tauto || reflexivity.
Qed.

(** C7: raising [netWorth] to a larger finite value, the other inputs
    fixed, keeps a passing Rule B passing, and never raises the net-worth
    increase that Rule B asks for, [Math.max(0, afterTaxSalary / 0.10 -
    netWorth)]. *)
Theorem C7_netWorth_monotone :
  forall (i : Inputs) (netWorth' : float),
    (netWorth i <? netWorth') = true ->
    (netWorth' <? infinity) = true ->
    let i' := withNetWorth i netWorth' in
    (passRuleB i = true -> passRuleB i' = true)
    /\ (deltaNW_B i <? deltaNW_B i') = false
    /\ (is_nan (deltaNW_B i) = false -> (deltaNW_B i' <=? deltaNW_B i) = true).
Proof.
  intros i nw' L F i'.
  split; [|].
  - unfold passRuleB, salaryVsNW, i'. cbn [netWorth withNetWorth].
    change (afterTaxSalary (withNetWorth i nw')) with (afterTaxSalary i).
    unfold JS.gtb.
    destruct (0 <? netWorth i) eqn:P.
    + assert (P' : (0 <? nw') = true) by float_order. rewrite P'.
      apply div_le_bound; auto.
    + intros H. exfalso. unfold JS.Infinity, TARGET_SALARY_VS_NW in H.
      vm_compute in H. discriminate.
  - unfold deltaNW_B, i'. cbn [netWorth withNetWorth].
    change (neededNWforB (withNetWorth i nw')) with (neededNWforB i).
    pose proof (Math_max_0_antitone (neededNWforB i - netWorth i)
                  (neededNWforB i - nw')) as [A B].
    { intros. now apply sub_antitone. }
    split; [exact A|].
    rewrite Math_max_0_nan. intros H. apply B; [exact H|].
    now apply (sub_nan_finite _ (netWorth i)).
Qed.

Lemma C7_netWorth_monotone_witness :
  let i := withNetWorth example1 4000000 in
  (netWorth i <? 5000000) = true
  /\ (5000000 <? infinity) = true
  /\ passRuleB i = true
  /\ passRuleB (withNetWorth i 5000000) = true
  /\ (deltaNW_B i <? deltaNW_B (withNetWorth i 5000000)) = false.
Proof.
  intros i.
  assert (L : (netWorth i <? 5000000) = true) by reflexivity.
  assert (F : (5000000 <? infinity) = true) by reflexivity.
  assert (P : passRuleB i = true) by reflexivity.
  destruct (C7_netWorth_monotone i 5000000 L F) as (B & D & _).
  repeat split; auto.
Defined.

(** The bound on the new net worth is needed: an after-tax salary that
    overflows to -Infinity passes Rule B at any positive finite net worth
    and fails it at an infinite one, where the ratio is NaN. *)
Example netWorth_infinite_fails :
  let i := {| netWorth := 1; salary := -1e308; salaryTaxRate := -10;
              investReturn := 0.1; investTaxRate := 0.2; spend := 180000;
              sideIncome := 0; cashOnHand := 90000 |} in
  passRuleB i = true /\ passRuleB (withNetWorth i infinity) = false.
Proof. split; reflexivity. Qed.

(** ** Rounding of signed fractions *)

Local Open Scope Z_scope.

Lemma RVq_mono N1 D1 N2 D2 :
  0 < D1 -> 0 < D2 -> N1 * D2 <= N2 * D1 -> RVq N1 D1 <= RVq N2 D2.
Proof.
  intros H1 H2 L. unfold RVq.
  destruct (Z.leb_spec 0 N1), (Z.leb_spec 0 N2).
  - apply RV_mono; lia.
  - exfalso. nia.
  - pose proof (RV_nonneg (- N1) D1 ltac:(lia) H1).
    pose proof (RV_nonneg N2 D2 ltac:(lia) H2). lia.
  - apply Z.opp_le_mono. rewrite !Z.opp_involutive. apply RV_mono; lia.
Qed.

Lemma RVq_ext N1 D1 N2 D2 :
  0 < D1 -> 0 < D2 -> N1 * D2 = N2 * D1 -> RVq N1 D1 = RVq N2 D2.
Proof.
  intros. apply Z.le_antisymm; apply RVq_mono; lia.
Qed.

Lemma RVz_RVq v : RVz v = RVq v 1.
Proof. reflexivity. Qed.

Lemma RV_le_BIG N D : RV N D <= BIG.
Proof. unfold RV. apply Z.le_min_l. Qed.

Lemma RVq_range N D : 0 < D -> - BIG <= RVq N D <= BIG.
Proof.
  intros H. unfold RVq. destruct (Z.leb_spec 0 N).
  - pose proof (RV_nonneg N D ltac:(lia) H). pose proof (RV_le_BIG N D). lia.
  - pose proof (RV_nonneg (- N) D ltac:(lia) H). pose proof (RV_le_BIG (- N) D). lia.
Qed.

Lemma RVq_0 D : 0 < D -> RVq 0 D = 0.
Proof. intros. unfold RVq. cbn [Z.leb Z.compare]. now apply RV_0. Qed.

Lemma RVq_nonneg N D : 0 < D -> 0 <= N -> 0 <= RVq N D.
Proof. intros. rewrite <- (RVq_0 D) by assumption. apply RVq_mono; lia. Qed.

Lemma RVq_nonpos N D : 0 < D -> N <= 0 -> RVq N D <= 0.
Proof. intros. rewrite <- (RVq_0 D) by assumption. apply RVq_mono; lia. Qed.

Lemma RVz_1 : RVz 1 = 1.
Proof. vm_compute. reflexivity. Qed.

Lemma RVz_pos v : 0 < v -> 0 < RVz v.
Proof.
  intros. pose proof (RVz_mono 1 v ltac:(lia)). rewrite RVz_1 in *. lia.
Qed.

Lemma RVz_neg v : v < 0 -> RVz v < 0.
Proof.
  intros H. unfold RVz. destruct (Z.leb_spec 0 v); [lia|].
  pose proof (RVz_pos (- v) ltac:(lia)) as P. unfold RVz in P.
  destruct (Z.leb_spec 0 (- v)); lia.
Qed.

Lemma RVz_range v : - BIG <= RVz v <= BIG.
Proof. rewrite RVz_RVq. apply RVq_range. lia. Qed.

(** The sum of two finite numbers is their exact sum, rounded. *)
Lemma SFadd_value x y :
  valid_binary x = true -> valid_binary y = true ->
  sf_finite x -> sf_finite y ->
  sf_nan (SFadd prec emax x y) = 0
  /\ SFval (SFadd prec emax x y) = RVz (SFval x + SFval y).
Proof.
  intros Vx Vy Fx Fy.
  destruct x as [sx|sx| |sx mx ex], y as [sy|sy| |sy my ey];
    cbn in Fx, Fy; try tauto; cbn [valid_binary] in Vx, Vy.
  - destruct sx, sy; split; vm_compute; reflexivity.
  - cbn [SFadd]. split; [reflexivity|].
    replace (SFval (S754_zero sx) + SFval (S754_finite sy my ey))
      with (SFval (S754_finite sy my ey)) by (cbn [SFval]; lia).
    now rewrite RVz_representable.
  - cbn [SFadd]. split; [reflexivity|].
    replace (SFval (S754_finite sx mx ex) + SFval (S754_zero sy))
      with (SFval (S754_finite sx mx ex)) by (cbn [SFval]; lia).
    now rewrite RVz_representable.
  - cbn [SFadd].
    pose proof (bounded_spec _ _ Vx) as (Rx & _).
    pose proof (bounded_spec _ _ Vy) as (Ry & _).
    destruct (binary_normalize_value
                (aligned sx mx ex (Z.min ex ey) + aligned sy my ey (Z.min ex ey))
                (Z.min ex ey) ltac:(lia)) as [H1 H2].
    unfold aligned in H1, H2.
    split; [exact H1|]. rewrite H2. f_equal.
    rewrite (SFval_aligned sx mx ex (Z.min ex ey)) by lia.
    rewrite (SFval_aligned sy my ey (Z.min ex ey)) by lia. unfold aligned. lia.
Qed.

(** The sign of a rounded result is the one asked for. *)
Lemma binary_round_aux_opp m e l :
  binary_round_aux prec emax true m e l
  = SFopp (binary_round_aux prec emax false m e l).
Proof.
  unfold binary_round_aux.
  destruct (shr_fexp prec emax m e l) as [mrs' e'].
  destruct (shr_fexp prec emax _ e' loc_Exact) as [mrs'' e''].
  destruct (shr_m mrs''); try reflexivity.
  destruct (e'' <=? emax - prec); reflexivity.
Qed.

Lemma SFval_opp x : SFval (SFopp x) = - SFval x.
Proof.
  destruct x as [s|s| |s m e]; cbn [SFopp SFval]; try lia;
    destruct s; cbn [negb cond_Zopp]; lia.
Qed.

Lemma sf_nan_opp x : sf_nan (SFopp x) = sf_nan x.
Proof. destruct x; reflexivity. Qed.

Lemma UNIT_pos : 0 < UNIT.
Proof. reflexivity. Qed.

Lemma pow2_UNIT k : 0 <= k -> 2 ^ (k + 1074) = 2 ^ k * UNIT.
Proof. intros. unfold UNIT. apply pow2_split; lia. Qed.

(** The product of two finite numbers is their exact product, rounded. *)
Lemma SFmul_finite_value s mx ex my ey :
  bounded prec emax mx ex = true -> bounded prec emax my ey = true ->
  sf_nan (binary_round_aux prec emax s (Zpos (mx * my)) (ex + ey) loc_Exact) = 0
  /\ SFval (binary_round_aux prec emax s (Zpos (mx * my)) (ex + ey) loc_Exact)
     = cond_Zopp s
         (RV (Zpos mx * 2 ^ (ex + 1074) * (Zpos my * 2 ^ (ey + 1074))) UNIT).
Proof.
  intros Bx By.
  pose proof (bounded_spec _ _ Bx) as (Rx & Dx & Nx).
  pose proof (bounded_spec _ _ By) as (Ry & Dy & Ny).
  pose proof (digits2_bounds mx) as [Lx Ux].
  pose proof (digits2_bounds my) as [Ly Uy].
  rewrite Pos2Z.inj_mul.
  set (q := Zpos mx * Zpos my). set (e := ex + ey).
  assert (Hq : 0 < q) by (unfold q; lia).
  pose proof (Zdigits2_bounds q Hq) as [[Lq Uq] Dq].
  set (d := Zdigits2 q) in *.
  assert (N : 0 <= fexp prec emax (d + e) - e).
  { rewrite fexp_spec. destruct (Z_le_gt_dec e (-1074)); [lia|].
    assert (53 <= d); [|lia].
    apply Zdigits2_ge; [lia|]. change (53 - 1) with 52.
    destruct (Z_le_gt_dec ex (-1074)).
    - rewrite Ny in Ly by (unfold e in *; lia). change (53 - 1) with 52 in Ly.
      unfold q. nia.
    - rewrite Nx in Lx by lia. change (53 - 1) with 52 in Lx. unfold q. nia. }
  destruct (binary_round_aux_value s q e loc_Exact ltac:(lia) N) as [H1 H2].
  split; [exact H1|]. rewrite H2. f_equal. clear H1 H2. fold d.
  set (F := fexp prec emax (d + e)) in *.
  assert (HF : F = Z.max (d + e - 53) (-1074)) by reflexivity.
  cbn [loc_code]. rewrite Z.add_0_r.
  pose proof (located_round q 1 (F - e) 0 ltac:(lia) ltac:(lia) ltac:(lia)) as LR.
  rewrite Z.div_1_r, Z.add_0_r in LR. rewrite LR.
  2:{ left. rewrite Z.mod_1_r. lia. }
  clear LR.
  set (Nn := Zpos mx * 2 ^ (ex + 1074) * (Zpos my * 2 ^ (ey + 1074))).
  assert (HN : Nn = q * 2 ^ (e + 2148)).
  { unfold Nn, q, e. replace (ex + ey + 2148) with ((ex + 1074) + (ey + 1074)) by lia.
    rewrite (pow2_split (ex + 1074) (ey + 1074)) by lia.
    generalize (2 ^ (ex + 1074)) (2 ^ (ey + 1074)). intros. ring. }
  pose proof UNIT_pos as PU.
  assert (EE : Edig Nn UNIT = F + 1074).
  { unfold Edig. rewrite HN.
    destruct (Z_le_gt_dec 0 (e + 1074)) as [T|T].
    - replace (e + 2148) with ((e + 1074) + 1074) by lia.
      rewrite pow2_UNIT by lia. rewrite Z.mul_assoc, Z.div_mul by lia.
      rewrite Zdigits2_shift by lia. fold d. lia.
    - assert (X : q * 2 ^ (e + 2148) / UNIT = q / 2 ^ (- (e + 1074))).
      { apply div_ext; [lia|apply pow2_pos; lia|].
        rewrite <- Z.mul_assoc, <- pow2_split by (unfold e; lia).
        replace (e + 2148 + - (e + 1074)) with (0 + 1074) by lia.
        rewrite pow2_UNIT by lia. lia. }
      rewrite X, Zdigits2_div_pow by lia. fold d. lia. }
  unfold RV. rewrite EE. f_equal. f_equal.
  apply RNEq_ext.
  - pose proof (pow2_pos (F - e)). lia.
  - pose proof (pow2_pos (F + 1074)). nia.
  - rewrite HN. rewrite Z.mul_1_l.
    transitivity (q * (2 ^ (F + 1074) * UNIT)); [lia|].
    transitivity (q * (2 ^ (e + 2148) * 2 ^ (F - e))); [|lia].
    f_equal. rewrite <- pow2_UNIT, <- pow2_split by (unfold e; lia).
    f_equal. lia.
Qed.

Lemma cond_Zopp_RV s N D :
  0 < N -> 0 < D -> cond_Zopp s (RV N D) = RVq (cond_Zopp s N) D.
Proof.
  intros HN HD. unfold RVq. destruct s; cbn [cond_Zopp].
  - destruct (Z.leb_spec 0 (- N)); [lia|]. rewrite Z.opp_involutive. reflexivity.
  - destruct (Z.leb_spec 0 N); [reflexivity|lia].
Qed.

Lemma SFmul_value x y :
  valid_binary x = true -> valid_binary y = true ->
  sf_finite x -> sf_finite y ->
  sf_nan (SFmul prec emax x y) = 0
  /\ SFval (SFmul prec emax x y) = RVq (SFval x * SFval y) UNIT.
Proof.
  intros Vx Vy Fx Fy. pose proof UNIT_pos as PU.
  destruct x as [sx|sx| |sx mx ex], y as [sy|sy| |sy my ey];
    cbn in Fx, Fy; try tauto; cbn [valid_binary] in Vx, Vy;
    try (cbn [SFmul SFval sf_nan]; rewrite ?Z.mul_0_l, ?Z.mul_0_r, RVq_0 by lia;
         split; reflexivity).
  cbn [SFmul].
  destruct (SFmul_finite_value (xorb sx sy) mx ex my ey Vx Vy) as [H1 H2].
  split; [exact H1|]. rewrite H2.
  pose proof (SFval_finite_bounds _ _ Vx). pose proof (SFval_finite_bounds _ _ Vy).
  rewrite cond_Zopp_RV by nia. f_equal.
  cbn [SFval]. destruct sx, sy; cbn [xorb cond_Zopp]; lia.
Qed.

(** The quotient of a finite number by a positive finite one is their
    exact quotient, rounded. *)
Lemma SFdiv_pos_value x my ey :
  valid_binary x = true -> bounded prec emax my ey = true ->
  sf_finite x ->
  sf_nan (SFdiv prec emax x (S754_finite false my ey)) = 0
  /\ SFval (SFdiv prec emax x (S754_finite false my ey))
     = RVq (SFval x * UNIT) (Zpos my * 2 ^ (ey + 1074)).
Proof.
  intros Vx By Fx. pose proof UNIT_pos as PU.
  pose proof (SFval_finite_bounds _ _ By) as PD.
  destruct x as [sx|sx| |sx mx ex]; cbn in Fx; try tauto; cbn [valid_binary] in Vx.
  - cbn [SFdiv SFval sf_nan]. rewrite Z.mul_0_l, RVq_0 by lia. split; reflexivity.
  - destruct (SFdiv_value mx ex my ey Vx By) as [H1 H2].
    pose proof (bounded_spec _ _ Vx) as (Rx & _).
    pose proof (SFval_finite_bounds _ _ Vx) as PX.
    assert (E : Zpos mx * 2 ^ (ex + 2148) = Zpos mx * 2 ^ (ex + 1074) * UNIT).
    { replace (ex + 2148) with ((ex + 1074) + 1074) by lia.
      rewrite pow2_UNIT by lia. lia. }
    rewrite E in H2.
    destruct sx.
    + assert (X : SFdiv prec emax (S754_finite true mx ex) (S754_finite false my ey)
                  = SFopp (SFdiv prec emax (S754_finite false mx ex)
                                 (S754_finite false my ey))).
      { cbn [SFdiv xorb].
        destruct (SFdiv_core_binary prec emax (Zpos mx) ex (Zpos my) ey) as [[mz ez] lz].
        apply binary_round_aux_opp. }
      rewrite X, sf_nan_opp, SFval_opp, H2. split; [exact H1|].
      cbn [SFval cond_Zopp]. unfold RVq.
      destruct (Z.leb_spec 0 (- (Zpos mx * 2 ^ (ex + 1074)) * UNIT)); [nia|].
      do 2 f_equal. lia.
    + split; [exact H1|]. rewrite H2. cbn [SFval cond_Zopp]. unfold RVq.
      destruct (Z.leb_spec 0 (Zpos mx * 2 ^ (ex + 1074) * UNIT)); [reflexivity|nia].
Qed.

Local Close Scope Z_scope.

(** ** The four operations on values *)

Local Open Scope Z_scope.

Lemma sf_finite_range X :
  valid_binary X = true -> sf_finite X -> - BIG < SFval X < BIG.
Proof.
  pose proof BIG_pos.
  destruct X as [s|s| |s m e]; cbn [sf_finite SFval valid_binary]; try tauto; try lia.
  intros V _. pose proof (SFval_finite_bounds _ _ V). destruct s; cbn [cond_Zopp]; lia.
Qed.

Lemma sf_nan_range X : 0 <= sf_nan X <= 1.
Proof. destruct X; cbn; lia. Qed.

Lemma sf_nan_val X : sf_nan X = 1 -> SFval X = 0.
Proof. destruct X; cbn; intros; lia || reflexivity. Qed.

Ltac sf_split X Y :=
  destruct X as [?sx|[]| |?sx ?mx ?ex], Y as [?sy|[]| |?sy ?my ?ey].

Ltac sf_ranges :=
  repeat match goal with
  | V : valid_binary (S754_finite ?s ?m ?e) = true |- _ =>
      lazymatch goal with
      | _ : - BIG < SFval (S754_finite s m e) < BIG |- _ => fail
      | _ => pose proof (sf_finite_range _ V I);
             pose proof (SFval_finite_bounds m e V)
      end
  end.

Lemma SFadd_nan X Y :
  valid_binary X = true -> valid_binary Y = true ->
  sf_nan (SFadd prec emax X Y) = 1
  <-> sf_nan X = 1 \/ sf_nan Y = 1
      \/ (SFval X = BIG /\ SFval Y = - BIG) \/ (SFval X = - BIG /\ SFval Y = BIG).
Proof.
  intros VX VY. pose proof BIG_pos.
  sf_split X Y; sf_ranges;
    first [ match goal with
            | |- context [SFadd _ _ ?A ?B] =>
                destruct (SFadd_value A B VX VY I I) as [E _]; rewrite E
            end; cbn [sf_nan SFval] in *; lia
          | cbn [SFadd sf_nan SFval cond_Zopp Bool.eqb] in *; lia ].
Qed.

Lemma SFadd_val X Y :
  valid_binary X = true -> valid_binary Y = true ->
  sf_nan (SFadd prec emax X Y) = 0 ->
  (is_inf (SFval X) -> SFval (SFadd prec emax X Y) = SFval X)
  /\ (is_fin (SFval X) -> is_inf (SFval Y) -> SFval (SFadd prec emax X Y) = SFval Y)
  /\ (is_fin (SFval X) -> is_fin (SFval Y) ->
      SFval (SFadd prec emax X Y) = RVz (SFval X + SFval Y)).
Proof.
  intros VX VY. pose proof BIG_pos. unfold is_inf, is_fin.
  sf_split X Y; sf_ranges;
    first [ match goal with
            | |- context [SFadd _ _ ?A ?B] =>
                destruct (SFadd_value A B VX VY I I) as [_ E]; rewrite E
            end; cbn [sf_nan SFval] in *; intros ?; (split; [|split]); intros; lia
          | cbn [SFadd sf_nan SFval cond_Zopp Bool.eqb] in *;
            intros ?; (split; [|split]); intros; lia ].
Qed.

Lemma SFsub_nan X Y :
  valid_binary X = true -> valid_binary Y = true ->
  sf_nan (SFsub prec emax X Y) = 1
  <-> sf_nan X = 1 \/ sf_nan Y = 1
      \/ (SFval X = BIG /\ SFval Y = BIG) \/ (SFval X = - BIG /\ SFval Y = - BIG).
Proof.
  intros VX VY. pose proof BIG_pos.
  sf_split X Y; sf_ranges;
    first [ match goal with
            | |- context [SFsub _ _ ?A ?B] =>
                destruct (SFsub_value A B VX VY I I) as [E _]; rewrite E
            end; cbn [sf_nan SFval] in *; lia
          | cbn [SFsub sf_nan SFval cond_Zopp Bool.eqb negb] in *; lia ].
Qed.

Lemma SFsub_val X Y :
  valid_binary X = true -> valid_binary Y = true ->
  sf_nan (SFsub prec emax X Y) = 0 ->
  (is_inf (SFval X) -> SFval (SFsub prec emax X Y) = SFval X)
  /\ (is_fin (SFval X) -> is_inf (SFval Y) -> SFval (SFsub prec emax X Y) = - SFval Y)
  /\ (is_fin (SFval X) -> is_fin (SFval Y) ->
      SFval (SFsub prec emax X Y) = RVz (SFval X - SFval Y)).
Proof.
  intros VX VY. pose proof BIG_pos. unfold is_inf, is_fin.
  sf_split X Y; sf_ranges;
    first [ match goal with
            | |- context [SFsub _ _ ?A ?B] =>
                destruct (SFsub_value A B VX VY I I) as [_ E]; rewrite E
            end; cbn [sf_nan SFval] in *; intros ?; (split; [|split]); intros; lia
          | cbn [SFsub sf_nan SFval cond_Zopp Bool.eqb negb] in *;
            intros ?; (split; [|split]); intros; lia ].
Qed.

Lemma SFmul_nan X Y :
  valid_binary X = true -> valid_binary Y = true ->
  sf_nan (SFmul prec emax X Y) = 1
  <-> sf_nan X = 1 \/ sf_nan Y = 1
      \/ (is_inf (SFval X) /\ SFval Y = 0) \/ (SFval X = 0 /\ is_inf (SFval Y)).
Proof.
  intros VX VY. pose proof BIG_pos. unfold is_inf.
  sf_split X Y; sf_ranges;
    first [ match goal with
            | |- context [SFmul _ _ ?A ?B] =>
                destruct (SFmul_value A B VX VY I I) as [E _]; rewrite E
            end; cbn [sf_nan SFval] in *; lia
          | try destruct sx; try destruct sy;
            cbn [SFmul sf_nan SFval cond_Zopp xorb] in *; lia ].
Qed.

Lemma SFmul_val X Y :
  valid_binary X = true -> valid_binary Y = true ->
  sf_nan (SFmul prec emax X Y) = 0 ->
  (is_inf (SFval X) \/ is_inf (SFval Y) ->
   SFval (SFmul prec emax X Y) = Z.sgn (SFval X) * Z.sgn (SFval Y) * BIG)
  /\ (is_fin (SFval X) -> is_fin (SFval Y) ->
      SFval (SFmul prec emax X Y) = RVq (SFval X * SFval Y) UNIT).
Proof.
  intros VX VY. pose proof BIG_pos. unfold is_inf, is_fin.
  sf_split X Y; sf_ranges;
    first [ match goal with
            | |- context [SFmul _ _ ?A ?B] =>
                destruct (SFmul_value A B VX VY I I) as [_ E]; rewrite E
            end; cbn [sf_nan SFval] in *; intros ?; split; intros; lia
          | try destruct sx; try destruct sy;
            cbn [SFmul sf_nan SFval cond_Zopp xorb] in *;
            intros ?; split; intros; lia ].
Qed.

Lemma SFdiv_nan X Y :
  valid_binary X = true -> valid_binary Y = true -> 0 < SFval Y ->
  sf_nan (SFdiv prec emax X Y) = 1
  <-> sf_nan X = 1 \/ (is_inf (SFval X) /\ SFval Y = BIG).
Proof.
  intros VX VY. pose proof BIG_pos. unfold is_inf.
  sf_split X Y; sf_ranges; try (cbn [SFval cond_Zopp]; lia);
    try (destruct sy; [cbn [SFval cond_Zopp] in *; lia|]);
    first [ match goal with
            | |- context [SFdiv _ _ ?A (S754_finite false ?m ?e)] =>
                destruct (SFdiv_pos_value A m e VX VY I) as [E _]; rewrite E
            end; cbn [sf_nan SFval] in *; lia
          | try destruct sx;
            cbn [SFdiv sf_nan SFval cond_Zopp xorb] in *; lia ].
Qed.

Lemma SFdiv_val X Y :
  valid_binary X = true -> valid_binary Y = true -> 0 < SFval Y ->
  sf_nan (SFdiv prec emax X Y) = 0 ->
  (is_inf (SFval X) -> SFval (SFdiv prec emax X Y) = SFval X)
  /\ (is_fin (SFval X) -> SFval Y = BIG -> SFval (SFdiv prec emax X Y) = 0)
  /\ (is_fin (SFval X) -> is_fin (SFval Y) ->
      SFval (SFdiv prec emax X Y) = RVq (SFval X * UNIT) (SFval Y)).
Proof.
  intros VX VY. pose proof BIG_pos. unfold is_inf, is_fin.
  sf_split X Y; sf_ranges; try (cbn [SFval cond_Zopp]; lia);
    try (destruct sy; [cbn [SFval cond_Zopp] in *; lia|]);
    first [ match goal with
            | |- context [SFdiv _ _ ?A (S754_finite false ?m ?e)] =>
                destruct (SFdiv_pos_value A m e VX VY I) as [_ E]; rewrite E
            end; cbn [sf_nan SFval cond_Zopp] in *; intros ?; (split; [|split]); intros; lia
          | try destruct sx;
            cbn [SFdiv sf_nan SFval cond_Zopp xorb] in *;
            intros ?; (split; [|split]); intros; lia ].
Qed.

Local Close Scope Z_scope.

(** *** The four operations on values *)

Lemma add_nanZ x y :
  (nanZ (x + y) = 1
   <-> nanZ x = 1 \/ nanZ y = 1
       \/ (Fval x = BIG /\ Fval y = - BIG) \/ (Fval x = - BIG /\ Fval y = BIG))%Z.
Proof.
  unfold nanZ, Fval. rewrite add_spec. apply SFadd_nan; apply Prim2SF_valid.
Qed.

Lemma add_val x y :
  nanZ (x + y) = 0%Z ->
  (is_inf (Fval x) -> Fval (x + y) = Fval x)
  /\ (is_fin (Fval x) -> is_inf (Fval y) -> Fval (x + y) = Fval y)
  /\ (is_fin (Fval x) -> is_fin (Fval y) ->
      Fval (x + y) = RVz (Fval x + Fval y)).
Proof.
  unfold nanZ, Fval. rewrite add_spec. apply SFadd_val; apply Prim2SF_valid.
Qed.

Lemma sub_nanZ x y :
  (nanZ (x - y) = 1
   <-> nanZ x = 1 \/ nanZ y = 1
       \/ (Fval x = BIG /\ Fval y = BIG) \/ (Fval x = - BIG /\ Fval y = - BIG))%Z.
Proof.
  unfold nanZ, Fval. rewrite sub_spec. apply SFsub_nan; apply Prim2SF_valid.
Qed.

Lemma sub_val x y :
  nanZ (x - y) = 0%Z ->
  (is_inf (Fval x) -> Fval (x - y) = Fval x)
  /\ (is_fin (Fval x) -> is_inf (Fval y) -> Fval (x - y) = (- Fval y)%Z)
  /\ (is_fin (Fval x) -> is_fin (Fval y) ->
      Fval (x - y) = RVz (Fval x - Fval y)).
Proof.
  unfold nanZ, Fval. rewrite sub_spec. apply SFsub_val; apply Prim2SF_valid.
Qed.

Lemma mul_nanZ x y :
  (nanZ (x * y) = 1
   <-> nanZ x = 1 \/ nanZ y = 1
       \/ (is_inf (Fval x) /\ Fval y = 0) \/ (Fval x = 0 /\ is_inf (Fval y)))%Z.
Proof.
  unfold nanZ, Fval. rewrite mul_spec. apply SFmul_nan; apply Prim2SF_valid.
Qed.

Lemma mul_val x y :
  nanZ (x * y) = 0%Z ->
  (is_inf (Fval x) \/ is_inf (Fval y) ->
   ((0 < Fval x /\ 0 < Fval y) \/ (Fval x < 0 /\ Fval y < 0) ->
    Fval (x * y) = BIG)
   /\ ((0 < Fval x /\ Fval y < 0) \/ (Fval x < 0 /\ 0 < Fval y) ->
       Fval (x * y) = - BIG))%Z
  /\ (is_fin (Fval x) -> is_fin (Fval y) ->
      Fval (x * y) = RVq (Fval x * Fval y) UNIT).
Proof.
  unfold nanZ, Fval. rewrite mul_spec. unfold SF64mul. intros H.
  destruct (SFmul_val _ _ (Prim2SF_valid x) (Prim2SF_valid y) H) as [A B].
  split; [|exact B]. intros I. specialize (A I).
  split; intros C; rewrite A;
    destruct (Z.sgn_spec (SFval (Prim2SF x))) as [[? ->]|[[? ->]|[? ->]]];
    destruct (Z.sgn_spec (SFval (Prim2SF y))) as [[? ->]|[[? ->]|[? ->]]];
    lia.
Qed.

Lemma div_nanZ x y :
  (0 < Fval y ->
   nanZ (x / y) = 1 <-> nanZ x = 1 \/ (is_inf (Fval x) /\ Fval y = BIG))%Z.
Proof.
  unfold nanZ, Fval. rewrite div_spec. apply SFdiv_nan; apply Prim2SF_valid.
Qed.

Lemma div_val x y :
  (0 < Fval y)%Z -> nanZ (x / y) = 0%Z ->
  (is_inf (Fval x) -> Fval (x / y) = Fval x)
  /\ (is_fin (Fval x) -> Fval y = BIG -> Fval (x / y) = 0%Z)
  /\ (is_fin (Fval x) -> is_fin (Fval y) ->
      Fval (x / y) = RVq (Fval x * UNIT) (Fval y)).
Proof.
  unfold nanZ, Fval. rewrite div_spec. apply SFdiv_val; apply Prim2SF_valid.
Qed.

Lemma nan_Fval x : nanZ x = 1%Z -> Fval x = 0%Z.
Proof. apply sf_nan_val. Qed.

Lemma Fval_cases x : is_inf (Fval x) \/ is_fin (Fval x).
Proof. pose proof (Fval_range x). unfold is_inf, is_fin. lia. Qed.

(** *** Monotonicity of the operations, on values *)

Ltac ranges :=
  repeat match goal with
  | |- context [Fval ?t] =>
      lazymatch goal with
      | _ : ranged t |- _ => fail
      | _ => pose proof (float_range t)
      end
  | H : context [Fval ?t] |- _ =>
      lazymatch goal with
      | _ : ranged t |- _ => fail
      | _ => pose proof (float_range t)
      end
  end; unfold ranged in *; pose proof BIG_pos.

(** Split on a value being +Infinity, -Infinity or finite. *)
Ltac val_cases x :=
  let H := fresh "K" in
  pose proof (Fval_cases x) as H; unfold is_inf, is_fin in H;
  destruct H as [[H|H]|H].

Ltac prem :=
  unfold is_inf, is_fin;
  solve [ assumption | left; assumption | right; assumption
        | left; left; assumption | left; right; assumption
        | right; left; assumption | right; right; assumption ].

(** Use the implications whose premise holds, drop the others. *)
Ltac spec_all :=
  repeat match goal with
  | H : ?P -> _ |- _ =>
      first [ let p := fresh in
              assert (p : P) by prem;
              specialize (H p); clear p
            | clear H ]
  end.

(** From [~ (A /\ B)] and one of the two, the negation of the other. *)
Ltac use_not :=
  repeat match goal with
  | H : ~ (?A /\ ?B) |- _ =>
      first [ assert (~ B) by (let E := fresh in intros E; apply H; split; [prem|exact E])
            | assert (~ A) by (let E := fresh in intros E; apply H; split; [exact E|prem])
            | idtac ];
      clear H
  end.

(** Split the conjunctions and use the implications that [lia] can. *)
Ltac spec_lia :=
  repeat match goal with H : _ /\ _ |- _ => destruct H end;
  repeat match goal with
  | H : ?P -> _ |- _ => first [ specialize (H ltac:(lia)) | clear H ]
  end.

Ltac nan_facts H :=
  let T := type of H in
  match T with
  | nanZ (?x + ?y) = 0%Z =>
      let N := fresh "N" in
      pose proof (proj2 (add_nanZ x y)) as N
  | nanZ (?x - ?y) = 0%Z =>
      let N := fresh "N" in
      pose proof (proj2 (sub_nanZ x y)) as N
  | nanZ (?x * ?y) = 0%Z =>
      let N := fresh "N" in
      pose proof (proj2 (mul_nanZ x y)) as N
  end.

Lemma add_ok x y :
  nanZ (x + y) = 0%Z ->
  (nanZ x = 0 /\ nanZ y = 0
   /\ ~ (Fval x = BIG /\ Fval y = - BIG) /\ ~ (Fval x = - BIG /\ Fval y = BIG))%Z.
Proof.
  intros H. pose proof (proj2 (add_nanZ x y)) as N.
  pose proof (nanZ_range x). pose proof (nanZ_range y).
  repeat split; try (intros C); try (assert (nanZ (x + y) = 1%Z) by (apply N; tauto); lia).
  - destruct (Z.eq_dec (nanZ x) 0); [assumption|].
    assert (nanZ (x + y) = 1%Z) by (apply N; left; lia). lia.
  - destruct (Z.eq_dec (nanZ y) 0); [assumption|].
    assert (nanZ (x + y) = 1%Z) by (apply N; right; left; lia). lia.
Qed.

Lemma sub_ok x y :
  nanZ (x - y) = 0%Z ->
  (nanZ x = 0 /\ nanZ y = 0
   /\ ~ (Fval x = BIG /\ Fval y = BIG) /\ ~ (Fval x = - BIG /\ Fval y = - BIG))%Z.
Proof.
  intros H. pose proof (proj2 (sub_nanZ x y)) as N.
  pose proof (nanZ_range x). pose proof (nanZ_range y).
  repeat split; try (intros C); try (assert (nanZ (x - y) = 1%Z) by (apply N; tauto); lia).
  - destruct (Z.eq_dec (nanZ x) 0); [assumption|].
    assert (nanZ (x - y) = 1%Z) by (apply N; left; lia). lia.
  - destruct (Z.eq_dec (nanZ y) 0); [assumption|].
    assert (nanZ (x - y) = 1%Z) by (apply N; right; left; lia). lia.
Qed.

Lemma mul_ok x y :
  nanZ (x * y) = 0%Z ->
  (nanZ x = 0 /\ nanZ y = 0
   /\ ~ (is_inf (Fval x) /\ Fval y = 0) /\ ~ (Fval x = 0 /\ is_inf (Fval y)))%Z.
Proof.
  intros H. pose proof (proj2 (mul_nanZ x y)) as N.
  pose proof (nanZ_range x). pose proof (nanZ_range y).
  repeat split; try (intros C); try (assert (nanZ (x * y) = 1%Z) by (apply N; tauto); lia).
  - destruct (Z.eq_dec (nanZ x) 0); [assumption|].
    assert (nanZ (x * y) = 1%Z) by (apply N; left; lia). lia.
  - destruct (Z.eq_dec (nanZ y) 0); [assumption|].
    assert (nanZ (x * y) = 1%Z) by (apply N; right; left; lia). lia.
Qed.

Lemma div_ok x y :
  (0 < Fval y)%Z -> nanZ (x / y) = 0%Z ->
  (nanZ x = 0 /\ ~ (is_inf (Fval x) /\ Fval y = BIG))%Z.
Proof.
  intros P H. pose proof (proj2 (div_nanZ x y P)) as N.
  pose proof (nanZ_range x).
  split; try (intros C); try (assert (nanZ (x / y) = 1%Z) by (apply N; tauto); lia).
  destruct (Z.eq_dec (nanZ x) 0); [assumption|].
  assert (nanZ (x / y) = 1%Z) by (apply N; left; lia). lia.
Qed.

Lemma add_mono_Z x x' y y' :
  nanZ (x + y) = 0%Z -> nanZ (x' + y') = 0%Z ->
  (Fval x <= Fval x' -> Fval y <= Fval y' -> Fval (x + y) <= Fval (x' + y'))%Z.
Proof.
  intros H H' Lx Ly.
  pose proof (add_ok x y H) as (_ & _ & O1 & O2).
  pose proof (add_ok x' y' H') as (_ & _ & O3 & O4).
  pose proof (add_val x y H) as (A1 & A2 & A3).
  pose proof (add_val x' y' H') as (B1 & B2 & B3).
  pose proof (RVz_mono (Fval x + Fval y) (Fval x' + Fval y')) as M.
  pose proof (RVz_range (Fval x + Fval y)).
  pose proof (RVz_range (Fval x' + Fval y')).
  pose proof BIG_pos.
  val_cases x; val_cases x'; try lia; val_cases y; try lia; val_cases y'; try lia;
    try (specialize (M ltac:(lia))); spec_all; lia.
Qed.

Lemma sub_mono_Z x x' y y' :
  nanZ (x - y) = 0%Z -> nanZ (x' - y') = 0%Z ->
  (Fval x <= Fval x' -> Fval y' <= Fval y -> Fval (x - y) <= Fval (x' - y'))%Z.
Proof.
  intros H H' Lx Ly.
  pose proof (sub_ok x y H) as (_ & _ & O1 & O2).
  pose proof (sub_ok x' y' H') as (_ & _ & O3 & O4).
  pose proof (sub_val x y H) as (A1 & A2 & A3).
  pose proof (sub_val x' y' H') as (B1 & B2 & B3).
  pose proof (RVz_mono (Fval x - Fval y) (Fval x' - Fval y')) as M.
  pose proof (RVz_range (Fval x - Fval y)).
  pose proof (RVz_range (Fval x' - Fval y')).
  pose proof BIG_pos.
  val_cases x; val_cases x'; try lia; val_cases y; try lia; val_cases y'; try lia;
    try (specialize (M ltac:(lia))); spec_all; lia.
Qed.

(** A difference has the sign of the comparison of its operands. *)
Lemma sub_sign_Z x y :
  nanZ (x - y) = 0%Z ->
  ((Fval y < Fval x -> 0 < Fval (x - y))
   /\ (Fval x < Fval y -> Fval (x - y) < 0)
   /\ (Fval x = Fval y -> Fval (x - y) = 0))%Z.
Proof.
  intros H.
  pose proof (sub_ok x y H) as (_ & _ & O1 & O2).
  pose proof (sub_val x y H) as (A1 & A2 & A3).
  pose proof (RVz_pos (Fval x - Fval y)) as P1.
  pose proof (RVz_neg (Fval x - Fval y)) as P2.
  pose proof RVz_0 as P3. pose proof BIG_pos.
  repeat split; intros C; val_cases x; val_cases y; try lia;
    try (specialize (P1 ltac:(lia))); try (specialize (P2 ltac:(lia)));
    spec_all; try lia.
  rewrite A3. replace (Fval x - Fval y)%Z with 0%Z by lia. exact P3.
Qed.

Lemma mul_mono_l_Z x x' y :
  nanZ (x * y) = 0%Z -> nanZ (x' * y) = 0%Z ->
  (Fval x <= Fval x' -> 0 <= Fval y -> Fval (x * y) <= Fval (x' * y))%Z.
Proof.
  intros H H' Lx Py.
  pose proof (mul_ok x y H) as (_ & _ & O1 & O2).
  pose proof (mul_ok x' y H') as (_ & _ & O3 & O4).
  pose proof (mul_val x y H) as (A1 & A3).
  pose proof (mul_val x' y H') as (B1 & B3).
  assert (M : (RVq (Fval x * Fval y) UNIT <= RVq (Fval x' * Fval y) UNIT)%Z).
  { pose proof UNIT_pos. apply RVq_mono; try lia.
    apply Z.mul_le_mono_nonneg_r; [lia|].
    apply Z.mul_le_mono_nonneg_r; lia. }
  pose proof (RVq_range (Fval x * Fval y) UNIT UNIT_pos).
  pose proof (RVq_range (Fval x' * Fval y) UNIT UNIT_pos).
  pose proof BIG_pos.
  pose proof (Fval_range (x * y)). pose proof (Fval_range (x' * y)).
  val_cases x; val_cases x'; try lia; val_cases y; try lia;
    use_not; spec_all;
    destruct (Z_lt_le_dec (Fval x) 0); destruct (Z_lt_le_dec (Fval x') 0); try lia;
    spec_lia; lia.
Qed.

Lemma mul_mono_r_Z x y y' :
  nanZ (x * y) = 0%Z -> nanZ (x * y') = 0%Z ->
  (Fval y <= Fval y' -> 0 <= Fval x -> Fval (x * y) <= Fval (x * y'))%Z.
Proof.
  intros H H' Ly Px.
  pose proof (mul_ok x y H) as (_ & _ & O1 & O2).
  pose proof (mul_ok x y' H') as (_ & _ & O3 & O4).
  pose proof (mul_val x y H) as (A1 & A3).
  pose proof (mul_val x y' H') as (B1 & B3).
  assert (M : (RVq (Fval x * Fval y) UNIT <= RVq (Fval x * Fval y') UNIT)%Z).
  { pose proof UNIT_pos. apply RVq_mono; try lia.
    apply Z.mul_le_mono_nonneg_r; [lia|].
    apply Z.mul_le_mono_nonneg_l; lia. }
  pose proof (RVq_range (Fval x * Fval y) UNIT UNIT_pos).
  pose proof (RVq_range (Fval x * Fval y') UNIT UNIT_pos).
  pose proof BIG_pos.
  pose proof (Fval_range (x * y)). pose proof (Fval_range (x * y')).
  val_cases y; val_cases y'; try lia; val_cases x; try lia;
    use_not; spec_all;
    destruct (Z_lt_le_dec (Fval y) 0); destruct (Z_lt_le_dec (Fval y') 0); try lia;
    spec_lia; lia.
Qed.

(** A product of two numbers that are not negative is not negative. *)
Lemma mul_nonneg_Z x y :
  nanZ (x * y) = 0%Z ->
  (0 <= Fval x -> 0 <= Fval y -> 0 <= Fval (x * y))%Z.
Proof.
  intros H Px Py.
  pose proof (mul_ok x y H) as (_ & _ & O1 & O2).
  pose proof (mul_val x y H) as (A1 & A3).
  pose proof (RVq_nonneg (Fval x * Fval y) UNIT UNIT_pos
                ltac:(apply Z.mul_nonneg_nonneg; lia)).
  pose proof BIG_pos.
  val_cases x; try lia; val_cases y; try lia;
    use_not; spec_all; spec_lia; lia.
Qed.

Lemma div_mono_Z x x' d :
  (0 < Fval d)%Z -> nanZ (x / d) = 0%Z -> nanZ (x' / d) = 0%Z ->
  (Fval x <= Fval x' -> Fval (x / d) <= Fval (x' / d))%Z.
Proof.
  intros Pd H H' Lx.
  pose proof (div_ok x d Pd H) as (_ & O1).
  pose proof (div_ok x' d Pd H') as (_ & O2).
  pose proof (div_val x d Pd H) as (A1 & A2 & A3).
  pose proof (div_val x' d Pd H') as (B1 & B2 & B3).
  assert (M : (RVq (Fval x * UNIT) (Fval d) <= RVq (Fval x' * UNIT) (Fval d))%Z).
  { pose proof UNIT_pos. apply RVq_mono; try lia.
    apply Z.mul_le_mono_nonneg_r; [lia|].
    apply Z.mul_le_mono_nonneg_r; lia. }
  pose proof (RVq_range (Fval x * UNIT) (Fval d) Pd).
  pose proof (RVq_range (Fval x' * UNIT) (Fval d) Pd).
  pose proof BIG_pos.
  pose proof (Fval_range (x / d)). pose proof (Fval_range (x' / d)).
  val_cases x; val_cases x'; try lia; val_cases d; try lia;
    use_not; spec_all; spec_lia; lia.
Qed.

(** A quotient by a positive number has the sign of its numerator. *)
Lemma div_sign_Z x d :
  (0 < Fval d)%Z -> nanZ (x / d) = 0%Z ->
  ((0 <= Fval x -> 0 <= Fval (x / d)) /\ (Fval x <= 0 -> Fval (x / d) <= 0))%Z.
Proof.
  intros Pd H.
  pose proof (div_ok x d Pd H) as (_ & O1).
  pose proof (div_val x d Pd H) as (A1 & A2 & A3).
  pose proof UNIT_pos.
  assert (P1 : (0 <= Fval x -> 0 <= RVq (Fval x * UNIT) (Fval d))%Z).
  { intros. apply RVq_nonneg; [lia|]. apply Z.mul_nonneg_nonneg; lia. }
  assert (P2 : (Fval x <= 0 -> RVq (Fval x * UNIT) (Fval d) <= 0)%Z).
  { intros. apply RVq_nonpos; [lia|]. apply Z.mul_nonpos_nonneg; lia. }
  pose proof BIG_pos.
  split; intros C; val_cases x; try lia; val_cases d; try lia;
    use_not; spec_all; spec_lia; lia.
Qed.

(** Dividing a number that is not negative by a larger positive divisor
    gives a result that is not larger. *)
Lemma div_antitone_Z x d d' :
  (0 < Fval d)%Z -> (Fval d <= Fval d')%Z ->
  nanZ (x / d) = 0%Z -> nanZ (x / d') = 0%Z ->
  (0 <= Fval x -> Fval (x / d') <= Fval (x / d))%Z.
Proof.
  intros Pd Ld H H' Px.
  assert (Pd' : (0 < Fval d')%Z) by lia.
  pose proof (div_ok x d Pd H) as (_ & O1).
  pose proof (div_ok x d' Pd' H') as (_ & O2).
  pose proof (div_val x d Pd H) as (A1 & A2 & A3).
  pose proof (div_val x d' Pd' H') as (B1 & B2 & B3).
  pose proof UNIT_pos as PU.
  assert (Nn : (0 <= Fval x * UNIT)%Z) by (apply Z.mul_nonneg_nonneg; lia).
  assert (M : (RVq (Fval x * UNIT) (Fval d') <= RVq (Fval x * UNIT) (Fval d))%Z).
  { apply RVq_mono; try lia. apply Z.mul_le_mono_nonneg_l; lia. }
  pose proof (RVq_nonneg (Fval x * UNIT) (Fval d) Pd Nn).
  pose proof (RVq_range (Fval x * UNIT) (Fval d) Pd).
  pose proof BIG_pos.
  pose proof (Fval_range (x / d)). pose proof (Fval_range (x / d')).
  val_cases x; try lia; val_cases d; try lia; val_cases d'; try lia;
    use_not; spec_all; spec_lia; lia.
Qed.

(** ** Zeros, Math.min and the verdict *)

Lemma nanZ_nan : nanZ nan = 1%Z.
Proof. reflexivity. Qed.

Lemma Fval_nan : Fval nan = 0%Z.
Proof. reflexivity. Qed.

#[local] Hint Rewrite nanZ_nan Fval_nan : fconst.

(** *** Zeros *)

Lemma isNegZero_val x : JS.isNegZero x = true -> nanZ x = 0%Z /\ Fval x = 0%Z.
Proof.
  unfold JS.isNegZero, nanZ, Fval. rewrite classify_spec. unfold SF64classify, SFclassify.
  destruct (Prim2SF x) as [[]|[]| |[] m e]; intros H; try discriminate H;
    try (split; reflexivity);
    destruct (Z.eqb (Zpos (digits2_pos m)) prec); discriminate H.
Qed.

Lemma isPosZero_val x : JS.isPosZero x = true -> nanZ x = 0%Z /\ Fval x = 0%Z.
Proof.
  unfold JS.isPosZero, nanZ, Fval. rewrite classify_spec. unfold SF64classify, SFclassify.
  destruct (Prim2SF x) as [[]|[]| |[] m e]; intros H; try discriminate H;
    try (split; reflexivity);
    destruct (Z.eqb (Zpos (digits2_pos m)) prec); discriminate H.
Qed.

(** *** Math.min *)

(** A bound is below the result of [Math.min] exactly when it is below
    every argument; a NaN argument is above no bound. *)
Lemma min_from_ge c l :
  forall lowest,
    (c <=? JS.min_from lowest l) = true
    <-> (c <=? lowest) = true /\ Forall (fun x => (c <=? x) = true) l.
Proof.
  induction l as [|n rest IH]; intros lowest; cbn [JS.min_from].
  - split; [intros H; split; [exact H|constructor]|tauto].
  - destruct (is_nan n) eqn:Nn.
    + split.
      * intros H. exfalso. unfold JS.NaN in H. float_order.
      * intros [_ F]. inversion F as [|? ? Hn _]; subst. exfalso. float_order.
    + rewrite IH. clear IH.
      assert (K : (c <=? (if n <? (if JS.isNegZero n && JS.isPosZero lowest
                                    then n else lowest)
                          then n
                          else if JS.isNegZero n && JS.isPosZero lowest
                               then n else lowest)) = true
                  <-> (c <=? lowest) = true /\ (c <=? n) = true).
      { destruct (JS.isNegZero n && JS.isPosZero lowest) eqn:Z.
        - apply andb_true_iff in Z as [Z1 Z2].
          apply isNegZero_val in Z1 as [? ?]. apply isPosZero_val in Z2 as [? ?].
          destruct (n <? n) eqn:E; (split; [intros ?; split|intros [? ?]]); float_order.
        - destruct (n <? lowest) eqn:E; (split; [intros ?; split|intros [? ?]]); float_order. }
      rewrite K. split.
      * intros [[A B] F]. split; [exact A|]. constructor; assumption.
      * intros [A F]. inversion F; subst. tauto.
Qed.

Lemma Math_min_ge c l :
  is_nan c = false ->
  (c <=? JS.Math_min l) = true <-> Forall (fun x => (c <=? x) = true) l.
Proof.
  intros N. unfold JS.Math_min. rewrite min_from_ge.
  split; [tauto|]. intros F. split; [|exact F]. float_order.
Qed.

(** [Math.min] of a list is below each of its arguments. *)
Lemma Math_min_le l x :
  is_nan (JS.Math_min l) = false -> In x l -> (JS.Math_min l <=? x) = true.
Proof.
  intros N I.
  assert (S : (JS.Math_min l <=? JS.Math_min l) = true) by float_order.
  apply Math_min_ge in S; [|exact N].
  rewrite Forall_forall in S. now apply S.
Qed.

(** An argument that is below all the others is the minimum. *)
Lemma Math_min_least l x :
  In x l -> Forall (fun y => (x <=? y) = true) l -> (x =? JS.Math_min l) = true.
Proof.
  intros I F.
  assert (N : is_nan x = false).
  { rewrite Forall_forall in F. specialize (F x I). float_order. }
  pose proof (proj2 (Math_min_ge x l N) F) as A.
  assert (Nm : is_nan (JS.Math_min l) = false) by float_order.
  pose proof (Math_min_le l x Nm I). float_order.
Qed.

(** The CLOSE band, rule by rule. *)
Lemma isClose_iff i :
  isClose i = true
  <-> isYes i = false
      /\ (passRuleB i = true \/ (bGap i >=? - CLOSE_BAND_FRACTION) = true)
      /\ (passRuleC i = true \/ (cGap i >=? - CLOSE_BAND_FRACTION) = true)
      /\ (passBuffer i = true \/ (bufferGap i >=? - CLOSE_BAND_FRACTION) = true).
Proof.
  assert (N : is_nan (- CLOSE_BAND_FRACTION) = false) by reflexivity.
  unfold isClose, worstGap, JS.geb. rewrite andb_true_iff, negb_true_iff.
  rewrite (Math_min_ge _ _ N). unfold failingGaps.
  assert (I : (- CLOSE_BAND_FRACTION <=? JS.Infinity) = true) by reflexivity.
  split.
  - intros [Y F]. split; [exact Y|].
    inversion F as [|? ? HB F1]; subst. inversion F1 as [|? ? HC F2]; subst.
    inversion F2 as [|? ? HF _]; subst.
    destruct (passRuleB i), (passRuleC i), (passBuffer i); auto.
  - intros (Y & HB & HC & HF). split; [exact Y|].
    repeat constructor.
    + destruct (passRuleB i); [exact I|]. destruct HB; [discriminate|assumption].
    + destruct (passRuleC i); [exact I|]. destruct HC; [discriminate|assumption].
    + destruct (passBuffer i); [exact I|]. destruct HF; [discriminate|assumption].
Qed.

Lemma verdict_YES i : verdict i = "YES"%string <-> isYes i = true.
Proof.
  unfold verdict. destruct (isYes i); [tauto|].
  destruct (isClose i); split; discriminate.
Qed.

Lemma verdict_CLOSE i :
  verdict i = "CLOSE"%string <-> isYes i = false /\ isClose i = true.
Proof.
  unfold verdict. destruct (isYes i).
  - split; [discriminate|intros [? _]; discriminate].
  - destruct (isClose i); split; auto; try discriminate. intros [_ ?]. discriminate.
Qed.

(** X1: the verdict is CLOSE exactly when some rule fails and each failing
    rule's gap is at least -5%.  A failing rule whose gap is NaN is never
    within the band, so the verdict is then NOT YET. *)
Theorem verdict_close_each_gap :
  forall i : Inputs,
    (verdict i = "CLOSE"%string
     <-> isYes i = false
         /\ (passRuleB i = true \/ (bGap i >=? - CLOSE_BAND_FRACTION) = true)
         /\ (passRuleC i = true \/ (cGap i >=? - CLOSE_BAND_FRACTION) = true)
         /\ (passBuffer i = true \/ (bufferGap i >=? - CLOSE_BAND_FRACTION) = true))
    /\ ((passRuleB i = false /\ is_nan (bGap i) = true)
        \/ (passRuleC i = false /\ is_nan (cGap i) = true)
        \/ (passBuffer i = false /\ is_nan (bufferGap i) = true) ->
        verdict i = "NOT YET"%string).
Proof.
  intros i. pose proof (isClose_iff i) as C.
  split.
  - rewrite verdict_CLOSE, C. tauto.
  - intros H.
    assert (Y : isYes i = false).
    { unfold isYes. destruct H as [[-> _]|[[-> _]|[-> _]]];
        rewrite ?andb_false_r; reflexivity. }
    assert (NC : isClose i = false).
    { apply not_true_is_false. intros E.
      apply C in E as (_ & HB & HC & HF). unfold JS.geb in *.
      destruct H as [[P G]|[[P G]|[P G]]]; rewrite P in *;
        [destruct HB as [?|HB]|destruct HC as [?|HC]|destruct HF as [?|HF]];
        try discriminate; float_order. }
    unfold verdict. rewrite Y, NC. reflexivity.
Qed.

(** When no rule gets worse, neither does the verdict. *)
Lemma verdict_improves i i' :
  (passRuleB i = true -> passRuleB i' = true) ->
  (passRuleC i = true -> passRuleC i' = true) ->
  (passBuffer i = true -> passBuffer i' = true) ->
  (passRuleB i' = false -> (bGap i >=? - CLOSE_BAND_FRACTION) = true ->
   (bGap i' >=? - CLOSE_BAND_FRACTION) = true) ->
  (passRuleC i' = false -> (cGap i >=? - CLOSE_BAND_FRACTION) = true ->
   (cGap i' >=? - CLOSE_BAND_FRACTION) = true) ->
  (passBuffer i' = false -> (bufferGap i >=? - CLOSE_BAND_FRACTION) = true ->
   (bufferGap i' >=? - CLOSE_BAND_FRACTION) = true) ->
  (verdict i = "YES"%string -> verdict i' = "YES"%string)
  /\ (verdict i = "CLOSE"%string ->
      verdict i' = "CLOSE"%string \/ verdict i' = "YES"%string).
Proof.
  intros PB PC PF GB GC GF. rewrite !verdict_YES, !verdict_CLOSE, !isClose_iff.
  unfold isYes. split.
  - rewrite !andb_true_iff. intros [[B C] F]. auto.
  - intros (_ & _ & HB & HC & HF).
    destruct (passRuleB i') eqn:B', (passRuleC i') eqn:C', (passBuffer i') eqn:F';
      cbn [andb]; auto; left; (split; [reflexivity|]);
      repeat split; auto;
      right;
      try (apply GB; [reflexivity|]; destruct HB as [HB|HB];
           [apply PB in HB; congruence|exact HB]);
      try (apply GC; [reflexivity|]; destruct HC as [HC|HC];
           [apply PC in HC; congruence|exact HC]);
      try (apply GF; [reflexivity|]; destruct HF as [HF|HF];
           [apply PF in HF; congruence|exact HF]).
Qed.

(** ** The verdict policy *)

Lemma failing_cases i g :
  failing i g
  <-> (passRuleB i = false /\ g = bGap i)
      \/ (passRuleC i = false /\ g = cGap i)
      \/ (passBuffer i = false /\ g = bufferGap i).
Proof.
  unfold failing, rules. cbn [In]. split.
  - intros [H|[H|[H|[]]]]; injection H as P G; auto.
  - intros [[P G]|[[P G]|[P G]]]; rewrite <- P, G; auto.
Qed.

Lemma failing_In i g :
  failing i g <-> In g (map snd (filter (fun pg => negb (fst pg)) (rules i))).
Proof.
  unfold failing. rewrite in_map_iff. split.
  - intros H. exists (false, g). split; [reflexivity|].
    apply filter_In. split; [exact H|reflexivity].
  - intros ([p g'] & E & H). cbn [snd] in E. subst g'.
    apply filter_In in H as [H P]. cbn [fst] in P.
    destruct p; [discriminate P|exact H].
Qed.

Lemma failing_exists i : isYes i = false -> exists g, failing i g.
Proof.
  unfold isYes. intros Y.
  destruct (passRuleB i) eqn:B; [|exists (bGap i); apply failing_cases; auto].
  destruct (passRuleC i) eqn:C; [|exists (cGap i); apply failing_cases; auto].
  destruct (passBuffer i) eqn:F; [discriminate Y|].
  exists (bufferGap i); apply failing_cases; auto.
Qed.

(** A NaN argument makes [Math.min] NaN. *)
Lemma min_from_nan_arg l x :
  In x l -> is_nan x = true -> forall lowest, is_nan (JS.min_from lowest l) = true.
Proof.
  intros I N. induction l as [|n rest IH]; [destruct I|].
  intros lowest. cbn [JS.min_from].
  destruct (is_nan n) eqn:Nn; [reflexivity|].
  destruct I as [->|I]; [congruence|]. apply IH, I.
Qed.

(** Without a NaN argument [Math.min] is a number. *)
Lemma Math_min_number l :
  Forall (fun x => is_nan x = false) l -> is_nan (JS.Math_min l) = false.
Proof.
  intros F.
  assert (G : (neg_infinity <=? JS.Math_min l) = true).
  { apply Math_min_ge; [reflexivity|].
    eapply Forall_impl; [|exact F]. cbn beta. intros a Na. float_order. }
  float_order.
Qed.

(** A list of numbers that is not empty has a least element. *)
Lemma least_exists l :
  l <> [] -> Forall (fun x => is_nan x = false) l ->
  exists x, In x l /\ Forall (fun y => (x <=? y) = true) l.
Proof.
  induction l as [|a rest IH]; [congruence|]. intros _ F.
  inversion F as [|? ? Na Fr]; subst.
  assert (Ra : (a <=? a) = true) by float_order.
  destruct rest as [|b rest'].
  - exists a. split; [now left|]. constructor; [exact Ra|constructor].
  - destruct (IH ltac:(discriminate) Fr) as (m & Im & Lm).
    assert (Nm : is_nan m = false).
    { rewrite Forall_forall in Fr. now apply Fr. }
    destruct (leb_total a m Na Nm) as [L|L].
    + exists a. split; [now left|]. constructor; [exact Ra|].
      eapply Forall_impl; [|exact Lm]. cbn beta. intros y Hy.
      now apply (leb_trans a m y).
    + exists m. split; [now right|]. constructor; assumption.
Qed.

(** C1: the verdict is YES exactly when the three rules pass.  Otherwise
    [worstGap] is the minimum over the gaps of the failing rules only: the
    passing rules, standing as +Infinity, do not count; it is NaN when a
    failing gap is NaN; otherwise it is at most every failing gap and
    equals one of them.  The verdict is CLOSE exactly when some rule fails
    and [worstGap] is at least -0.05, that is, when each failing rule's
    gap is at least -0.05, and NOT YET otherwise; a worst gap equal to
    -0.05 is CLOSE, and [closeExample] is such a configuration. *)
Theorem C1_verdict_policy :
  forall i : Inputs,
    (verdict i = "YES"%string <->
       passRuleB i = true /\ passRuleC i = true /\ passBuffer i = true)
    /\ worstGap i = minFailingGap i
    /\ (isYes i = true -> worstGap i = JS.Infinity)
    /\ (forall g, failing i g -> is_nan g = true -> is_nan (worstGap i) = true)
    /\ ((forall g, failing i g -> is_nan g = false) ->
        (forall g, failing i g -> (worstGap i <=? g) = true)
        /\ (isYes i = false ->
            exists g, failing i g /\ (worstGap i =? g) = true))
    /\ (verdict i = "CLOSE"%string <->
         isYes i = false /\ (worstGap i >=? -0.05) = true)
    /\ (verdict i = "CLOSE"%string <->
         isYes i = false /\ forall g, failing i g -> (g >=? -0.05) = true)
    /\ (verdict i = "NOT YET"%string <->
         isYes i = false /\ (worstGap i >=? -0.05) = false)
    /\ ((worstGap i =? -0.05) = true -> verdict i = "CLOSE"%string)
    /\ (passRuleB closeExample = true /\ passRuleC closeExample = true
        /\ passBuffer closeExample = false
        /\ bufferGap closeExample = -0.05
        /\ verdict closeExample = "CLOSE"%string).
Proof.
  intros i.
  assert (Hw : worstGap i = minFailingGap i) by apply worstGap_minFailingGap.
  assert (Hy : isYes i = true -> worstGap i = JS.Infinity).
  { intros Y. rewrite Hw. now apply minFailingGap_isYes. }
  assert (Hv : verdict i =
               if isYes i then "YES"%string
               else if worstGap i >=? -0.05 then "CLOSE"%string
                    else "NOT YET"%string).
  { unfold verdict, isClose.
    destruct (isYes i); [reflexivity|]. cbn [negb andb].
    change (- CLOSE_BAND_FRACTION) with (-0.05). reflexivity. }
  assert (Hc : verdict i = "CLOSE"%string <->
               isYes i = false /\ (worstGap i >=? -0.05) = true).
  { rewrite Hv. destruct (isYes i), (_ >=? _);
      (split; [intros H|intros [H1 H2]]); try discriminate; auto. }
  split; [|split; [exact Hw|split; [exact Hy|split; [|split; [|split;
    [exact Hc|split; [|split; [|split]]]]]]]].
  - rewrite Hv. unfold isYes.
    destruct (passRuleB i), (passRuleC i), (passBuffer i); cbn [andb];
      (split; [intros H|intros (H1 & H2 & H3)]); try discriminate; auto;
      destruct (_ >=? _); discriminate.
  - intros g Fg Ng. rewrite Hw. unfold minFailingGap, JS.Math_min.
    apply (min_from_nan_arg _ g); [now apply failing_In|exact Ng].
  - intros NN.
    assert (FN : Forall (fun x => is_nan x = false)
                   (map snd (filter (fun pg => negb (fst pg)) (rules i)))).
    { apply Forall_forall. intros x Hx. apply NN. now apply failing_In. }
    pose proof (Math_min_number _ FN) as Nm.
    split.
    + intros g Fg. rewrite Hw. apply Math_min_le; [exact Nm|now apply failing_In].
    + intros Y. destruct (failing_exists i Y) as (g0 & F0).
      destruct (least_exists _ ltac:(intros E; apply failing_In in F0;
                                     rewrite E in F0; destruct F0) FN)
        as (x & Ix & Lx).
      exists x. split; [now apply failing_In|].
      pose proof (Math_min_least _ x Ix Lx) as E. rewrite Hw.
      unfold minFailingGap. float_order.
  - rewrite Hc. split; intros [Y H]; (split; [exact Y|]).
    + intros g Fg.
      assert (C : isClose i = true).
      { unfold isClose. rewrite Y. cbn [negb andb]. exact H. }
      apply isClose_iff in C as (_ & HB & HC & HF).
      change (- CLOSE_BAND_FRACTION) with (-0.05) in *.
      apply failing_cases in Fg as [[P ->]|[[P ->]|[P ->]]];
        [destruct HB as [?|?]|destruct HC as [?|?]|destruct HF as [?|?]];
        congruence.
    + assert (C : isClose i = true).
      { apply isClose_iff. split; [exact Y|].
        change (- CLOSE_BAND_FRACTION) with (-0.05).
        repeat split.
        - destruct (passRuleB i) eqn:P; [now left|right].
          apply H, failing_cases. auto.
        - destruct (passRuleC i) eqn:P; [now left|right].
          apply H, failing_cases. auto.
        - destruct (passBuffer i) eqn:P; [now left|right].
          apply H, failing_cases. auto. }
      unfold isClose in C. rewrite Y in C. exact C.
  - rewrite Hv. destruct (isYes i), (_ >=? _);
      (split; [intros H|intros [H1 H2]]); try discriminate; auto.
  - intros E. apply Hc.
    destruct (isYes i) eqn:Y.
    + rewrite (Hy eq_refl) in E. vm_compute in E. discriminate E.
    + split; [reflexivity|]. unfold JS.geb. float_order.
  - vm_compute. repeat split.
Qed.

(** ** The selected lever *)

Lemma leb_Infinity x : is_nan x = false -> (x <=? JS.Infinity) = true.
Proof. intros. float_order. Qed.

(** X2: the rule named as top driver is a failing rule whose gap is the
    worst gap, the one the CLOSE band is measured on: the driver and the
    verdict never disagree about which shortfall is the largest. *)
Theorem driver_gap_is_worstGap :
  forall i : Inputs,
    (driver i = "Salary too large vs net worth"%string ->
     passRuleB i = false /\ (bGap i =? worstGap i) = true)
    /\ (driver i = "Spending too high vs portfolio + side income"%string ->
        passRuleC i = false /\ (cGap i =? worstGap i) = true)
    /\ (driver i = "Insufficient cash buffer"%string ->
        passBuffer i = false /\ (bufferGap i =? worstGap i) = true).
Proof.
  intros i. unfold driver, worstGap, failingGaps.
  destruct (passRuleB i) eqn:PB, (passRuleC i) eqn:PC, (passBuffer i) eqn:PF;
    cbn [negb andb];
    repeat match goal with
    | |- context [?a <=? ?b] =>
        lazymatch goal with
        | _ : (a <=? b) = _ |- _ => fail
        | _ => let E := fresh "E" in destruct (a <=? b) eqn:E
        end
    end; cbn [negb andb];
    try (unfold isYes; rewrite PB, PC, PF; cbn [andb]);
    (split; [|split]); intros D; try discriminate D;
    (split; [reflexivity|]);
    (apply Math_min_least; [cbn [In]; tauto|]);
    repeat constructor; try apply leb_Infinity; try assumption; float_order.
Qed.

(** Enumerate the candidate list by the three flags, and the run of the
    [reduce] by its comparisons. *)
Ltac by_flags i :=
  unfold best, deltas, JS.reduce;
  destruct (passRuleB i) eqn:PB, (passRuleC i) eqn:PC, (passBuffer i) eqn:PF;
  cbn [app fold_left]; unfold smaller; cbn [value].

Ltac by_comparisons :=
  repeat match goal with
  | |- context [?a <=? ?b] =>
      lazymatch a with
      | context [if _ then _ else _] => fail
      | _ => let E := fresh "E" in destruct (a <=? b) eqn:E; cbn [value] in *
      end
  end.

(** X3: the lever "Cut spending" is never the selected one, and the
    [default] branch of the [switch] is never taken: whenever a rule fails
    the next step is one of four sentences. "Cut spending" has the same
    magnitude as "Add side income", which is listed first and wins the
    tie; with a NaN magnitude it loses to the lever listed after it. *)
Theorem nextStep_never_cut_spending :
  forall (toLocaleString : float -> nat -> string) (i : Inputs),
    isYes i = false ->
    exists b,
      best i = JS.Normal b
      /\ In b (deltas i)
      /\ label b <> "Cut spending"%string
      /\ nextStep toLocaleString i = JS.Normal (sentence toLocaleString b)
      /\ (sentence toLocaleString b
          = ("Add about " ++ pretty toLocaleString (value b)
             ++ " to net worth to get salary ≤ "
             ++ pct toLocaleString TARGET_SALARY_VS_NW ++ " of NW.")%string
          \/ sentence toLocaleString b
             = ("Add about " ++ pretty toLocaleString (value b)
                ++ "/yr in side income to meet spending.")%string
          \/ sentence toLocaleString b
             = ("Add about " ++ pretty toLocaleString (value b)
                ++ " to net worth so returns cover spending.")%string
          \/ sentence toLocaleString b
             = ("Hold about " ++ pretty toLocaleString (value b)
                ++ " more in cash for a 6-month buffer.")%string).
Proof.
  intros tl i Y.
  assert (S : forall b, best i = JS.Normal b ->
                        nextStep tl i = JS.Normal (sentence tl b)).
  { intros b Hb. apply nextStep_best, Hb. }
  revert S. unfold isYes in Y. by_flags i; try discriminate Y; by_comparisons;
    intros S;
    match goal with
    | |- exists b, JS.Normal ?c = JS.Normal b /\ _ =>
        exists c; split; [reflexivity|]; split; [cbn [In]; tauto|];
        first [ solve [ split; [cbn [label]; discriminate|];
                        split; [apply S; reflexivity|]; cbn; auto ]
              | exfalso; float_order ]
    end.
Qed.

(** X4: with an after-tax return rate that is not positive, the Rule C
    lever "Grow net worth" has an infinite magnitude and, as long as the
    shortfall is a number, it is never the selected lever. *)
Theorem grow_net_worth_C_never_selected :
  forall (i : Inputs) (b : Delta),
    (atRetPerDollar i >? 0) = false ->
    is_nan (shortfallC i) = false ->
    best i = JS.Normal b ->
    deltaNW_C i = JS.Infinity
    /\ label b <> "Grow net worth (Rule C)"%string.
Proof.
  intros i b R N. 
  assert (D : deltaNW_C i = JS.Infinity) by (unfold deltaNW_C; now rewrite R).
  split; [exact D|]. revert H. by_flags i; rewrite ?D; by_comparisons;
    intros H; try discriminate H; injection H as <-; cbn [label];
    try discriminate; exfalso; unfold JS.Infinity in *; float_order.
Qed.

(** ** Rounded results are binary64 numbers *)

Local Open Scope Z_scope.

Lemma bounded_intro m e :
  fexp prec emax (Zpos (digits2_pos m) + e) = e -> e <= 971 ->
  bounded prec emax m e = true.
Proof.
  intros C L. unfold bounded, canonical_mantissa.
  apply andb_true_iff. split.
  - rewrite C. apply Z.eqb_refl.
  - apply Z.leb_le. exact L.
Qed.

(** A rounded result is a valid binary64 number. *)
Lemma binary_round_aux_valid s q e l :
  0 <= q ->
  0 <= fexp prec emax (Zdigits2 q + e) - e ->
  valid_binary (binary_round_aux prec emax s q e l) = true.
Proof.
  intros Q N. set (n := fexp prec emax (Zdigits2 q + e) - e) in *.
  set (E0 := fexp prec emax (Zdigits2 q + e)).
  assert (HE : -1074 <= E0) by (unfold E0; rewrite fexp_spec; lia).
  assert (HD : Zdigits2 q <= n + 53) by (unfold n; rewrite fexp_spec; lia).
  pose proof (loc_code_range l) as C.
  destruct (rounded_mantissa_bounds q (loc_code l) n Q C N HD) as [[M0 M1] M2].
  unfold binary_round_aux.
  pose proof (shr_fexp_inv q e l Q N) as [I S]. fold n in I, S.
  destruct (shr_fexp prec emax q e l) as [mrs' e'] eqn:F.
  cbn [fst snd] in I, S. subst e'.
  rewrite (round_of_shr_inv _ _ _ I).
  replace (2 + n) with (n + 2) by lia.
  set (M := RNEq (4 * q + loc_code l) (2 ^ (n + 2))) in *.
  replace (e + n) with E0 by (unfold n, E0; lia).
  destruct (Z.eq_dec M 0) as [Z0|NZ].
  { rewrite Z0, final_zero by lia. reflexivity. }
  destruct (Z.eq_dec M (2 ^ 53)) as [C53|N53].
  { rewrite C53, final_carry by lia.
    destruct (E0 + 1 <=? 971) eqn:L; [|reflexivity].
    apply Z.leb_le in L. cbn [valid_binary]. apply bounded_intro; [|exact L].
    change (Zpos (digits2_pos (Z.to_pos (2 ^ 52)))) with 53.
    rewrite fexp_spec. lia. }
  rewrite final_small by lia.
  destruct (E0 <=? 971) eqn:L; [|reflexivity].
  apply Z.leb_le in L. cbn [valid_binary]. apply bounded_intro; [|exact L].
  assert (PM : 0 < M) by lia.
  pose proof (Zdigits2_bounds M PM) as [[L1 U1] D1].
  assert (D53 : Zdigits2 M <= 53) by (apply Zdigits2_le; lia).
  assert (DM : Zpos (digits2_pos (Z.to_pos M)) = Zdigits2 M).
  { destruct M; try lia. reflexivity. }
  rewrite DM, fexp_spec.
  destruct (Z.eq_dec E0 (-1074)) as [->|NE]; [lia|].
  assert (2 ^ 52 <= M).
  { apply M2. unfold n. fold E0. unfold E0 in NE |- *.
    rewrite fexp_spec in *. lia. }
  assert (53 <= Zdigits2 M) by (apply Zdigits2_ge; [lia|exact H]).
  lia.
Qed.

Lemma binary_round_valid s m e :
  valid_binary (binary_round prec emax s m e) = true.
Proof.
  unfold binary_round.
  set (F := fexp prec emax (Zpos (digits2_pos m) + e)).
  assert (HF : F = Z.max (Zpos (digits2_pos m) + e - 53) (-1074)) by reflexivity.
  assert (A : exists mz ez, shl_align m e F = (mz, ez) /\ ez <= e /\ ez <= F
              /\ Zpos mz = Zpos m * 2 ^ (e - ez)).
  { unfold shl_align. destruct (F - e) as [|d|d] eqn:E.
    - exists m, e. repeat split; try lia. replace (e - e) with 0 by lia. lia.
    - exists m, e. repeat split; try lia. replace (e - e) with 0 by lia. lia.
    - exists (Pos.iter xO m d), F. repeat split; try lia.
      change (Pos.iter xO m d) with (shift_pos d m).
      rewrite shift_pos_correct, Z.pow_pos_fold.
      replace (e - F) with (Zpos d) by lia. lia. }
  destruct A as (mz & ez & E & L1 & L2 & V).
  rewrite E.
  assert (Dg : Zdigits2 (Zpos mz) + ez = Zpos (digits2_pos m) + e).
  { rewrite V, Zdigits2_shift by lia. cbn [Zdigits2]. lia. }
  apply binary_round_aux_valid; [lia|]. rewrite Dg. fold F. lia.
Qed.

Lemma binary_normalize_valid z e :
  valid_binary (binary_normalize prec emax z e false) = true.
Proof.
  destruct z; cbn [binary_normalize]; [reflexivity| |]; apply binary_round_valid.
Qed.

(** An integer of at most 53 bits is a binary64 number. *)
Lemma RVz_integer n :
  - 2 ^ 53 <= n <= 2 ^ 53 -> RVz (n * UNIT) = n * UNIT.
Proof.
  assert (P : forall n, 0 < n <= 2 ^ 53 -> RV (n * UNIT) 1 = n * UNIT).
  { clear n. intros n Hn. pose proof UNIT_pos as PU.
    pose proof (Zdigits2_bounds n ltac:(lia)) as [[L U] D].
    assert (D54 : Zdigits2 n <= 54).
    { apply Zdigits2_le; lia. }
    assert (DU : Zdigits2 (n * UNIT) = Zdigits2 n + 1074).
    { unfold UNIT. apply Zdigits2_shift; lia. }
    unfold RV, Edig. rewrite Z.div_1_r, Z.mul_1_l, DU.
    set (E := Z.max (Zdigits2 n + 1074 - 53) 0).
    assert (HE : E = Zdigits2 n + 1021) by (unfold E; lia).
    destruct (Z.eq_dec (Zdigits2 n) 54) as [D5|D5].
    - (* n = 2^53 *)
      assert (n = 2 ^ 53).
      { rewrite D5 in L. change (54 - 1) with 53 in L. lia. }
      subst n. rewrite HE, D5. vm_compute. reflexivity.
    - assert (S : n * UNIT = (n * 2 ^ (1074 - E)) * 2 ^ E).
      { unfold UNIT. rewrite <- Z.mul_assoc, <- pow2_split by lia. do 2 f_equal. lia. }
      rewrite S at 1. rewrite RNEq_exact by (apply pow2_pos; lia).
      rewrite <- S.
      apply Z.min_r.
      assert (n * UNIT <= 2 ^ 53 * UNIT) by (apply Z.mul_le_mono_nonneg_r; lia).
      assert (2 ^ 53 * UNIT <= BIG) by (vm_compute; discriminate).
      lia. }
  intros Hn. pose proof UNIT_pos as PU. unfold RVz.
  destruct (Z.leb_spec 0 (n * UNIT)).
  - destruct (Z.eq_dec n 0) as [->|Nz].
    + rewrite Z.mul_0_l. apply RV_0. lia.
    + apply P. nia.
  - rewrite <- Z.mul_opp_l, P by nia. lia.
Qed.

Local Close Scope Z_scope.

(** ** Math.round *)

(** *** Math.round *)

(** The integer that [round_Z] computes is floor(x + 1/2). *)
Lemma round_Z_floor s m e :
  (e < 0)%Z ->
  JS.round_Z s m e = ((2 * cond_Zopp s (Zpos m) + 2 ^ (- e)) / (2 * 2 ^ (- e)))%Z.
Proof.
  intros He. unfold JS.round_Z. rewrite Z.shiftr_div_pow2 by lia.
  f_equal. replace (1 - e)%Z with (1 + - e)%Z by lia.
  rewrite pow2_split by lia. reflexivity.
Qed.

Lemma round_Z_bounds s m e :
  (e < 0)%Z -> (Zpos m < 2 ^ 53)%Z ->
  (- 2 ^ 53 <= JS.round_Z s m e <= 2 ^ 53)%Z
  /\ (if s then JS.round_Z s m e <= 0 else 0 <= JS.round_Z s m e)%Z.
Proof.
  intros He Hm. rewrite round_Z_floor by assumption.
  assert (P : (2 <= 2 ^ (- e))%Z).
  { change 2%Z with (2 ^ 1)%Z at 1. apply Z.pow_le_mono_r; lia. }
  set (p := (2 ^ (- e))%Z) in *.
  assert (L : (- 2 ^ 53 <= (2 * cond_Zopp s (Zpos m) + p) / (2 * p))%Z).
  { apply Z.div_le_lower_bound; [lia|]. destruct s; cbn [cond_Zopp]; nia. }
  assert (U : ((2 * cond_Zopp s (Zpos m) + p) / (2 * p) <= 2 ^ 53)%Z).
  { apply Z.div_le_upper_bound; [lia|]. destruct s; cbn [cond_Zopp]; nia. }
  split; [lia|]. destruct s; cbn [cond_Zopp].
  - assert ((2 * - Zpos m + p) / (2 * p) < 1)%Z; [|lia].
    apply Z.div_lt_upper_bound; lia.
  - apply Z.div_pos; lia.
Qed.

(** The number that [Math.round] builds from a nonzero integer. *)
Lemma of_integer n :
  (- 2 ^ 53 <= n <= 2 ^ 53)%Z ->
  Prim2SF (SF2Prim (binary_normalize prec emax n 0 false))
  = binary_normalize prec emax n 0 false
  /\ nanZ (SF2Prim (binary_normalize prec emax n 0 false)) = 0%Z
  /\ Fval (SF2Prim (binary_normalize prec emax n 0 false)) = (n * UNIT)%Z.
Proof.
  intros Hn.
  pose proof (Prim2SF_SF2Prim _ (binary_normalize_valid n 0)) as E.
  destruct (binary_normalize_value n 0 ltac:(lia)) as [N V].
  unfold nanZ, Fval. rewrite E. split; [reflexivity|]. split; [exact N|].
  rewrite V. change (2 ^ (0 + 1074))%Z with UNIT. now apply RVz_integer.
Qed.

Lemma Math_round_nan x : is_nan (JS.Math_round x) = is_nan x.
Proof.
  unfold JS.Math_round.
  destruct (Prim2SF x) as [s|s| |s m e] eqn:E; try reflexivity.
  destruct (0 <=? e)%Z eqn:He; [reflexivity|]. apply Z.leb_gt in He.
  pose proof (valid_finite _ _ _ _ E) as B.
  pose proof (bounded_spec _ _ B) as (_ & D & _).
  pose proof (digits2_bounds m) as [_ U].
  assert (Hm : (Zpos m < 2 ^ 53)%Z).
  { eapply Z.lt_le_trans; [exact U|]. apply Z.pow_le_mono_r; lia. }
  destruct (round_Z_bounds s m e He Hm) as [R _].
  assert (Nx : is_nan x = false).
  { apply is_nan_false. unfold nanZ. rewrite E. reflexivity. }
  rewrite Nx.
  destruct (JS.round_Z s m e =? 0)%Z.
  - destruct s; reflexivity.
  - apply is_nan_false. apply of_integer. exact R.
Qed.

(** [Math.round] of a finite number is floor(x + 1/2), in units of
    2^-1074. *)
Lemma Math_round_value x :
  nanZ x = 0%Z -> is_fin (Fval x) ->
  Fval (JS.Math_round x) = ((2 * Fval x + UNIT) / (2 * UNIT) * UNIT)%Z.
Proof.
  intros N F. pose proof UNIT_pos as PU. unfold JS.Math_round.
  pose proof BIG_pos. unfold is_fin in F.
  assert (Zr : ((2 * 0 + UNIT) / (2 * UNIT) * UNIT = 0)%Z).
  { rewrite Z.div_small by lia. reflexivity. }
  unfold Fval, nanZ in *.
  destruct (Prim2SF x) as [s|s| |s m e] eqn:E; cbn [SFval sf_nan cond_Zopp] in *;
    try (rewrite E; cbn [SFval]; symmetry; exact Zr);
    try (destruct s; cbn [cond_Zopp] in F; lia); try lia.
  pose proof (valid_finite _ _ _ _ E) as B.
  pose proof (bounded_spec _ _ B) as (Re & D & _).
  pose proof (digits2_bounds m) as [_ U].
  assert (Hm : (Zpos m < 2 ^ 53)%Z).
  { eapply Z.lt_le_trans; [exact U|]. apply Z.pow_le_mono_r; lia. }
  destruct (0 <=? e)%Z eqn:He.
  - (* an integer already *)
    apply Z.leb_le in He. rewrite E. cbn [SFval].
    set (k := (cond_Zopp s (Zpos m) * 2 ^ e)%Z).
    assert (K : (cond_Zopp s (Zpos m * 2 ^ (e + 1074)) = k * UNIT)%Z).
    { unfold k. rewrite pow2_UNIT by lia.
      destruct s; cbn [cond_Zopp]; lia. }
    rewrite K. clearbody k. f_equal.
    replace (2 * (k * UNIT) + UNIT)%Z with ((2 * k + 1) * UNIT)%Z by lia.
    rewrite Z.div_mul_cancel_r by lia.
    apply Z.div_unique with (r := 1%Z); lia.
  - apply Z.leb_gt in He.
    destruct (round_Z_bounds s m e He Hm) as [R _].
    rewrite round_Z_floor in * by assumption.
    set (p := (2 ^ (- e))%Z) in *. set (u := (2 ^ (e + 1074))%Z).
    assert (Pp : (0 < p)%Z) by (apply pow2_pos; lia).
    assert (Pu : (0 < u)%Z) by (apply pow2_pos; lia).
    assert (UU : UNIT = (p * u)%Z).
    { unfold p, u, UNIT. rewrite <- pow2_split by lia. f_equal. lia. }
    set (a := cond_Zopp s (Zpos m)) in *.
    assert (V : (cond_Zopp s (Zpos m * u) = a * u)%Z)
      by (unfold a; destruct s; cbn [cond_Zopp]; lia).
    rewrite V.
    assert (Q : ((2 * (a * u) + UNIT) / (2 * UNIT) = (2 * a + p) / (2 * p))%Z).
    { rewrite UU.
      replace (2 * (a * u) + p * u)%Z with ((2 * a + p) * u)%Z by lia.
      replace (2 * (p * u))%Z with (2 * p * u)%Z by lia.
      apply Z.div_mul_cancel_r; lia. }
    rewrite Q. set (n := ((2 * a + p) / (2 * p))%Z) in *.
    destruct (n =? 0)%Z eqn:Zn.
    + apply Z.eqb_eq in Zn. rewrite Zn. destruct s; reflexivity.
    + fold (Fval (SF2Prim (binary_normalize prec emax n 0 false))).
      apply of_integer. exact R.
Qed.

(** [Math.round] keeps the sign bit. *)
Lemma Math_round_sign s x :
  has_sign s (Prim2SF x) -> has_sign s (Prim2SF (JS.Math_round x)).
Proof.
  intros S. unfold JS.Math_round.
  destruct (Prim2SF x) as [s'|s'| |s' m e] eqn:E; try (rewrite E; exact S).
  cbn [has_sign] in S. subst s'.
  destruct (0 <=? e)%Z eqn:He; [rewrite E; reflexivity|]. apply Z.leb_gt in He.
  pose proof (valid_finite _ _ _ _ E) as B.
  pose proof (bounded_spec _ _ B) as (_ & D & _).
  pose proof (digits2_bounds m) as [_ U].
  assert (Hm : (Zpos m < 2 ^ 53)%Z).
  { eapply Z.lt_le_trans; [exact U|]. apply Z.pow_le_mono_r; lia. }
  destruct (round_Z_bounds s m e He Hm) as [R Sg].
  destruct (JS.round_Z s m e =? 0)%Z eqn:Zn.
  - destruct s; reflexivity.
  - apply Z.eqb_neq in Zn.
    destruct (of_integer _ R) as [-> _].
    destruct (JS.round_Z s m e) as [|n|n]; try lia; cbn [binary_normalize];
      destruct s; try lia; apply binary_round_sign.
Qed.

(** The three shapes of a result of [Math.round]. *)
Lemma Math_round_shape x :
  JS.Math_round x = x
  \/ JS.Math_round x = zero \/ JS.Math_round x = neg_zero
  \/ exists n, n <> 0%Z /\ (- 2 ^ 53 <= n <= 2 ^ 53)%Z
               /\ JS.Math_round x = SF2Prim (binary_normalize prec emax n 0 false).
Proof.
  unfold JS.Math_round.
  destruct (Prim2SF x) as [s|s| |s m e] eqn:E; auto.
  destruct (0 <=? e)%Z eqn:He; auto. apply Z.leb_gt in He.
  pose proof (valid_finite _ _ _ _ E) as B.
  pose proof (bounded_spec _ _ B) as (_ & D & _).
  pose proof (digits2_bounds m) as [_ U].
  assert (Hm : (Zpos m < 2 ^ 53)%Z).
  { eapply Z.lt_le_trans; [exact U|]. apply Z.pow_le_mono_r; lia. }
  destruct (round_Z_bounds s m e He Hm) as [R _].
  destruct (JS.round_Z s m e =? 0)%Z eqn:Zn.
  - destruct s; auto.
  - apply Z.eqb_neq in Zn. right. right. right.
    exists (JS.round_Z s m e). auto.
Qed.

(** Rounding twice is rounding once: the result is integral. *)
Lemma Math_round_idem x : JS.Math_round (JS.Math_round x) = JS.Math_round x.
Proof.
  pose proof UNIT_pos as PU. pose proof BIG_pos as PB.
  destruct (Math_round_shape x) as [H|[H|[H|(n & Zn & R & H)]]];
    rewrite H; try exact H; try reflexivity.
  destruct (of_integer n R) as (P & _ & V).
  set (r := SF2Prim (binary_normalize prec emax n 0 false)) in *.
  unfold JS.Math_round. unfold Fval in V.
  destruct (Prim2SF r) as [s'|s'| |s' m' e'] eqn:Er; try reflexivity.
  destruct (0 <=? e')%Z eqn:He'; [reflexivity|]. apply Z.leb_gt in He'.
  pose proof (valid_finite _ _ _ _ Er) as B'.
  pose proof (bounded_spec _ _ B') as (Re' & _ & _).
  cbn [SFval] in V.
  assert (N' : JS.round_Z s' m' e' = n).
  { rewrite round_Z_floor by assumption.
    set (p := (2 ^ (- e'))%Z). set (u := (2 ^ (e' + 1074))%Z) in *.
    assert (Pp : (0 < p)%Z) by (apply pow2_pos; lia).
    assert (Pu : (0 < u)%Z) by (apply pow2_pos; lia).
    assert (UU : UNIT = (p * u)%Z).
    { unfold p, u, UNIT. rewrite <- pow2_split by lia. f_equal. lia. }
    assert (A : (cond_Zopp s' (Zpos m') = n * p)%Z).
    { assert (cond_Zopp s' (Zpos m' * u) = cond_Zopp s' (Zpos m') * u)%Z
        by (destruct s'; cbn [cond_Zopp]; lia).
      rewrite UU in V. nia. }
    rewrite A.
    replace (2 * (n * p) + p)%Z with ((2 * n + 1) * p)%Z by lia.
    rewrite Z.div_mul_cancel_r by lia.
    symmetry. apply Z.div_unique with (r := 1%Z); lia. }
  rewrite N'. apply Z.eqb_neq in Zn. rewrite Zn. reflexivity.
Qed.

(** ** The amounts shown *)

Lemma Math_round_finite x :
  nanZ x = 0%Z -> is_fin (Fval x) -> is_fin (Fval (JS.Math_round x)).
Proof.
  intros N F. pose proof BIG_pos as PB.
  destruct (Math_round_shape x) as [H|[H|[H|(n & Zn & R & H)]]]; rewrite H;
    try exact F; try (unfold is_fin; cbn; lia).
  destruct (of_integer n R) as (_ & _ & V). rewrite V. unfold is_fin.
  assert (B : (2 ^ 53 * UNIT < BIG)%Z) by reflexivity.
  pose proof UNIT_pos. nia.
Qed.

Lemma nan_is_nan x : is_nan x = true -> x = nan.
Proof.
  intros H. apply is_nan_true in H. unfold nanZ in H.
  apply Prim2SF_inj. destruct (Prim2SF x); cbn in H; try lia. reflexivity.
Qed.

Lemma plus_zero x : Prim2SF x = S754_zero false -> x = 0.
Proof. intros H. apply Prim2SF_inj. rewrite H. reflexivity. Qed.

(** On a number that is NaN or carries no sign bit, the floor at 0 of
    [pretty] changes nothing. *)
Lemma shownAmount_no_clamp v :
  is_nan v = true \/ has_sign false (Prim2SF v) ->
  shownAmount v = JS.Math_round v.
Proof.
  intros H. unfold shownAmount. rewrite Math_max_0, Math_round_nan.
  destruct H as [N|S].
  - rewrite N. apply nan_is_nan in N. subst v. reflexivity.
  - assert (N : is_nan v = false).
    { apply is_nan_false. unfold nanZ. destruct (Prim2SF v); cbn in S |- *; tauto. }
    rewrite N. apply Math_round_sign in S.
    destruct (0 <? JS.Math_round v) eqn:P; [reflexivity|].
    symmetry. apply plus_zero.
    apply ltb_lex_false in P.
    assert (Nr : nanZ (JS.Math_round v) = 0%Z).
    { apply is_nan_false. now rewrite Math_round_nan. }
    unfold nanZ in *. rewrite Prim2SF_0 in P.
    destruct (Prim2SF (JS.Math_round v)) as [s|s| |s m e];
      cbn [has_sign sf_nan] in *; subst; try reflexivity; try tauto;
      unfold lex_le in P; cbn in P; lia.
Qed.

Lemma Math_max_0_signed y :
  is_nan (JS.Math_max [0; y]) = true
  \/ has_sign false (Prim2SF (JS.Math_max [0; y])).
Proof.
  rewrite Math_max_0. destruct (is_nan y); [left; reflexivity|].
  right. destruct (0 <? y) eqn:P; [now apply pos_has_sign|reflexivity].
Qed.

Lemma div_signed n d :
  is_nan n = true \/ has_sign false (Prim2SF n) ->
  (0 <? d) = true ->
  is_nan (n / d) = true \/ has_sign false (Prim2SF (n / d)).
Proof.
  intros Hn Pd. apply pos_has_sign in Pd.
  destruct (is_nan (n / d)) eqn:N; [left; reflexivity|right].
  destruct Hn as [Hn|Hn].
  { apply div_not_nan in N as [N _]. congruence. }
  apply is_nan_false in N. unfold nanZ in N. rewrite div_spec in *.
  unfold SF64div in *.
  pose proof (SFdiv_finite_sign false) as F.
  destruct (Prim2SF n) as [s|s| |s m e], (Prim2SF d) as [s'|s'| |s' m' e'];
    cbn [has_sign] in Hn, Pd; subst; try tauto; try reflexivity;
    try (cbn in N; lia).
  apply (F m e false m' e').
Qed.

Lemma candidates_signed i d :
  In d (deltas i) ->
  is_nan (value d) = true \/ has_sign false (Prim2SF (value d)).
Proof.
  intros H. apply deltas_levers in H.
  destruct H as [[_ E]|[[_ [E|[E|E]]]|[_ E]]]; rewrite E; cbn [value];
    try apply Math_max_0_signed.
  unfold deltaNW_C. destruct (atRetPerDollar i >? 0) eqn:R.
  - apply div_signed; [apply Math_max_0_signed|exact R].
  - right. reflexivity.
Qed.

Lemma signed_not_negative v :
  is_nan v = true \/ has_sign false (Prim2SF v) ->
  (v <? 0) = false /\ JS.isNegZero v = false.
Proof.
  intros S. split.
  - destruct S as [N|S]; [float_order|].
    apply ltb_lex_false. right. right. rewrite Prim2SF_0.
    destruct (Prim2SF v) as [s|s| |s m e]; cbn [has_sign] in S; subst;
      try tauto; unfold lex_le; cbn; lia.
  - unfold JS.isNegZero. rewrite classify_spec. unfold SF64classify, SFclassify.
    destruct S as [N|S].
    + apply is_nan_true in N. unfold nanZ in N.
      destruct (Prim2SF v); cbn in N; lia || reflexivity.
    + destruct (Prim2SF v) as [s|s| |s m e]; cbn [has_sign] in S; subst;
        try tauto; try reflexivity.
      destruct (Z.eqb (Zpos (digits2_pos m)) prec); reflexivity.
Qed.

Lemma candidate_not_negative i d : In d (deltas i) -> (value d <? 0) = false.
Proof. intros H. now apply signed_not_negative, (candidates_signed i). Qed.

(** X5: every candidate magnitude is NaN or a number that is neither
    negative nor -0, so the floor at 0 in [pretty] never changes the
    amount that is shown: it is [Math.round] of the magnitude. *)
Theorem candidate_amounts_never_negative :
  forall (i : Inputs) (d : Delta),
    In d (deltas i) ->
    (value d <? 0) = false
    /\ JS.isNegZero (value d) = false
    /\ shownAmount (value d) = JS.Math_round (value d).
Proof.
  intros i d H. pose proof (candidates_signed i d H) as S.
  destruct (signed_not_negative _ S) as [A B].
  repeat split; auto. now apply shownAmount_no_clamp.
Qed.

Lemma RVz_Fval x : nanZ x = 0%Z -> is_fin (Fval x) -> RVz (Fval x) = Fval x.
Proof.
  unfold nanZ, Fval, is_fin. intros N F. pose proof BIG_pos.
  pose proof (Prim2SF_valid x) as V.
  destruct (Prim2SF x) as [s|s| |s m e]; cbn [SFval sf_nan] in *;
    try apply RVz_0; try lia.
  - destruct s; cbn [cond_Zopp] in F; lia.
  - apply (RVz_representable s m e V).
Qed.

Lemma half_UNIT : (2 * Fval 0.5 = UNIT)%Z.
Proof. reflexivity. Qed.

Lemma Fval_neg_half : Fval (-0.5) = (- Fval 0.5)%Z.
Proof. reflexivity. Qed.

(** X6: the amount shown for a magnitude that is not negative is a whole
    number ([Math.round] leaves it unchanged) within one half of the
    magnitude. *)
Theorem shown_amount_is_nearest_integer :
  forall v : float,
    (0 <=? v) = true -> (v <? infinity) = true ->
    JS.Math_round (shownAmount v) = shownAmount v
    /\ (-0.5 <=? shownAmount v - v) = true
    /\ (shownAmount v - v <=? 0.5) = true.
Proof.
  intros v P F.
  apply leb_true in P as (_ & Nv & P). apply ltb_true in F as (_ & _ & F).
  rewrite Fval_0 in P. rewrite Fval_infinity in F.
  pose proof UNIT_pos as PU. pose proof BIG_pos as PB.
  assert (Fv : is_fin (Fval v)) by (unfold is_fin; lia).
  pose proof (Math_round_value v Nv Fv) as V.
  pose proof (Math_round_finite v Nv Fv) as Fr.
  assert (Nr : nanZ (JS.Math_round v) = 0%Z).
  { apply is_nan_false. rewrite Math_round_nan. now apply is_nan_false. }
  set (n := ((2 * Fval v + UNIT) / (2 * UNIT))%Z) in *.
  assert (D : (2 * UNIT * n <= 2 * Fval v + UNIT < 2 * UNIT * (n + 1))%Z).
  { unfold n. split.
    - apply Z.mul_div_le. lia.
    - replace (n + 1)%Z with (Z.succ n) by lia. unfold n.
      apply Z.mul_succ_div_gt. lia. }
  assert (A : shownAmount v = JS.Math_round v \/ (shownAmount v = 0 /\ n = 0%Z)).
  { unfold shownAmount. rewrite Math_max_0.
    replace (is_nan (JS.Math_round v)) with false
      by (symmetry; now apply is_nan_false).
    destruct (0 <? JS.Math_round v) eqn:E; [left; reflexivity|right].
    split; [reflexivity|]. apply ltb_false in E. rewrite Fval_0, nanZ_0 in E.
    assert (0 <= n)%Z by (unfold n; apply Z.div_pos; lia). nia. }
  assert (Va : Fval (shownAmount v) = (n * UNIT)%Z).
  { destruct A as [->|[-> ->]]; [exact V|reflexivity]. }
  assert (Na : nanZ (shownAmount v) = 0%Z).
  { destruct A as [->|[-> _]]; [exact Nr|reflexivity]. }
  assert (Fa : is_fin (Fval (shownAmount v))).
  { destruct A as [->|[-> _]]; [exact Fr|]. unfold is_fin. rewrite Fval_0. lia. }
  split.
  { destruct A as [->|[-> _]]; [apply Math_round_idem|reflexivity]. }
  assert (Ns : nanZ (shownAmount v - v) = 0%Z).
  { pose proof (nanZ_range (shownAmount v - v)).
    destruct (Z.eq_dec (nanZ (shownAmount v - v)) 0) as [|Ne]; [assumption|].
    assert (T : nanZ (shownAmount v - v) = 1%Z) by lia.
    apply sub_nanZ in T. unfold is_fin in *. lia. }
  destruct (sub_val _ _ Ns) as (_ & _ & S). specialize (S Fa Fv).
  pose proof half_UNIT as HU.
  assert (UB : (UNIT < BIG)%Z) by reflexivity.
  assert (Nh : nanZ 0.5 = 0%Z) by reflexivity.
  assert (Fh : is_fin (Fval 0.5)) by (unfold is_fin; lia).
  pose proof (RVz_Fval 0.5 Nh Fh) as Rh.
  assert (Rn : RVz (- Fval 0.5) = (- Fval 0.5)%Z).
  { rewrite <- Fval_neg_half. apply RVz_Fval; [reflexivity|].
    rewrite Fval_neg_half. unfold is_fin. lia. }
  pose proof (RVz_mono (Fval (shownAmount v) - Fval v) (Fval 0.5)) as M1.
  pose proof (RVz_mono (- Fval 0.5) (Fval (shownAmount v) - Fval v)) as M2.
  rewrite Va in *.
  split; apply leb_true; (split; [|split]); try assumption; try reflexivity;
    rewrite ?Fval_neg_half, S; nia.
Qed.

(** ** Results that are numbers *)

(** *** Results that are numbers *)

Lemma not_nan_intro x : nanZ x <> 1%Z -> nanZ x = 0%Z.
Proof. pose proof (nanZ_range x). lia. Qed.

Lemma add_number x y :
  nanZ x = 0%Z -> nanZ y = 0%Z ->
  ~ (Fval x = BIG /\ Fval y = (- BIG)%Z) -> ~ (Fval x = (- BIG)%Z /\ Fval y = BIG) ->
  nanZ (x + y) = 0%Z.
Proof.
  intros. apply not_nan_intro. intros E. apply add_nanZ in E.
  destruct E as [E|[E|[E|E]]]; try tauto; lia.
Qed.

Lemma sub_number x y :
  nanZ x = 0%Z -> nanZ y = 0%Z ->
  ~ (Fval x = BIG /\ Fval y = BIG) -> ~ (Fval x = (- BIG)%Z /\ Fval y = (- BIG)%Z) ->
  nanZ (x - y) = 0%Z.
Proof.
  intros. apply not_nan_intro. intros E. apply sub_nanZ in E.
  destruct E as [E|[E|[E|E]]]; try tauto; lia.
Qed.

Lemma mul_number x y :
  nanZ x = 0%Z -> nanZ y = 0%Z ->
  ~ (is_inf (Fval x) /\ Fval y = 0%Z) -> ~ (Fval x = 0%Z /\ is_inf (Fval y)) ->
  nanZ (x * y) = 0%Z.
Proof.
  intros. apply not_nan_intro. intros E. apply mul_nanZ in E.
  destruct E as [E|[E|[E|E]]]; try tauto; lia.
Qed.

Lemma div_number x y :
  (0 < Fval y)%Z -> nanZ x = 0%Z ->
  ~ (is_inf (Fval x) /\ Fval y = BIG) ->
  nanZ (x / y) = 0%Z.
Proof.
  intros P. intros. apply not_nan_intro. intros E. apply (div_nanZ x y P) in E.
  destruct E as [E|E]; try tauto; lia.
Qed.

(** Multiplying a finite number that is not negative by a factor between
    0 and 1 does not make it larger. *)
Lemma mul_le_self_Z x y :
  nanZ x = 0%Z -> nanZ y = 0%Z ->
  (0 <= Fval x < BIG -> 0 <= Fval y <= Fval 1 ->
   nanZ (x * y) = 0 /\ 0 <= Fval (x * y) <= Fval x)%Z.
Proof.
  intros Nx Ny Rx Ry. pose proof BIG_pos as PB. pose proof UNIT_pos as PU.
  assert (U1 : Fval 1 = UNIT) by reflexivity. rewrite U1 in Ry.
  assert (UB : (UNIT < BIG)%Z) by reflexivity.
  assert (N : nanZ (x * y) = 0%Z).
  { apply mul_number; auto; unfold is_inf; lia. }
  split; [exact N|].
  destruct (mul_val x y N) as [_ V].
  rewrite V by (unfold is_fin; lia).
  split.
  - apply RVq_nonneg; [lia|]. apply Z.mul_nonneg_nonneg; lia.
  - rewrite <- (RVz_Fval x Nx) at 2 by (unfold is_fin; lia).
    rewrite RVz_RVq. apply RVq_mono; try lia.
    rewrite Z.mul_1_r. apply Z.mul_le_mono_nonneg_l; lia.
Qed.

(** *** After-tax portfolio return *)

(** [nw * r * (1 - t)] does not decrease when the net worth or the return
    rises, for a net worth that is not negative, a return between 0 and 1
    and a tax rate of at most 1. *)
Lemma atRet_mono_Z nw nw' r r' t :
  nanZ nw = 0%Z -> nanZ nw' = 0%Z -> nanZ r = 0%Z -> nanZ r' = 0%Z ->
  nanZ t = 0%Z ->
  (0 <= Fval nw <= Fval nw')%Z -> (Fval nw' = BIG -> Fval nw = BIG) ->
  (0 <= Fval r <= Fval r')%Z -> (Fval r' <= Fval 1)%Z -> (Fval t <= Fval 1)%Z ->
  nanZ (nw * r * (1 - t)) = 0%Z ->
  nanZ (nw' * r' * (1 - t)) = 0%Z
  /\ (0 <= Fval (nw * r * (1 - t)) <= Fval (nw' * r' * (1 - t)))%Z.
Proof.
  intros Nnw Nnw' Nr Nr' Nt Rnw Inw Rr Rr1 Rt H.
  pose proof BIG_pos as PB. pose proof UNIT_pos as PU.
  assert (U1 : Fval 1 = UNIT) by reflexivity. rewrite U1 in *.
  assert (UB : (UNIT < BIG)%Z) by reflexivity.
  destruct (mul_ok _ _ H) as (Np & Ns & O1 & O2).
  destruct (mul_ok _ _ Np) as (_ & _ & O3 & O4).
  assert (S : (0 <= Fval (1 - t))%Z).
  { destruct (sub_sign_Z 1 t Ns) as (S1 & _ & S3). rewrite U1 in *.
    destruct (Z.eq_dec (Fval t) UNIT) as [E|E]; [rewrite S3; lia|].
    assert (0 < Fval (1 - t))%Z by (apply S1; lia). lia. }
  pose proof (Fval_range nw') as Rn'.
  assert (P1 : nanZ (nw * r') = 0%Z).
  { apply mul_number; auto.
    - intros [I Z0]. apply O3. split; [exact I|lia].
    - intros [Z0 I]. unfold is_inf in I. lia. }
  assert (P2 : nanZ (nw' * r') = 0%Z).
  { apply mul_number; auto.
    - intros [I Z0]. apply O3. split; [|lia].
      left. apply Inw. unfold is_inf in I. lia.
    - intros [Z0 I]. unfold is_inf in I. lia. }
  pose proof (mul_mono_r_Z nw r r' Np P1 ltac:(lia) ltac:(lia)) as M1.
  pose proof (mul_mono_l_Z nw nw' r' P1 P2 ltac:(lia) ltac:(lia)) as M2.
  pose proof (mul_nonneg_Z nw r Np ltac:(lia) ltac:(lia)) as Z1.
  pose proof (Fval_range (nw' * r')) as R2.
  assert (P3 : nanZ (nw' * r' * (1 - t)) = 0%Z).
  { apply mul_number; auto.
    - intros [I Z0]. unfold is_inf in I.
      assert (B : Fval (nw' * r') = BIG) by lia. clear I.
      destruct (Z.eq_dec (Fval nw') BIG) as [E|E].
      + specialize (Inw E).
        assert (Pr : (0 < Fval r)%Z).
        { destruct (Z.eq_dec (Fval r) 0) as [Zr|Zr]; [|lia].
          exfalso. apply O3. split; [left; exact Inw|exact Zr]. }
        destruct (mul_val nw r Np) as [V _].
        destruct V as [V _]; [left; left; exact Inw|].
        apply O1. split; [left; apply V; lia|exact Z0].
      + destruct (mul_le_self_Z nw' r' Nnw' Nr' ltac:(lia)
                    ltac:(rewrite U1; lia)) as [_ L]. lia.
    - intros [Z0 I]. apply O2. split; [lia|exact I]. }
  split; [exact P3|]. split.
  - apply mul_nonneg_Z; auto.
  - apply mul_mono_l_Z; auto. lia.
Qed.

(** ** Monotonicity in each input *)

(** *** Sums and gaps *)

(** A sum that is a number above -Infinity stays one when its terms
    rise, and does not get smaller. *)
Lemma sum_mono_Z A A' s s' :
  nanZ A' = 0%Z -> nanZ s' = 0%Z ->
  (Fval A <= Fval A')%Z -> (Fval s <= Fval s')%Z ->
  nanZ (A + s) = 0%Z -> (- BIG < Fval (A + s))%Z ->
  nanZ (A' + s') = 0%Z /\ (Fval (A + s) <= Fval (A' + s'))%Z.
Proof.
  intros NA' Ns' LA Ls H B. pose proof BIG_pos as PB.
  destruct (add_ok _ _ H) as (NA & Ns & O1 & O2).
  destruct (add_val _ _ H) as (V1 & V2 & V3).
  pose proof (Fval_range A) as RA. pose proof (Fval_range s) as Rs.
  assert (XA : Fval A <> (- BIG)%Z).
  { intros E. rewrite V1 in B by (right; exact E). lia. }
  assert (Xs : Fval s <> (- BIG)%Z).
  { intros E. val_cases A; try lia.
    rewrite V2 in B; [lia|exact K|right; exact E]. }
  assert (N' : nanZ (A' + s') = 0%Z) by (apply add_number; auto; lia).
  split; [exact N'|]. now apply add_mono_Z.
Qed.

(** The gap [(X - D) / D] of a rule with a positive threshold [D]: a
    lower bound that is a number stays one when [X] rises. *)
Lemma gap_ge_Z X X' D c :
  nanZ X' = 0%Z -> (Fval X <= Fval X')%Z -> (0 < Fval D)%Z ->
  nanZ ((X - D) / D) = 0%Z -> (Fval c <= Fval ((X - D) / D))%Z ->
  nanZ ((X' - D) / D) = 0%Z /\ (Fval c <= Fval ((X' - D) / D))%Z.
Proof.
  intros NX' L PD H C. pose proof BIG_pos as PB.
  destruct (div_ok _ _ PD H) as (Nd & O1).
  destruct (sub_ok _ _ Nd) as (NX & ND & O2 & O3).
  destruct (sub_val _ _ Nd) as (V1 & V2 & V3).
  pose proof (Fval_range D) as RD. pose proof (Fval_range X) as RX.
  assert (FD : Fval D <> BIG).
  { intros E. apply O1. split; [|exact E].
    val_cases X;
      first [ exfalso; apply O2; split; assumption
            | rewrite V1 by (right; exact K); right; exact K
            | rewrite V2; [right; lia|exact K|left; exact E] ]. }
  assert (Nd' : nanZ (X' - D) = 0%Z) by (apply sub_number; auto; lia).
  assert (H' : nanZ ((X' - D) / D) = 0%Z).
  { apply div_number; auto; intros [_ E]; contradiction. }
  split; [exact H'|].
  pose proof (sub_mono_Z X X' D D Nd Nd' L ltac:(lia)).
  pose proof (div_mono_Z (X - D) (X' - D) D PD H H' ltac:(assumption)). lia.
Qed.

(** The buffer target [(spend / 12) * 6] is a number when [spend] is, and
    rises with it. *)
Lemma scaled_number s : nanZ s = 0%Z -> nanZ (s / 12 * 6) = 0%Z.
Proof.
  intros N. pose proof BIG_pos.
  assert (F12 : (0 < Fval 12 < BIG)%Z) by (split; reflexivity).
  assert (F6 : (0 < Fval 6 < BIG)%Z) by (split; reflexivity).
  assert (N1 : nanZ (s / 12) = 0%Z).
  { apply div_number; auto; try lia; intros [_ E]; lia. }
  apply mul_number; auto; unfold is_inf; lia.
Qed.

Lemma scaled_mono_Z s s' :
  nanZ s = 0%Z -> nanZ s' = 0%Z -> (Fval s <= Fval s')%Z ->
  (Fval (s / 12 * 6) <= Fval (s' / 12 * 6))%Z.
Proof.
  intros N N' L. pose proof BIG_pos.
  assert (F12 : (0 < Fval 12 < BIG)%Z) by (split; reflexivity).
  assert (F6 : (0 < Fval 6 < BIG)%Z) by (split; reflexivity).
  pose proof (scaled_number s N) as M. pose proof (scaled_number s' N') as M'.
  destruct (mul_ok _ _ M) as (D & _). destruct (mul_ok _ _ M') as (D' & _).
  apply mul_mono_l_Z; auto; try lia.
  apply div_mono_Z; auto; lia.
Qed.

Lemma band_number : nanZ (- CLOSE_BAND_FRACTION) = 0%Z.
Proof. reflexivity. Qed.

(** Boolean form of [gap_ge_Z]. *)
Lemma gap_ge X X' D c :
  (X <=? X') = true -> (0 <? D) = true ->
  (c <=? (X - D) / D) = true -> (c <=? (X' - D) / D) = true.
Proof.
  intros L P C.
  apply leb_true in L as (_ & NX' & L). apply ltb_true in P as (_ & _ & P).
  rewrite Fval_0 in P. apply leb_true in C as (Nc & H & C).
  destruct (gap_ge_Z X X' D c NX' L P H C) as [H' C'].
  apply leb_true. auto.
Qed.

(** X7: more cash on hand never turns a passing Buffer rule into a failing
    one, never raises the cash the rule asks for, and, with a positive
    buffer target, never worsens the verdict. *)
Theorem cashOnHand_monotone :
  forall (i : Inputs) (cash' : float),
    (cashOnHand i <? cash') = true ->
    let i' := withCashOnHand i cash' in
    (passBuffer i = true -> passBuffer i' = true)
    /\ (bufferShort i <? bufferShort i') = false
    /\ (is_nan (bufferShort i) = false -> is_nan (bufferShort i') = false ->
        (bufferShort i' <=? bufferShort i) = true)
    /\ ((0 <? bufferTarget i) = true ->
        (verdict i = "YES"%string -> verdict i' = "YES"%string)
        /\ (verdict i = "CLOSE"%string ->
            verdict i' = "CLOSE"%string \/ verdict i' = "YES"%string)).
Proof.
  intros i c' L i'.
  assert (PF : passBuffer i = true -> passBuffer i' = true).
  { unfold passBuffer, i', JS.geb. cbn [cashOnHand withCashOnHand].
    change (bufferTarget (withCashOnHand i c')) with (bufferTarget i).
    intros H. float_order. }
  split; [exact PF|].
  pose proof (Math_max_0_antitone (bufferTarget i - cashOnHand i)
                (bufferTarget i - c')) as [A B].
  { intros. now apply sub_antitone. }
  split; [exact A|]. split; [intros N N'; apply B; now rewrite <- Math_max_0_nan|].
  intros PT. apply verdict_improves; auto.
  intros _ G. unfold bufferGap, i', JS.geb in *. cbn [cashOnHand withCashOnHand].
  change (bufferTarget (withCashOnHand i c')) with (bufferTarget i).
  apply (gap_ge (cashOnHand i) c'); auto. float_order.
Qed.

(** Boolean form of [sum_mono_Z], for a sum that reaches a bound above
    -Infinity. *)
Lemma sum_ge A A' s s' c :
  (A <=? A') = true -> (s <=? s') = true -> (neg_infinity <? c) = true ->
  (c <=? A + s) = true ->
  (c <=? A' + s') = true /\ (A + s <=? A' + s') = true.
Proof.
  intros LA Ls Pc C.
  apply leb_true in LA as (_ & NA' & LA). apply leb_true in Ls as (_ & Ns' & Ls).
  apply ltb_true in Pc as (_ & _ & Pc). rewrite Fval_neg_infinity in Pc.
  apply leb_true in C as (Nc & H & C).
  destruct (sum_mono_Z A A' s s' NA' Ns' LA Ls H ltac:(lia)) as [H' M].
  split; apply leb_true; repeat split; auto; lia.
Qed.

Lemma leb_refl x : is_nan x = false -> (x <=? x) = true.
Proof. intros. float_order. Qed.

Lemma ltb_leb x y : (x <? y) = true -> (x <=? y) = true.
Proof. intros. float_order. Qed.

(** A gap that reaches the band comes from a sum above -Infinity. *)
Lemma gap_sum_above X D c :
  (neg_infinity <? c) = true -> (0 <? D) = true ->
  (c <=? (X - D) / D) = true ->
  is_nan X = false /\ (neg_infinity <? X) = true.
Proof.
  intros Pc P C.
  apply ltb_true in Pc as (_ & _ & Pc). rewrite Fval_neg_infinity in Pc.
  apply ltb_true in P as (_ & _ & P). rewrite Fval_0 in P.
  apply leb_true in C as (Nc & H & C). pose proof BIG_pos as PB.
  destruct (div_ok _ _ P H) as (Nd & O1).
  destruct (sub_ok _ _ Nd) as (NX & ND & O2 & O3).
  destruct (div_val _ _ P H) as (W1 & _ & _).
  destruct (sub_val _ _ Nd) as (V1 & _ & _).
  split; [now apply is_nan_false|].
  apply ltb_true. rewrite Fval_neg_infinity, nanZ_neg_infinity.
  repeat split; auto. pose proof (Fval_range X).
  destruct (Z.eq_dec (Fval X) (- BIG)) as [E|E]; [|lia].
  exfalso. rewrite W1 in C.
  - rewrite V1 in C by (right; exact E). lia.
  - rewrite V1 by (right; exact E). right. exact E.
Qed.

(** X8: more side income never turns a passing Rule C into a failing one,
    never raises the shortfall that Rule C asks to close and never
    worsens the verdict, for a positive [spend]. *)
Theorem sideIncome_monotone :
  forall (i : Inputs) (side' : float),
    (sideIncome i <? side') = true ->
    (0 <? spend i) = true ->
    let i' := withSideIncome i side' in
    (passRuleC i = true -> passRuleC i' = true)
    /\ (shortfallC i <? shortfallC i') = false
    /\ (is_nan (shortfallC i) = false -> is_nan (shortfallC i') = false ->
        (shortfallC i' <=? shortfallC i) = true)
    /\ (verdict i = "YES"%string -> verdict i' = "YES"%string)
    /\ (verdict i = "CLOSE"%string ->
        verdict i' = "CLOSE"%string \/ verdict i' = "YES"%string).
Proof.
  intros i s' L PS i'.
  set (A := afterTaxPortfolioReturn i).
  assert (Ls : (sideIncome i <=? s') = true) by now apply ltb_leb.
  assert (PSn : (neg_infinity <? spend i) = true) by float_order.
  assert (PC : passRuleC i = true -> passRuleC i' = true).
  { unfold passRuleC, i', JS.geb. cbn [sideIncome spend withSideIncome].
    change (afterTaxPortfolioReturn (withSideIncome i s')) with A. fold A. intros H.
    assert (NA : is_nan A = false).
    { apply leb_true in H as (_ & H & _). apply add_ok in H. now apply is_nan_false. }
    now apply (sum_ge A A (sideIncome i) s' (spend i) (leb_refl A NA) Ls PSn). }
  split; [exact PC|].
  pose proof (Math_max_0_antitone (spend i - (A + sideIncome i))
                (spend i - (A + s'))) as [M1 M2].
  { intros N N'. apply is_nan_false in N, N'.
    destruct (sub_ok _ _ N) as (_ & N1 & _). destruct (sub_ok _ _ N') as (_ & N2 & _).
    destruct (add_ok _ _ N1) as (NA & _).
    apply leb_true in Ls as (_ & _ & Ls').
    pose proof (add_mono_Z A A (sideIncome i) s' N1 N2 ltac:(lia) Ls').
    apply leb_true. repeat split; auto.
    apply sub_mono_Z; auto. lia. }
  split; [exact M1|].
  split; [intros N N'; apply M2; now rewrite <- Math_max_0_nan|].
  apply verdict_improves; auto.
  intros _ G. unfold cGap, i', JS.geb in *. cbn [sideIncome spend withSideIncome].
  change (afterTaxPortfolioReturn (withSideIncome i s')) with A. fold A in G |- *.
  assert (Pc : (neg_infinity <? - CLOSE_BAND_FRACTION) = true) by reflexivity.
  destruct (gap_sum_above (A + sideIncome i) (spend i) (- CLOSE_BAND_FRACTION) Pc PS G)
    as [NX PX].
  assert (NA : is_nan A = false).
  { apply is_nan_false in NX. apply add_ok in NX. now apply is_nan_false. }
  destruct (sum_ge A A (sideIncome i) s' (A + sideIncome i)
              (leb_refl A NA) Ls PX (leb_refl _ NX)) as [_ LX].
  now apply (gap_ge (A + sideIncome i) (A + s')).
Qed.

(** X9: more spending never turns a failing Rule C or Buffer rule into a
    passing one, and never lowers the amounts these rules ask for. *)
Theorem spend_antitone :
  forall (i : Inputs) (spend' : float),
    (spend i <? spend') = true ->
    let i' := withSpend i spend' in
    (passRuleC i' = true -> passRuleC i = true)
    /\ (passBuffer i' = true -> passBuffer i = true)
    /\ (shortfallC i' <? shortfallC i) = false
    /\ (bufferShort i' <? bufferShort i) = false.
Proof.
  intros i s' L i'.
  assert (Ls : (spend i <=? s') = true) by now apply ltb_leb.
  apply leb_true in Ls as (Ns & Ns' & Ls).
  pose proof (scaled_number _ Ns) as NT. pose proof (scaled_number _ Ns') as NT'.
  pose proof (scaled_mono_Z _ _ Ns Ns' Ls) as MT.
  split; [|split; [|split]].
  - unfold passRuleC, i', JS.geb. cbn [spend sideIncome withSpend].
    change (afterTaxPortfolioReturn (withSpend i s')) with (afterTaxPortfolioReturn i).
    intros H. float_order.
  - unfold passBuffer, bufferTarget, i', JS.geb, CASH_BUFFER_MONTHS.
    cbn [spend cashOnHand withSpend]. intros H.
    apply leb_true in H as (_ & Nc & H). apply leb_true. repeat split; auto. lia.
  - unfold shortfallC, i'. cbn [spend sideIncome withSpend].
    change (afterTaxPortfolioReturn (withSpend i s')) with (afterTaxPortfolioReturn i).
    apply Math_max_0_antitone. intros N N'. apply is_nan_false in N, N'.
    apply leb_true. repeat split; auto. apply sub_mono_Z; auto. lia.
  - unfold bufferShort, bufferTarget, i', CASH_BUFFER_MONTHS.
    cbn [spend cashOnHand withSpend].
    apply Math_max_0_antitone. intros N N'. apply is_nan_false in N, N'.
    apply leb_true. repeat split; auto. apply sub_mono_Z; auto. lia.
Qed.

(** The share of a salary that is kept, [1 - rate], for a rate between 0
    and 1. *)
Lemma kept_share t :
  (0 <=? t) = true -> (t <=? 1) = true ->
  (nanZ (1 - t) = 0 /\ 0 <= Fval (1 - t) <= Fval 1)%Z.
Proof.
  intros P L. apply leb_true in P as (_ & Nt & P). apply leb_true in L as (_ & _ & L).
  rewrite Fval_0 in P. pose proof BIG_pos as PB.
  assert (U1 : Fval 1 = UNIT) by reflexivity. rewrite U1 in *.
  assert (UB : (UNIT < BIG)%Z) by reflexivity. pose proof UNIT_pos as PU.
  assert (N1 : nanZ 1 = 0%Z) by reflexivity.
  assert (N : nanZ (1 - t) = 0%Z) by (apply sub_number; auto; rewrite U1; lia).
  split; [exact N|].
  destruct (sub_val _ _ N) as (_ & _ & V). rewrite U1 in V.
  rewrite V by (unfold is_fin; lia).
  pose proof (RVz_mono 0 (UNIT - Fval t) ltac:(lia)) as M1.
  pose proof (RVz_mono (UNIT - Fval t) UNIT ltac:(lia)) as M2.
  rewrite RVz_0 in M1.
  assert (R1 : RVz UNIT = UNIT).
  { rewrite <- U1. apply RVz_Fval; [exact N1|]. rewrite U1. unfold is_fin. lia. }
  lia.
Qed.

(** X10: a higher salary never turns a failing Rule B into a passing one,
    never lowers the net-worth increase that Rule B asks for and never
    improves the verdict, for a salary that is not negative and a tax rate
    between 0 and 1. *)
Theorem salary_antitone :
  forall (i : Inputs) (salary' : float),
    (0 <=? salary i) = true ->
    (salary i <? salary') = true ->
    (0 <=? salaryTaxRate i) = true -> (salaryTaxRate i <=? 1) = true ->
    let i' := withSalary i salary' in
    (passRuleB i' = true -> passRuleB i = true)
    /\ (deltaNW_B i' <? deltaNW_B i) = false
    /\ (verdict i' = "YES"%string -> verdict i = "YES"%string)
    /\ (verdict i' = "CLOSE"%string ->
        verdict i = "CLOSE"%string \/ verdict i = "YES"%string).
Proof.
  intros i s' P0 L T0 T1 i'.
  destruct (kept_share _ T0 T1) as (Nk & K0 & K1).
  apply leb_true in P0 as (_ & Ns & P0). rewrite Fval_0 in P0.
  apply ltb_true in L as (_ & Ns' & L).
  pose proof BIG_pos as PB. pose proof (Fval_range s') as Rs'.
  destruct (mul_le_self_Z (salary i) (1 - salaryTaxRate i) Ns Nk ltac:(lia) ltac:(lia))
    as (Na & A0 & A1).
  fold (afterTaxSalary i) in Na, A0, A1.
  assert (EA : afterTaxSalary i' = s' * (1 - salaryTaxRate i)) by reflexivity.
  assert (MA : nanZ (afterTaxSalary i') = 0%Z ->
               (Fval (afterTaxSalary i) <= Fval (afterTaxSalary i'))%Z).
  { intros Na'. unfold afterTaxSalary at 1. rewrite EA in *.
    apply mul_mono_l_Z; auto; lia. }
  (* the ratio, for a positive net worth *)
  assert (MQ : forall d, (0 < Fval d)%Z -> nanZ (afterTaxSalary i' / d) = 0%Z ->
                nanZ (afterTaxSalary i / d) = 0%Z
                /\ (Fval (afterTaxSalary i / d) <= Fval (afterTaxSalary i' / d))%Z).
  { intros d Pd Nq'. destruct (div_ok _ _ Pd Nq') as (Na' & _).
    assert (Nq : nanZ (afterTaxSalary i / d) = 0%Z).
    { apply div_number; auto. unfold is_inf. intros [I _]. lia. }
    split; [exact Nq|]. apply div_mono_Z; auto. }
  assert (PBm : passRuleB i' = true -> passRuleB i = true).
  { unfold passRuleB, salaryVsNW, i'. cbn [netWorth withSalary].
    change (afterTaxSalary (withSalary i s')) with (afterTaxSalary i').
    unfold JS.gtb. destruct (0 <? netWorth i) eqn:Pn; [|auto].
    intros H. apply ltb_true in Pn as (_ & _ & Pn). rewrite Fval_0 in Pn.
    apply leb_true in H as (Nq' & Nc & H).
    destruct (MQ _ Pn Nq') as [Nq M]. apply leb_true. repeat split; auto. lia. }
  split; [exact PBm|]. split.
  { unfold deltaNW_B, neededNWforB, i'. cbn [netWorth withSalary].
    change (afterTaxSalary (withSalary i s')) with (afterTaxSalary i').
    apply Math_max_0_antitone. intros N N'. apply is_nan_false in N, N'.
    destruct (sub_ok _ _ N) as (Nq' & _). destruct (sub_ok _ _ N') as (Nq & _).
    assert (Pt : (0 < Fval TARGET_SALARY_VS_NW)%Z) by reflexivity.
    destruct (MQ _ Pt Nq') as [_ M].
    apply leb_true. repeat split; auto. apply sub_mono_Z; auto. lia. }
  apply (verdict_improves i' i); auto.
  intros FB G. unfold bGap, salaryVsNW, i', JS.geb, JS.gtb in *.
  cbn [netWorth withSalary] in G.
  change (afterTaxSalary (withSalary i s')) with (afterTaxSalary i') in G.
  destruct (0 <? netWorth i) eqn:Pn; [|exact G].
  apply ltb_true in Pn as (_ & _ & Pn). rewrite Fval_0 in Pn.
  apply leb_true in G as (Nc & Ng' & G).
  destruct (sub_ok _ _ Ng') as (Nt & Nq' & _).
  destruct (MQ _ Pn Nq') as [Nq M].
  assert (Ft : is_fin (Fval TARGET_SALARY_VS_NW)).
  { unfold is_fin. split; reflexivity. }
  assert (Ng : nanZ (TARGET_SALARY_VS_NW - afterTaxSalary i / netWorth i) = 0%Z).
  { unfold is_fin in Ft. apply sub_number; auto; lia. }
  apply leb_true. repeat split; auto.
  pose proof (sub_mono_Z TARGET_SALARY_VS_NW TARGET_SALARY_VS_NW
                (afterTaxSalary i' / netWorth i) (afterTaxSalary i / netWorth i)
                Ng' Ng ltac:(lia) M). lia.
Qed.

(** Boolean form of [atRet_mono_Z]. *)
Lemma atRet_mono nw nw' r r' t :
  (0 <=? nw) = true -> (nw <=? nw') = true ->
  (nw' <? infinity) = true \/ nw' = nw ->
  (0 <=? r) = true -> (r <=? r') = true -> (r' <=? 1) = true ->
  (t <=? 1) = true ->
  is_nan (nw * r * (1 - t)) = false ->
  is_nan (nw' * r' * (1 - t)) = false
  /\ (0 <=? nw * r * (1 - t)) = true
  /\ (nw * r * (1 - t) <=? nw' * r' * (1 - t)) = true.
Proof.
  intros P0 L F R0 LR R1 T1 N.
  apply leb_true in P0 as (_ & Nn & P0). apply leb_true in L as (_ & Nn' & L).
  apply leb_true in R0 as (_ & Nr & R0). apply leb_true in LR as (_ & Nr' & LR).
  apply leb_true in R1 as (_ & _ & R1). apply leb_true in T1 as (Nt & _ & T1).
  rewrite Fval_0 in *. apply is_nan_false in N.
  assert (I : Fval nw' = BIG -> Fval nw = BIG).
  { destruct F as [F| ->]; [|auto].
    apply ltb_true in F as (_ & _ & F). rewrite Fval_infinity in F. lia. }
  destruct (atRet_mono_Z nw nw' r r' t Nn Nn' Nr Nr' Nt ltac:(lia) I ltac:(lia) R1 T1 N)
    as (N' & A0 & A1).
  split; [now apply is_nan_false|].
  split; apply leb_true; rewrite ?Fval_0, ?nanZ_0; auto.
Qed.

(** X11: a larger net worth never turns a passing Rule C into a failing
    one, never raises the shortfall Rule C asks to close and never worsens
    the verdict, for a net worth that is not negative, a return between 0
    and 1, a tax rate on returns of at most 1 and a positive [spend]. *)
Theorem netWorth_never_worsens_verdict :
  forall (i : Inputs) (netWorth' : float),
    (0 <=? netWorth i) = true ->
    (netWorth i <? netWorth') = true ->
    (netWorth' <? infinity) = true ->
    (0 <=? investReturn i) = true -> (investReturn i <=? 1) = true ->
    (investTaxRate i <=? 1) = true ->
    (0 <? spend i) = true ->
    let i' := withNetWorth i netWorth' in
    (passRuleC i = true -> passRuleC i' = true)
    /\ (shortfallC i <? shortfallC i') = false
    /\ (verdict i = "YES"%string -> verdict i' = "YES"%string)
    /\ (verdict i = "CLOSE"%string ->
        verdict i' = "CLOSE"%string \/ verdict i' = "YES"%string).
Proof.
  intros i nw' P0 L F R0 R1 T1 PS i'.
  assert (Ln : (netWorth i <=? nw') = true) by now apply ltb_leb.
  assert (PSn : (neg_infinity <? spend i) = true) by float_order.
  set (A := afterTaxPortfolioReturn i).
  set (A' := afterTaxPortfolioReturn i').
  assert (MA : is_nan A = false ->
               is_nan A' = false /\ (0 <=? A) = true /\ (A <=? A') = true).
  { apply (atRet_mono (netWorth i) nw' (investReturn i) (investReturn i)
             (investTaxRate i)); auto.
    apply leb_refl. apply leb_true in R0 as (_ & R0 & _). now apply is_nan_false. }
  assert (SA : forall c, (neg_infinity <? c) = true ->
                 (c <=? A + sideIncome i) = true ->
                 (c <=? A' + sideIncome i) = true
                 /\ (A + sideIncome i <=? A' + sideIncome i) = true).
  { intros c Pc C.
    assert (NX : nanZ (A + sideIncome i) = 0%Z) by (apply leb_true in C; tauto).
    destruct (add_ok _ _ NX) as (NA & Ns & _).
    apply is_nan_false in NA, Ns. destruct (MA NA) as (_ & _ & LA).
    now apply (sum_ge A A' (sideIncome i) (sideIncome i) c LA (leb_refl _ Ns)). }
  assert (PC : passRuleC i = true -> passRuleC i' = true).
  { unfold passRuleC, JS.geb. fold A A'. intros H. now apply SA. }
  split; [exact PC|]. split.
  { unfold shortfallC. fold A A'.
    change (spend i') with (spend i). change (sideIncome i') with (sideIncome i).
    apply Math_max_0_antitone. intros N N'. apply is_nan_false in N, N'.
    destruct (sub_ok _ _ N) as (_ & N1 & _). destruct (sub_ok _ _ N') as (_ & N2 & _).
    destruct (add_ok _ _ N1) as (NA & _). apply is_nan_false in NA.
    destruct (MA NA) as (_ & _ & LA). apply leb_true in LA as (_ & _ & LA).
    pose proof (add_mono_Z A A' (sideIncome i) (sideIncome i) N1 N2 LA ltac:(lia)).
    apply leb_true. repeat split; auto. apply sub_mono_Z; auto. lia. }
  assert (Pc : (neg_infinity <? - CLOSE_BAND_FRACTION) = true) by reflexivity.
  apply verdict_improves; auto.
  - (* Rule B passes *)
    unfold passRuleB, salaryVsNW, i'. cbn [netWorth withNetWorth].
    change (afterTaxSalary (withNetWorth i nw')) with (afterTaxSalary i).
    unfold JS.gtb. destruct (0 <? netWorth i) eqn:Pn.
    + assert (Pn' : (0 <? nw') = true) by float_order. rewrite Pn'.
      apply div_le_bound; auto.
    + intros H. exfalso. vm_compute in H. discriminate.
  - (* the gap of Rule B *)
    intros FB G. unfold passRuleB, bGap, salaryVsNW, i', JS.geb, JS.gtb in *.
    cbn [netWorth withNetWorth] in *.
    change (afterTaxSalary (withNetWorth i nw')) with (afterTaxSalary i) in *.
    destruct (0 <? netWorth i) eqn:Pn; [|exfalso; vm_compute in G; discriminate].
    assert (Pn' : (0 <? nw') = true) by float_order. rewrite Pn' in *.
    apply ltb_true in Pn as (_ & _ & Pn). apply ltb_true in Pn' as (_ & Nn' & Pn').
    apply ltb_true in L as (_ & _ & L). apply ltb_true in F as (_ & _ & F).
    rewrite Fval_0, ?Fval_infinity in *.
    apply leb_true in G as (Nc & Ng & G).
    destruct (sub_ok _ _ Ng) as (Nt & Nq & _).
    destruct (div_ok _ _ Pn Nq) as (Na & _).
    assert (Nq' : nanZ (afterTaxSalary i / nw') = 0%Z).
    { apply div_number; auto. intros [_ E]. lia. }
    assert (Ft : (0 < Fval TARGET_SALARY_VS_NW < BIG)%Z) by (split; reflexivity).
    apply leb_false in FB. destruct FB as [FB|[FB|FB]]; try lia.
    destruct (div_sign_Z _ _ Pn' Nq') as [_ S2].
    assert (Pa : (0 <= Fval (afterTaxSalary i))%Z).
    { destruct (Z_lt_le_dec (Fval (afterTaxSalary i)) 0) as [C|C]; [|exact C].
      specialize (S2 ltac:(lia)). lia. }
    pose proof (div_antitone_Z (afterTaxSalary i) (netWorth i) nw' Pn ltac:(lia)
                  Nq Nq' Pa) as M.
    assert (Ng' : nanZ (TARGET_SALARY_VS_NW - afterTaxSalary i / nw') = 0%Z).
    { apply sub_number; auto; lia. }
    apply leb_true. repeat split; auto.
    pose proof (sub_mono_Z TARGET_SALARY_VS_NW TARGET_SALARY_VS_NW
                  (afterTaxSalary i / netWorth i) (afterTaxSalary i / nw')
                  Ng Ng' ltac:(lia) M). lia.
  - (* the gap of Rule C *)
    intros _ G. unfold cGap, JS.geb in *. fold A A' in G |- *.
    change (spend i') with (spend i). change (sideIncome i') with (sideIncome i).
    destruct (gap_sum_above (A + sideIncome i) (spend i) (- CLOSE_BAND_FRACTION)
                Pc PS G) as [NX PX].
    destruct (SA (A + sideIncome i) PX (leb_refl _ NX)) as [_ LX].
    now apply (gap_ge (A + sideIncome i) (A' + sideIncome i)).
Qed.

(** A scenario is the evaluation of the inputs with its return. *)
Lemma verdictForR_withReturn i rate :
  yes (verdictForR i rate) = isYes (withReturn i rate)
  /\ close (verdictForR i rate) = isClose (withReturn i rate)
  /\ coverage (verdictForR i rate)
     = (afterTaxPortfolioReturn (withReturn i rate) + sideIncome i) / spend i.
Proof. repeat split. Qed.

Lemma verdictForR_mono i r r' :
  (0 <=? netWorth i) = true -> (investTaxRate i <=? 1) = true ->
  (0 <? spend i) = true ->
  (0 <=? r) = true -> (r <=? r') = true -> (r' <=? 1) = true ->
  scenario_improves (verdictForR i r) (verdictForR i r').
Proof.
  intros P0 T1 PS R0 L R1.
  destruct (verdictForR_withReturn i r) as (Y & C & V).
  destruct (verdictForR_withReturn i r') as (Y' & C' & V').
  unfold scenario_improves. rewrite Y, Y', C, C', V, V'. clear Y Y' C C' V V'.
  set (j := withReturn i r). set (j' := withReturn i r').
  set (A := afterTaxPortfolioReturn j). set (A' := afterTaxPortfolioReturn j').
  assert (PSn : (neg_infinity <? spend i) = true) by float_order.
  assert (Nn : is_nan (netWorth i) = false) by float_order.
  assert (MA : is_nan A = false ->
               is_nan A' = false /\ (0 <=? A) = true /\ (A <=? A') = true).
  { apply (atRet_mono (netWorth i) (netWorth i) r r' (investTaxRate i)); auto.
    now apply leb_refl. }
  assert (SA : forall c, (neg_infinity <? c) = true ->
                 (c <=? A + sideIncome i) = true ->
                 (c <=? A' + sideIncome i) = true
                 /\ (A + sideIncome i <=? A' + sideIncome i) = true).
  { intros c Pc C.
    assert (NX : nanZ (A + sideIncome i) = 0%Z) by (apply leb_true in C; tauto).
    destruct (add_ok _ _ NX) as (NA & Ns & _).
    apply is_nan_false in NA, Ns. destruct (MA NA) as (_ & _ & LA).
    now apply (sum_ge A A' (sideIncome i) (sideIncome i) c LA (leb_refl _ Ns)). }
  assert (Pc : (neg_infinity <? - CLOSE_BAND_FRACTION) = true) by reflexivity.
  assert (VI : (verdict j = "YES"%string -> verdict j' = "YES"%string)
               /\ (verdict j = "CLOSE"%string ->
                   verdict j' = "CLOSE"%string \/ verdict j' = "YES"%string)).
  { apply verdict_improves; auto.
    - unfold passRuleC, JS.geb. fold A A'.
      change (spend j) with (spend i). change (spend j') with (spend i).
      change (sideIncome j) with (sideIncome i).
      change (sideIncome j') with (sideIncome i).
      intros H. now apply SA.
    - intros _ G. unfold cGap, JS.geb in *. fold A A' in G |- *.
      change (spend j) with (spend i) in G. change (spend j') with (spend i).
      change (sideIncome j) with (sideIncome i) in G.
      change (sideIncome j') with (sideIncome i).
      destruct (gap_sum_above (A + sideIncome i) (spend i) (- CLOSE_BAND_FRACTION)
                  Pc PS G) as [NX PX].
      destruct (SA (A + sideIncome i) PX (leb_refl _ NX)) as [_ LX].
      now apply (gap_ge (A + sideIncome i) (A' + sideIncome i)). }
  destruct VI as [VY VC]. rewrite !verdict_YES, !verdict_CLOSE in *.
  split; [exact VY|]. split.
  - intros Cl. assert (Yj : isYes j = false).
    { unfold isClose in Cl. destruct (isYes j); [discriminate|reflexivity]. }
    destruct (VC (conj Yj Cl)) as [[_ ?]|?]; auto.
  - fold A A'. intros N N'. apply is_nan_false in N, N'.
    apply ltb_true in PS as (_ & _ & PS). rewrite Fval_0 in PS.
    destruct (div_ok _ _ PS N) as (N1 & _). destruct (div_ok _ _ PS N') as (N2 & _).
    destruct (add_ok _ _ N1) as (NA & _). apply is_nan_false in NA.
    destruct (MA NA) as (_ & _ & LA). apply leb_true in LA as (_ & _ & LA).
    pose proof (add_mono_Z A A' (sideIncome i) (sideIncome i) N1 N2 LA ltac:(lia)).
    apply leb_true. repeat split; auto. apply div_mono_Z; auto.
Qed.

(** X12: along the sensitivity card a higher assumed return never turns a
    YES into something else, never takes a scenario out of YES-or-CLOSE
    and never lowers the coverage, for a net worth that is not negative, a
    tax rate on returns of at most 1 and a positive [spend]. *)
Theorem sensitivity_monotone :
  forall i : Inputs,
    (0 <=? netWorth i) = true -> (investTaxRate i <=? 1) = true ->
    (0 <? spend i) = true ->
    ForallOrdPairs scenario_improves (sensitivity i).
Proof.
  intros i P0 T1 PS. unfold sensitivity, returnScenarios. cbn [map].
  repeat (apply FOP_cons;
          [repeat (apply Forall_cons;
                   [apply verdictForR_mono; auto; reflexivity|]);
           apply Forall_nil|]).
  apply FOP_nil.
Qed.

(** ** Edge inputs and the percent input *)

Lemma net_worth_not_positive_aux i :
  (netWorth i >? 0) = false ->
  salaryVsNW i = infinity /\ passRuleB i = false.
Proof.
  intros H.
  assert (S : salaryVsNW i = infinity) by (unfold salaryVsNW; now rewrite H).
  split; [exact S|]. unfold passRuleB. rewrite S. reflexivity.
Qed.

(** X13: a net worth that is not positive (zero, negative or NaN) makes the
    salary ratio +Infinity whatever the salary is: Rule B fails with the
    gap -Infinity and the verdict is NOT YET. *)
Theorem net_worth_not_positive :
  forall i : Inputs,
    (netWorth i >? 0) = false ->
    salaryVsNW i = infinity
    /\ passRuleB i = false
    /\ bGap i = neg_infinity
    /\ verdict i = "NOT YET"%string.
Proof.
  intros i H. destruct (net_worth_not_positive_aux i H) as [S P].
  assert (G : bGap i = neg_infinity) by (unfold bGap; rewrite S; reflexivity).
  repeat split; auto.
  assert (Y : isYes i = false) by (unfold isYes; rewrite P; reflexivity).
  assert (C : isClose i = false).
  { apply not_true_is_false. intros E. apply isClose_iff in E as (_ & [B|B] & _).
    - congruence.
    - rewrite G in B. vm_compute in B. discriminate. }
  unfold verdict. rewrite Y, C. reflexivity.
Qed.

Lemma fold_smaller_keeps (l : list Delta) (a : Delta) :
  (forall d, In d l -> (value a <=? value d) = true) ->
  fold_left smaller l a = a.
Proof.
  induction l as [|d l IH]; intros H; [reflexivity|].
  cbn [fold_left]. unfold smaller at 2. rewrite (H d (or_introl eq_refl)).
  apply IH. intros d' I. apply H. now right.
Qed.

Lemma zero_minus_zero a n :
  (a =? 0) = true -> (n =? 0) = true ->
  JS.Math_max [0; a / TARGET_SALARY_VS_NW - n] = 0.
Proof.
  intros A N. apply eqb_true in A as (Na & _ & A). apply eqb_true in N as (Nn & _ & N).
  rewrite Fval_0 in *. pose proof BIG_pos as PB.
  assert (Pt : (0 < Fval TARGET_SALARY_VS_NW < BIG)%Z) by (split; reflexivity).
  assert (Nq : nanZ (a / TARGET_SALARY_VS_NW) = 0%Z).
  { apply div_number; auto; try lia; intros [_ E]; lia. }
  destruct (div_sign_Z a TARGET_SALARY_VS_NW ltac:(lia) Nq) as [S1 S2].
  assert (Vq : Fval (a / TARGET_SALARY_VS_NW) = 0%Z) by lia.
  assert (Nd : nanZ (a / TARGET_SALARY_VS_NW - n) = 0%Z).
  { apply sub_number; auto; lia. }
  destruct (sub_sign_Z _ _ Nd) as (_ & _ & S3).
  rewrite Math_max_0.
  replace (is_nan (a / TARGET_SALARY_VS_NW - n)) with false
    by (symmetry; now apply is_nan_false).
  replace (0 <? a / TARGET_SALARY_VS_NW - n) with false; [reflexivity|].
  symmetry. apply ltb_false. right. right. rewrite Fval_0. rewrite S3; lia.
Qed.

(** X14: with no net worth and no after-tax salary Rule B still fails, the
    net-worth increase it asks for is 0 and, when no other magnitude is
    NaN, this is the lever selected: the advice is to add about $0. *)
Theorem no_salary_no_net_worth :
  forall (toLocaleString : float -> nat -> string) (i : Inputs),
    (netWorth i =? 0) = true ->
    (afterTaxSalary i =? 0) = true ->
    (forall d, In d (deltas i) -> is_nan (value d) = false) ->
    passRuleB i = false
    /\ deltaNW_B i = 0
    /\ best i = JS.Normal {| label := "Grow net worth (Rule B)"; value := 0 |}
    /\ nextStep toLocaleString i
       = JS.Normal ("Add about $" ++ toLocaleString 0 0%nat
                    ++ " to net worth to get salary ≤ "
                    ++ pct toLocaleString TARGET_SALARY_VS_NW ++ " of NW.")%string.
Proof.
  intros tl i N A ND.
  assert (G : (netWorth i >? 0) = false) by (unfold JS.gtb; float_order).
  destruct (net_worth_not_positive_aux i G) as [_ P].
  assert (D : deltaNW_B i = 0).
  { unfold deltaNW_B, neededNWforB. now apply zero_minus_zero. }
  assert (B : best i = JS.Normal {| label := "Grow net worth (Rule B)"; value := 0 |}).
  { unfold best. pose proof ND as ND'. revert ND'. unfold deltas at 1 2. rewrite P, D.
    cbn [app JS.reduce]. intros ND'. f_equal. apply fold_smaller_keeps.
    intros d I. cbn [value].
    assert (I' : In d (deltas i)).
    { unfold deltas. rewrite P, D. cbn [app]. right. exact I. }
    pose proof (ND d I') as Nv.
    pose proof (candidate_not_negative i d I') as V. float_order. }
  repeat split; auto.
  rewrite (nextStep_best tl i _ B). reflexivity.
Qed.

Lemma Math_max_0_positive y :
  is_nan y = false -> (0 <? JS.Math_max [0; y]) = (0 <? y).
Proof.
  intros N. rewrite Math_max_0, N.
  destruct (0 <? y) eqn:P; [exact P|reflexivity].
Qed.

(** The amount [Math.max(0, target - have)] is positive exactly when
    [have >= target] fails, unless it is NaN. *)
Lemma short_positive target have :
  is_nan (JS.Math_max [0; target - have]) = false ->
  (have >=? target) = false <-> (0 <? JS.Math_max [0; target - have]) = true.
Proof.
  intros N. rewrite Math_max_0_nan in N. rewrite (Math_max_0_positive _ N).
  apply is_nan_false in N. destruct (sub_ok _ _ N) as (Nt & Nh & _).
  destruct (sub_sign_Z _ _ N) as (S1 & S2 & S3).
  unfold JS.geb. rewrite leb_false, ltb_true, Fval_0, nanZ_0.
  split.
  - intros [H|[H|H]]; lia.
  - intros (_ & _ & H). right. right.
    destruct (Z_lt_le_dec (Fval have) (Fval target)) as [C|C]; [exact C|].
    destruct (Z.eq_dec (Fval have) (Fval target)) as [E|E].
    + rewrite S3 in H by lia. lia.
    + specialize (S2 ltac:(lia)). lia.
Qed.

(** X15: unless it is NaN, the amount that Rule C or the Buffer rule asks
    for is positive exactly when the rule fails: a failing rule never asks
    for nothing, and a passing rule asks for exactly 0. *)
Theorem failing_rule_asks_for_more :
  forall i : Inputs,
    (is_nan (shortfallC i) = false ->
     (passRuleC i = false <-> (0 <? shortfallC i) = true)
     /\ (passRuleC i = true -> shortfallC i = 0))
    /\ (is_nan (bufferShort i) = false ->
        (passBuffer i = false <-> (0 <? bufferShort i) = true)
        /\ (passBuffer i = true -> bufferShort i = 0)).
Proof.
  intros i. split; intros N.
  - split; [now apply short_positive|].
    intros P. destruct (0 <? shortfallC i) eqn:E.
    + apply (short_positive _ _ N) in E. unfold passRuleC in P. congruence.
    + unfold shortfallC in *. rewrite Math_max_0_nan in N.
      rewrite (Math_max_0_positive _ N) in E. rewrite Math_max_0, N, E. reflexivity.
  - split; [now apply short_positive|].
    intros P. destruct (0 <? bufferShort i) eqn:E.
    + apply (short_positive _ _ N) in E. unfold passBuffer in P. congruence.
    + unfold bufferShort in *. rewrite Math_max_0_nan in N.
      rewrite (Math_max_0_positive _ N) in E. rewrite Math_max_0, N, E. reflexivity.
Qed.

(** *** The percent input *)

(** X16: the rate that a percent input stores is NaN exactly when the text
    does not parse to a number, and is otherwise neither negative nor -0:
    a negative percentage is stored as 0, and one that is not negative as
    itself divided by 100 (as a number: -0 is stored as +0). *)
Theorem percent_input_never_negative :
  forall parsed : float,
    is_nan (PercentInput_onChange parsed) = is_nan parsed
    /\ (PercentInput_onChange parsed <? 0) = false
    /\ JS.isNegZero (PercentInput_onChange parsed) = false
    /\ ((parsed <? 0) = true -> PercentInput_onChange parsed = 0)
    /\ ((0 <=? parsed) = true ->
        (PercentInput_onChange parsed =? parsed / 100) = true).
Proof.
  intros p. unfold PercentInput_onChange.
  assert (P100 : (0 < Fval 100 < BIG)%Z) by (split; reflexivity).
  assert (Nq : is_nan (p / 100) = is_nan p).
  { destruct (is_nan p) eqn:N.
    - apply is_nan_true. apply div_nanZ; [lia|]. left. now apply is_nan_true.
    - apply is_nan_false. apply is_nan_false in N.
      apply div_number; auto; try lia; intros [_ E]; lia. }
  destruct (signed_not_negative _ (Math_max_0_signed (p / 100))) as [A B].
  split; [now rewrite Math_max_0_nan|]. split; [exact A|]. split; [exact B|].
  split.
  - intros L. rewrite Math_max_0, Nq.
    apply ltb_true in L as (Np & _ & L). rewrite Fval_0 in L.
    replace (is_nan p) with false by (symmetry; now apply is_nan_false).
    assert (Nd : nanZ (p / 100) = 0%Z).
    { apply is_nan_false. rewrite Nq. now apply is_nan_false. }
    destruct (div_sign_Z p 100 ltac:(lia) Nd) as [_ S].
    replace (0 <? p / 100) with false; [reflexivity|].
    symmetry. apply ltb_false. right. right. rewrite Fval_0. apply S. lia.
  - intros L. rewrite Math_max_0, Nq.
    apply leb_true in L as (_ & Np & L). rewrite Fval_0 in L.
    replace (is_nan p) with false by (symmetry; now apply is_nan_false).
    assert (Nd : nanZ (p / 100) = 0%Z).
    { apply is_nan_false. rewrite Nq. now apply is_nan_false. }
    destruct (div_sign_Z p 100 ltac:(lia) Nd) as [S _]. specialize (S L).
    destruct (0 <? p / 100) eqn:E; float_order.
Qed.

(** ** A twelfth times six *)

Local Open Scope Z_scope.

Lemma RNEq_third K : -1 <= 3 * RNEq K 3 - K <= 1.
Proof.
  destruct (RNEq_nearest K 3 ltac:(lia)) as ((A & B) & _). lia.
Qed.

Lemma RNEq_half k e : -1 <= e <= 1 -> RNEq (4 * k + e) 2 = 2 * k.
Proof.
  intros He.
  apply (nearest_even_unique (4 * k + e) 2 _ (4 * k + e) 2 _); try lia.
  - apply RNEq_nearest; lia.
  - unfold nearest_even. split; [lia|]. split; intros _; exists k; lia.
Qed.

Lemma RNEq_quarter k e : -1 <= e <= 1 -> RNEq (4 * k + e) 4 = k.
Proof.
  intros He.
  apply (nearest_even_unique (4 * k + e) 4 _ (4 * k + e) 4 _); try lia.
  - apply RNEq_nearest; lia.
  - unfold nearest_even. split; [lia|]. split; intros T; exfalso; lia.
Qed.

(** A whole number [n] below 2^52, divided by 12 and multiplied by 6 with a
    rounding after each step, is [n / 2]. *)
Lemma twelfth_times_six n :
  1 <= n < 2 ^ 52 -> RVz (6 * RVq (n * UNIT) 12) = n * 2 ^ 1073.
Proof.
  intros Hn. pose proof UNIT_pos as PU.
  set (N := n * UNIT).
  assert (N0 : 0 < N) by (unfold N; nia).
  set (Q := N / 12).
  pose proof (Z.div_mod N 12 ltac:(lia)) as DM.
  pose proof (Z.mod_pos_bound N 12 ltac:(lia)) as MB. fold Q in DM.
  assert (U16 : UNIT = 16 * 2 ^ 1070).
  { unfold UNIT. replace 1074 with (4 + 1070) by lia. rewrite pow2_split by lia.
    reflexivity. }
  assert (P1070 : 0 < 2 ^ 1070) by (apply pow2_pos; lia).
  assert (UT : 2 ^ 52 * UNIT = 8 * 2 ^ 1123).
  { unfold UNIT. rewrite <- pow2_split by lia.
    replace (52 + 1074) with (3 + 1123) by lia. rewrite pow2_split by lia.
    reflexivity. }
  assert (P1123 : 0 < 2 ^ 1123) by (apply pow2_pos; lia).
  assert (QL : 2 ^ 1070 <= Q) by (unfold N in *; nia).
  assert (QU : Q < 2 ^ 1123) by (unfold N in *; nia).
  pose proof (Zdigits2_ge Q 1071 ltac:(lia) QL) as DL.
  pose proof (Zdigits2_le Q 1123 ltac:(lia) ltac:(lia) QU) as DU.
  pose proof (Zdigits2_bounds Q ltac:(lia)) as [[BL BU] _].
  set (a := Zdigits2 Q - 53) in *.
  assert (Ea : Edig N 12 = a) by (unfold Edig; fold Q; lia).
  replace (Zdigits2 Q - 1) with (a + 52) in BL by lia.
  replace (Zdigits2 Q) with (a + 53) in BU by lia.
  rewrite pow2_split in BL, BU by lia.
  assert (Pa : 0 < 2 ^ a) by (apply pow2_pos; lia).
  set (j := 1072 - a).
  assert (Pj : 0 < 2 ^ (j - 2)) by (apply pow2_pos; lia).
  set (k := n * 2 ^ (j - 2)).
  assert (EN : N = 4 * k * (4 * 2 ^ a)).
  { unfold N, k, UNIT. replace 1074 with ((j - 2) + (2 + (2 + a))) by lia.
    rewrite !pow2_split by lia. change (2 ^ 2) with 4. ring. }
  assert (ET : n * 2 ^ 1073 = k * (8 * 2 ^ a)).
  { unfold k. replace 1073 with ((j - 2) + (3 + a)) by lia.
    rewrite !pow2_split by lia. change (2 ^ 3) with 8. ring. }
  assert (KL : 3 * 2 ^ 52 <= 4 * k) by nia.
  assert (KU : 4 * k < 3 * 2 ^ 53) by nia.
  (* the twelfth *)
  assert (R1 : RVq N 12 = RNEq (4 * k) 3 * 2 ^ a).
  { unfold RVq. replace (0 <=? N) with true by (symmetry; apply Z.leb_le; lia).
    unfold RV. rewrite Ea.
    rewrite (RNEq_ext N (12 * 2 ^ a) (4 * k) 3) by nia.
    apply Z.min_r. pose proof (RNEq_third (4 * k)) as T.
    assert (RNEq (4 * k) 3 * 2 ^ a < 2 ^ 55 * 2 ^ 1070).
    { assert (2 ^ a <= 2 ^ 1070) by (apply Z.pow_le_mono_r; lia).
      assert (RNEq (4 * k) 3 < 2 ^ 55) by lia.
      apply Z.le_lt_trans with (RNEq (4 * k) 3 * 2 ^ 1070).
      - apply Z.mul_le_mono_nonneg_l; lia.
      - apply Z.mul_lt_mono_pos_r; lia. }
    rewrite <- pow2_split in H by lia.
    assert (2 ^ (55 + 1070) <= BIG) by (unfold BIG; apply Z.pow_le_mono_r; lia).
    lia. }
  rewrite R1.
  pose proof (RNEq_third (4 * k)) as T.
  set (e := 3 * RNEq (4 * k) 3 - 4 * k) in *.
  set (W := 4 * k + e).
  assert (EV : 6 * (RNEq (4 * k) 3 * 2 ^ a) = W * 2 ^ (a + 1)).
  { rewrite pow2_split by lia. change (2 ^ 1) with 2. unfold W, e. ring. }
  rewrite EV.
  assert (WL : 2 ^ 53 <= W) by (unfold W; lia).
  assert (WU : W < 2 ^ 55) by (unfold W; lia).
  assert (TB : k * (8 * 2 ^ a) < BIG).
  { assert (2 ^ a <= 2 ^ 1070) by (apply Z.pow_le_mono_r; lia).
    assert (k * (8 * 2 ^ a) < 2 ^ 56 * 2 ^ 1070).
    { apply Z.le_lt_trans with (k * (8 * 2 ^ 1070)).
      - apply Z.mul_le_mono_nonneg_l; lia.
      - rewrite Z.mul_assoc. apply Z.mul_lt_mono_pos_r; lia. }
    rewrite <- pow2_split in H0 by lia.
    assert (2 ^ (56 + 1070) <= BIG) by (unfold BIG; apply Z.pow_le_mono_r; lia).
    lia. }
  assert (Pa1 : 0 < 2 ^ (a + 1)) by (apply pow2_pos; lia).
  unfold RVz. replace (0 <=? W * 2 ^ (a + 1)) with true
    by (symmetry; apply Z.leb_le, Z.mul_nonneg_nonneg; lia).
  unfold RV, Edig. rewrite Z.div_1_r, Zdigits2_shift by lia.
  rewrite ET.
  destruct (Z_lt_ge_dec W (2 ^ 54)) as [S|S].
  - pose proof (Zdigits2_ge W 54 ltac:(lia) WL).
    pose proof (Zdigits2_le W 54 ltac:(lia) ltac:(lia) S).
    replace (Z.max (Zdigits2 W + (a + 1) - 53) 0) with (a + 2) by lia.
    rewrite (RNEq_ext _ (1 * 2 ^ (a + 2)) W 2);
      [|rewrite pow2_split by lia; lia|lia
       |rewrite !pow2_split by lia; change (2 ^ 1) with 2; change (2 ^ 2) with 4; ring].
    unfold W. rewrite RNEq_half by lia.
    rewrite pow2_split by lia. change (2 ^ 2) with 4. rewrite Z.mul_comm with (n := 2 ^ a).
    replace (2 * k * (4 * 2 ^ a)) with (k * (8 * 2 ^ a)) by ring.
    apply Z.min_r. lia.
  - pose proof (Zdigits2_ge W 55 ltac:(lia) ltac:(lia)).
    pose proof (Zdigits2_le W 55 ltac:(lia) ltac:(lia) WU).
    replace (Z.max (Zdigits2 W + (a + 1) - 53) 0) with (a + 3) by lia.
    rewrite (RNEq_ext _ (1 * 2 ^ (a + 3)) W 4);
      [|rewrite pow2_split by lia; lia|lia
       |rewrite !pow2_split by lia; change (2 ^ 1) with 2; change (2 ^ 3) with 8; ring].
    unfold W. rewrite RNEq_quarter by lia.
    rewrite pow2_split by lia. change (2 ^ 3) with 8. rewrite Z.mul_comm with (n := 2 ^ a).
    apply Z.min_r. lia.
Qed.

(** A whole number of at most 53 bits at a binary exponent that is not
    negative is a binary64 value. *)
Lemma RVz_scaled n j :
  0 <= n <= 2 ^ 53 -> 0 <= j -> n * 2 ^ j < BIG -> RVz (n * 2 ^ j) = n * 2 ^ j.
Proof.
  intros Hn Hj B. pose proof (pow2_pos j Hj) as Pj.
  destruct (Z.eq_dec n 0) as [->|Nz]; [apply RVz_0|].
  unfold RVz. replace (0 <=? n * 2 ^ j) with true
    by (symmetry; apply Z.leb_le, Z.mul_nonneg_nonneg; lia).
  unfold RV, Edig. rewrite Z.div_1_r, Z.mul_1_l, Zdigits2_shift by lia.
  assert (D : Zdigits2 n <= 54) by (apply Zdigits2_le; lia).
  pose proof (Zdigits2_bounds n ltac:(lia)) as [[L U] D1].
  set (E := Z.max (Zdigits2 n + j - 53) 0).
  assert (PE : 0 < 2 ^ E) by (apply pow2_pos; unfold E; lia).
  destruct (Z_le_gt_dec E j) as [LE|GT].
  - replace (n * 2 ^ j) with (n * 2 ^ (j - E) * 2 ^ E) at 1
      by (rewrite <- Z.mul_assoc, <- pow2_split by (unfold E in *; lia);
          do 2 f_equal; lia).
    rewrite RNEq_exact by lia.
    rewrite <- Z.mul_assoc, <- pow2_split by (unfold E in *; lia).
    replace (j - E + E) with j by lia. apply Z.min_r. lia.
  - assert (D54 : Zdigits2 n = 54) by (unfold E in *; lia).
    assert (EJ : E = j + 1) by (unfold E in *; lia).
    rewrite D54 in L. change (2 ^ (54 - 1)) with (2 ^ 53) in L.
    assert (N53 : n = 2 ^ 53) by lia.
    rewrite EJ, N53. replace (2 ^ 53 * 2 ^ j) with (2 ^ 52 * 2 ^ (j + 1)) at 1
      by (rewrite pow2_split by lia; change (2 ^ 1) with 2; lia).
    rewrite RNEq_exact by (apply pow2_pos; lia).
    replace (2 ^ 52 * 2 ^ (j + 1)) with (2 ^ 53 * 2 ^ j)
      by (rewrite pow2_split by lia; change (2 ^ 1) with 2; lia).
    apply Z.min_r. lia.
Qed.

Local Close Scope Z_scope.

(** Numbers that compare equal are the same number, but for the two
    zeros. *)
Lemma eqb_Leibniz a b : (a =? b) = true -> Fval a <> 0%Z -> a = b.
Proof.
  intros E NZ. apply Prim2SF_inj. rewrite FloatAxioms.eqb_spec in E.
  unfold SFeqb, Fval in *.
  destruct (Prim2SF a) as [s1|s1| |s1 m1 e1], (Prim2SF b) as [s2|s2| |s2 m2 e2];
    cbn [SFcompare SFval] in *; try discriminate E;
    try (exfalso; apply NZ; reflexivity);
    try (destruct s1; discriminate E); try (destruct s2; discriminate E);
    try (destruct s1, s2; try discriminate E; reflexivity).
  change (PosDef.Pos.compare_cont Eq m1 m2) with (Pos.compare m1 m2) in E.
  destruct s1, s2; try discriminate E;
      destruct (Z.compare_spec e1 e2) as [->| |]; try discriminate E;
      destruct (Pos.compare_spec m1 m2) as [->| |]; try discriminate E;
      reflexivity.
Qed.

(** Half of a whole number below 2^52 is a twelfth of it times six. *)
Lemma half_is_six_twelfths s :
  (0 <=? s) = true -> (s <? 4503599627370496) = true ->
  JS.Math_round s = s ->
  s / 2 = s / 12 * 6.
Proof.
  intros P U R.
  apply leb_true in P as (_ & Ns & P). apply ltb_true in U as (_ & _ & U).
  rewrite Fval_0 in P.
  pose proof UNIT_pos as PU. pose proof BIG_pos as PB.
  assert (U52 : Fval 4503599627370496 = (2 ^ 52 * UNIT)%Z) by reflexivity.
  assert (UB : (2 ^ 53 * UNIT < BIG)%Z) by reflexivity.
  rewrite U52 in U.
  assert (Fs : is_fin (Fval s)) by (unfold is_fin; lia).
  pose proof (Math_round_value s Ns Fs) as V. rewrite R in V.
  set (n := ((2 * Fval s + UNIT) / (2 * UNIT))%Z) in *.
  assert (Hn : (0 <= n < 2 ^ 52)%Z) by nia.
  destruct (Z.eq_dec n 0) as [Z0|NZ].
  - assert (Z1 : Fval s = 0%Z) by lia.
    rewrite <- (SF2Prim_Prim2SF s). unfold Fval, nanZ in *.
    pose proof (Prim2SF_valid s) as VS.
    destruct (Prim2SF s) as [[]|[]| |[] m e]; cbn [SFval sf_nan cond_Zopp] in *;
      try lia; try reflexivity;
      pose proof (SFval_finite_bounds m e VS); lia.
  - assert (F2 : Fval 2 = (2 * UNIT)%Z) by reflexivity.
    assert (F12 : Fval 12 = (12 * UNIT)%Z) by reflexivity.
    assert (F6 : Fval 6 = (6 * UNIT)%Z) by reflexivity.
    assert (N6 : nanZ 6 = 0%Z) by reflexivity.
    assert (T : (n * 2 ^ 1073 < BIG)%Z).
    { assert (E : (2 * 2 ^ 1073 = UNIT)%Z) by reflexivity. nia. }
    assert (P1073 : (0 < 2 ^ 1073)%Z) by (apply pow2_pos; lia).
    (* the half *)
    assert (N1 : nanZ (s / 2) = 0%Z).
    { apply div_number; auto; try lia; unfold is_inf; lia. }
    assert (V1 : Fval (s / 2) = (n * 2 ^ 1073)%Z).
    { destruct (div_val s 2 ltac:(lia) N1) as (_ & _ & D).
      rewrite D by (unfold is_fin in *; lia). rewrite V, F2.
      rewrite (RVq_ext _ _ (n * 2 ^ 1073) 1) by
        (try lia; change UNIT with (2 * 2 ^ 1073)%Z; ring).
      rewrite <- RVz_RVq. apply RVz_scaled; lia. }
    (* the twelfth *)
    assert (N2 : nanZ (s / 12) = 0%Z).
    { apply div_number; auto; try lia; unfold is_inf; lia. }
    assert (V2 : Fval (s / 12) = RVq (n * UNIT) 12).
    { destruct (div_val s 12 ltac:(lia) N2) as (_ & _ & D).
      rewrite D by (unfold is_fin in *; lia). rewrite V, F12.
      apply RVq_ext; try lia; ring. }
    assert (B2 : (0 <= Fval (s / 12) <= n * UNIT)%Z).
    { rewrite V2. split; [apply RVq_nonneg; lia|].
      assert (0 <= n * UNIT)%Z by (apply Z.mul_nonneg_nonneg; lia).
      apply Z.le_trans with (RVq (n * UNIT) 1); [apply RVq_mono; lia|].
      rewrite <- RVz_RVq, RVz_integer by lia. lia. }
    assert (N3 : nanZ (s / 12 * 6) = 0%Z).
    { apply mul_number; auto; unfold is_inf; nia. }
    assert (V3 : Fval (s / 12 * 6) = (n * 2 ^ 1073)%Z).
    { destruct (mul_val (s / 12) 6 N3) as (_ & M).
      rewrite M by (unfold is_fin; nia). rewrite V2, F6.
      rewrite (RVq_ext _ _ (6 * RVq (n * UNIT) 12) 1) by (try lia; ring).
      rewrite <- RVz_RVq. apply twelfth_times_six. lia. }
    apply eqb_Leibniz.
    + apply eqb_true. repeat split; auto. congruence.
    + rewrite V1. nia.
Qed.

(** ** The two revisions *)

(** With the same buffer target the two revisions give the same results. *)
Lemma same_target i :
  spend i / 2 = bufferTarget i ->
  V1.passBuffer i = passBuffer i
  /\ V1.bufferGap i = bufferGap i
  /\ V1.verdict i = verdict i
  /\ V1.driver i = driver i
  /\ V1.best i = best i.
Proof.
  intros E.
  assert (P : V1.passBuffer i = passBuffer i)
    by (unfold V1.passBuffer, passBuffer; now rewrite E).
  assert (G : V1.bufferGap i = bufferGap i)
    by (unfold V1.bufferGap, bufferGap; now rewrite E).
  assert (S : V1.bufferShort i = bufferShort i)
    by (unfold V1.bufferShort, bufferShort; now rewrite E).
  assert (Y : V1.isYes i = isYes i)
    by (unfold V1.isYes, isYes; now rewrite P).
  assert (C : V1.isClose i = isClose i).
  { unfold V1.isClose, isClose, V1.worstGap, worstGap, V1.failingGaps, failingGaps.
    now rewrite Y, P, G. }
  repeat split; auto.
  - unfold V1.verdict, verdict. now rewrite Y, C.
  - unfold V1.driver, driver. now rewrite P, G, Y.
  - unfold V1.best, best, V1.deltas, deltas. now rewrite P, S.
Qed.

(** The selected lever is never "Cut spending". *)
Lemma best_label i b :
  best i = JS.Normal b ->
  label b = "Grow net worth (Rule B)"%string
  \/ label b = "Add side income"%string
  \/ label b = "Grow net worth (Rule C)"%string
  \/ label b = "Hold more cash"%string.
Proof.
  by_flags i; by_comparisons; intros H; try discriminate H;
    injection H as <-; cbn [label]; auto; exfalso; float_order.
Qed.

Lemma append_inv_head (a s t : string) : (a ++ s = a ++ t)%string -> s = t.
Proof.
  induction a as [|c a IH]; cbn [append]; intros H; [exact H|].
  injection H as H. apply IH, H.
Qed.

(** The two revisions word the same sentence for "Add side income" and for
    "Cut spending", and different sentences for every other label. *)
Lemma sentences_agree tl b :
  V1.sentence tl b = sentence tl b
  <-> label b = "Add side income"%string \/ label b = "Cut spending"%string.
Proof.
  unfold V1.sentence, sentence.
  change (V1.pretty tl (value b)) with (pretty tl (value b)).
  destruct (String.eqb_spec (label b) "Grow net worth (Rule B)") as [E|_].
  { split.
    - intros H. exfalso. apply append_inv_head, append_inv_head in H.
      cbn [append] in H. discriminate H.
    - intros [H|H]; rewrite H in E; discriminate E. }
  destruct (String.eqb_spec (label b) "Add side income") as [E|N2].
  { split; [now left|reflexivity]. }
  destruct (String.eqb_spec (label b) "Cut spending") as [E|N3].
  { split; [now right|reflexivity]. }
  destruct (String.eqb_spec (label b) "Grow net worth (Rule C)") as [E|_].
  { split.
    - intros H. exfalso. apply append_inv_head, append_inv_head in H.
      discriminate H.
    - intros [H|H]; rewrite H in E; discriminate E. }
  destruct (String.eqb_spec (label b) "Hold more cash") as [E|_].
  { split.
    - intros H. exfalso. apply append_inv_head, append_inv_head in H.
      discriminate H.
    - intros [H|H]; rewrite H in E; discriminate E. }
  split; [intros H; discriminate H|].
  intros [H|H]; contradiction.
Qed.

(** With the same buffer target the two revisions list the same
    candidates. *)
Lemma same_target_deltas i :
  spend i / 2 = bufferTarget i -> V1.deltas i = deltas i.
Proof.
  intros E.
  assert (P : V1.passBuffer i = passBuffer i)
    by (unfold V1.passBuffer, passBuffer; now rewrite E).
  assert (S : V1.bufferShort i = bufferShort i)
    by (unfold V1.bufferShort, bufferShort; now rewrite E).
  unfold V1.deltas, deltas. now rewrite P, S.
Qed.

(** X17: the two revisions of the page compute Rule B and Rule C in the
    same way.  Where the buffer targets [spend / 2] and [(spend / 12) * 6]
    are the same number they also give the same Buffer result, gap,
    verdict, driver, candidates and selected lever; their next-step texts
    name the same lever and amount but are worded differently, and are the
    same text exactly when the selected lever is "Add side income".  The
    two targets are not always the same number: a spend of $26,376.73 with
    half of it in cash is YES for the first revision and CLOSE for the
    second. *)
Theorem revisions_compared :
  (forall i : Inputs,
      V1.passRuleB i = passRuleB i /\ V1.bGap i = bGap i
      /\ V1.passRuleC i = passRuleC i /\ V1.cGap i = cGap i
      /\ (spend i / 2 = bufferTarget i ->
          V1.passBuffer i = passBuffer i
          /\ V1.bufferGap i = bufferGap i
          /\ V1.verdict i = verdict i
          /\ V1.driver i = driver i
          /\ V1.deltas i = deltas i
          /\ V1.best i = best i
          /\ forall toLocaleString : float -> nat -> string,
              (isYes i = true ->
               V1.nextStep toLocaleString i
               = JS.Normal "Take a nap. You’re coasting."%string
               /\ nextStep toLocaleString i = JS.Normal "You can coast."%string)
              /\ (forall b, best i = JS.Normal b ->
                  V1.nextStep toLocaleString i
                  = JS.Normal (V1.sentence toLocaleString b)
                  /\ nextStep toLocaleString i
                     = JS.Normal (sentence toLocaleString b))
              /\ (V1.nextStep toLocaleString i = nextStep toLocaleString i
                  <-> exists b, best i = JS.Normal b
                                /\ label b = "Add side income"%string)))
  /\ (forall (toLocaleString : float -> nat -> string) (b : Delta),
        V1.sentence toLocaleString b = sentence toLocaleString b
        <-> label b = "Add side income"%string \/ label b = "Cut spending"%string)
  /\ (finiteInputs centsExample = true
      /\ spend centsExample / 2 = cashOnHand centsExample
      /\ (spend centsExample / 2 <? bufferTarget centsExample) = true
      /\ V1.verdict centsExample = "YES"%string
      /\ verdict centsExample = "CLOSE"%string).
Proof.
  split; [|split; [apply sentences_agree|vm_compute; repeat split]].
  intros i. repeat (split; [reflexivity|]). intros E.
  destruct (same_target i E) as (P & G & V & D & B).
  pose proof (same_target_deltas i E) as L.
  repeat (split; [assumption|]).
  intros tl.
  assert (N1 : forall b, best i = JS.Normal b ->
                         V1.nextStep tl i = JS.Normal (V1.sentence tl b)).
  { intros b Hb. unfold V1.nextStep. rewrite L, B.
    unfold best in *. destruct (deltas i); [discriminate Hb|].
    cbn [JS.reduce] in *. rewrite Hb. reflexivity. }
  assert (Y1 : isYes i = true ->
               V1.nextStep tl i = JS.Normal "Take a nap. You’re coasting."%string).
  { intros Y. unfold V1.nextStep. rewrite L.
    apply deltas_empty_iff in Y. rewrite Y. reflexivity. }
  split; [|split].
  - intros Y. split; [now apply Y1|now apply nextStep_coasting].
  - intros b Hb. split; [now apply N1|now apply nextStep_best].
  - destruct (isYes i) eqn:Y.
    + rewrite (Y1 eq_refl), (nextStep_coasting tl i Y). split.
      * intros H. discriminate H.
      * intros (b & Hb & _). unfold best in Hb.
        apply deltas_empty_iff in Y. rewrite Y in Hb. discriminate Hb.
    + destruct (best_normal i Y) as (b & Hb & _).
      rewrite (N1 b Hb), (nextStep_best tl i b Hb). split.
      * intros H. injection H as H. apply sentences_agree in H.
        exists b. split; [exact Hb|].
        destruct H as [H|H]; [exact H|].
        destruct (best_label i b Hb) as [K|[K|[K|K]]]; rewrite K in H;
          try discriminate H. 
      * intros (b' & Hb' & K). rewrite Hb in Hb'. injection Hb' as <-.
        f_equal. apply sentences_agree. now left.
Qed.

(** X18: for a spend that is a whole number of dollars, not negative and
    below 2^52, the two buffer targets are the same number: the two
    revisions give the same Buffer result, gap, verdict, driver and
    selected lever. *)
Theorem whole_dollar_spend_revisions_agree :
  forall i : Inputs,
    (0 <=? spend i) = true -> (spend i <? 4503599627370496) = true ->
    JS.Math_round (spend i) = spend i ->
    spend i / 2 = bufferTarget i
    /\ V1.passBuffer i = passBuffer i
    /\ V1.bufferGap i = bufferGap i
    /\ V1.verdict i = verdict i
    /\ V1.driver i = driver i
    /\ V1.best i = best i.
Proof.
  intros i P U R.
  assert (E : spend i / 2 = bufferTarget i).
  { unfold bufferTarget, CASH_BUFFER_MONTHS. now apply half_is_six_twelfths. }
  split; [exact E|]. now apply same_target.
Qed.

(** ** The properties at example inputs *)

Lemma nextStep_never_cut_spending_witness :
  isYes example1 = false
  /\ exists b,
      best example1 = JS.Normal b
      /\ In b (deltas example1)
      /\ label b <> "Cut spending"%string.
Proof.
  split; [reflexivity|].
  destruct (nextStep_never_cut_spending (fun _ _ => EmptyString) example1 eq_refl)
    as (b & B & I & L & _).
  exists b. repeat split; assumption.
Defined.

Lemma grow_net_worth_C_never_selected_witness :
  (atRetPerDollar noReturn >? 0) = false
  /\ exists b,
      best noReturn = JS.Normal b
      /\ deltaNW_C noReturn = JS.Infinity
      /\ label b <> "Grow net worth (Rule C)"%string.
Proof.
  split; [reflexivity|].
  destruct (best noReturn) as [b|e] eqn:B; [|vm_compute in B; discriminate B].
  exists b. split; [reflexivity|].
  apply (grow_net_worth_C_never_selected noReturn b); [reflexivity|reflexivity|exact B].
Defined.

Lemma candidate_amounts_never_negative_witness :
  let d := {| label := "Hold more cash"; value := bufferShort example1 |} in
  In d (deltas example1)
  /\ (value d <? 0) = false
  /\ JS.isNegZero (value d) = false
  /\ shownAmount (value d) = JS.Math_round (value d).
Proof.
  intros d.
  assert (I : In d (deltas example1)).
  { vm_compute. right. left. reflexivity. }
  split; [exact I|]. apply (candidate_amounts_never_negative example1 d I).
Defined.

Lemma shown_amount_is_nearest_integer_witness :
  (0 <=? 30000.4) = true
  /\ JS.Math_round (shownAmount 30000.4) = shownAmount 30000.4
  /\ (-0.5 <=? shownAmount 30000.4 - 30000.4) = true
  /\ (shownAmount 30000.4 - 30000.4 <=? 0.5) = true.
Proof.
  split; [reflexivity|].
  apply (shown_amount_is_nearest_integer 30000.4); reflexivity.
Defined.

Lemma net_worth_not_positive_witness :
  (netWorth zeroNetWorth >? 0) = false
  /\ salaryVsNW zeroNetWorth = infinity
  /\ passRuleB zeroNetWorth = false
  /\ bGap zeroNetWorth = neg_infinity
  /\ verdict zeroNetWorth = "NOT YET"%string.
Proof.
  split; [reflexivity|].
  apply (net_worth_not_positive zeroNetWorth). reflexivity.
Defined.

Lemma no_salary_no_net_worth_witness :
  passRuleB nothingYet = false
  /\ deltaNW_B nothingYet = 0
  /\ best nothingYet = JS.Normal {| label := "Grow net worth (Rule B)"; value := 0 |}.
Proof.
  destruct (no_salary_no_net_worth (fun _ _ => EmptyString) nothingYet)
    as (P & D & B & _).
  - reflexivity.
  - reflexivity.
  - intros d Hd. vm_compute in Hd.
    repeat (destruct Hd as [<-|Hd]; [reflexivity|]). destruct Hd.
  - repeat split; assumption.
Defined.

Lemma cashOnHand_monotone_witness :
  (cashOnHand example1 <? 90000) = true
  /\ (bufferShort example1 <? bufferShort (withCashOnHand example1 90000)) = false.
Proof.
  split; [reflexivity|].
  destruct (cashOnHand_monotone example1 90000 eq_refl) as (_ & S & _).
  exact S.
Defined.

Lemma sideIncome_monotone_witness :
  (sideIncome example1 <? 50000) = true
  /\ (0 <? spend example1) = true
  /\ (shortfallC example1 <? shortfallC (withSideIncome example1 50000)) = false.
Proof.
  split; [reflexivity|]. split; [reflexivity|].
  destruct (sideIncome_monotone example1 50000 eq_refl eq_refl) as (_ & S & _).
  exact S.
Defined.

Lemma spend_antitone_witness :
  (spend example1 <? 200000) = true
  /\ (shortfallC (withSpend example1 200000) <? shortfallC example1) = false
  /\ (bufferShort (withSpend example1 200000) <? bufferShort example1) = false.
Proof.
  split; [reflexivity|].
  destruct (spend_antitone example1 200000 eq_refl) as (_ & _ & S & B).
  split; assumption.
Defined.

Lemma salary_antitone_witness :
  (salary example1 <? 500000) = true
  /\ (deltaNW_B (withSalary example1 500000) <? deltaNW_B example1) = false.
Proof.
  split; [reflexivity|].
  destruct (salary_antitone example1 500000 eq_refl eq_refl eq_refl eq_refl)
    as (_ & S & _).
  exact S.
Defined.

Lemma netWorth_never_worsens_verdict_witness :
  (netWorth closeExample <? 5000000) = true
  /\ verdict closeExample = "CLOSE"%string
  /\ (verdict (withNetWorth closeExample 5000000) = "CLOSE"%string
      \/ verdict (withNetWorth closeExample 5000000) = "YES"%string).
Proof.
  split; [reflexivity|]. split; [reflexivity|].
  destruct (netWorth_never_worsens_verdict closeExample 5000000
              eq_refl eq_refl eq_refl eq_refl eq_refl eq_refl eq_refl)
    as (_ & _ & _ & C).
  apply C. reflexivity.
Defined.

Lemma sensitivity_monotone_witness :
  ForallOrdPairs scenario_improves (sensitivity example1).
Proof.
  apply (sensitivity_monotone example1); reflexivity.
Defined.

Lemma whole_dollar_spend_revisions_agree_witness :
  JS.Math_round (spend example1) = spend example1
  /\ spend example1 / 2 = bufferTarget example1
  /\ V1.verdict example1 = verdict example1.
Proof.
  split; [reflexivity|].
  destruct (whole_dollar_spend_revisions_agree example1 eq_refl eq_refl eq_refl)
    as (E & _ & _ & V & _).
  split; assumption.
Defined.
